(** * Road-graph augmentation and validation: a shallow embedding

    This development embeds the two scripts that build and certify the road
    graph,

    - [scripts/augment_road_segments.py]  (node snapping, adjacency, classification,
      graph version), and
    - [scripts/validate_road_graph.py]    (components, reachability, dead ends,
      thresholds),

    and proves properties of them.

    Conventions of the embedding:

    - Python [float]s are rationals ([Q]).  Every constant the scripts compare
      against (0.30, 0.50, 0.90, 60, ...) is a decimal and is represented
      exactly; [math.sqrt] only occurs under a comparison with a non-negative
      constant or under [round], and [math.atan2] is a parameter of the
      section that needs it.
    - Python [str] is [string] (a sequence of bytes, the UTF-8 encoding that
      [str.encode] produces; byte order on UTF-8 coincides with code point
      order, which is what [sorted] compares).
    - A raised exception is a value of [exn]; functions that can raise return
      [result].
    - A [dict] whose iteration order matters is an insertion-ordered
      association list ([odict]); a [dict] that is only looked up is a
      [gmap]. *)

From Stdlib Require Import QArith Qround Qabs Qminmax Lqa.
From Stdlib Require Import DecimalString DecimalNat.
From stdpp Require Import base option list gmap strings sorting.

Open Scope Q_scope.
Open Scope string_scope.
Open Scope list_scope.

(** ** Exceptions *)

Inductive exn : Set :=
  | IndexError
  | KeyError
  | ValueError
  | ZeroDivisionError
  | AssertionError
  | RecursionError.

Inductive result (A : Type) : Type :=
  | Ok (a : A)
  | Raise (e : exn).
Arguments Ok {A} a.
Arguments Raise {A} e.

Definition result_bind {A B} (f : A -> result B) (r : result A) : result B :=
  match r with
  | Ok a => f a
  | Raise e => Raise e
  end.

#[export] Instance result_ret : MRet result := fun A a => Ok a.
#[export] Instance result_mbind : MBind result := fun A B f r => result_bind f r.

Definition of_option {A} (e : exn) (o : option A) : result A :=
  match o with
  | Some a => Ok a
  | None => Raise e
  end.

(** [for x in xs: s = body(x, s)] with exceptions. *)
Fixpoint for_each {A S} (body : A -> S -> result S) (xs : list A) (s : S) : result S :=
  match xs with
  | [] => Ok s
  | x :: xs' => s' ← body x s; for_each body xs' s'
  end.

(** ** Numbers *)

Definition Qleb (a b : Q) : bool := Qle_bool a b.
Definition Qltb (a b : Q) : bool := negb (Qle_bool b a).
Definition Qgtb (a b : Q) : bool := Qltb b a.
Definition Qgeb (a b : Q) : bool := Qleb b a.

(** Python's [min(a, b)] and [max(a, b)] on two arguments: the first argument
    is returned unless the second is strictly smaller (larger). *)
Definition py_min (a b : Q) : Q := if Qltb b a then b else a.
Definition py_max (a b : Q) : Q := if Qltb a b then b else a.

(** [min(xs)] / [max(xs)] of a list: [ValueError] on the empty list. *)
Definition min_list (xs : list Q) : result Q :=
  match xs with
  | [] => Raise ValueError
  | x :: xs' => Ok (fold_left py_min xs' x)
  end.

Definition max_list (xs : list Q) : result Q :=
  match xs with
  | [] => Raise ValueError
  | x :: xs' => Ok (fold_left py_max xs' x)
  end.

Definition Qsum (xs : list Q) : Q := fold_left Qplus xs 0.

(** [a / b] on numbers: [ZeroDivisionError] when [b] is zero. *)
Definition py_div (a b : Q) : result Q :=
  if Qeq_bool b 0 then Raise ZeroDivisionError else Ok (a / b).

(** [round(x, ndigits)]: nearest multiple of [10^-ndigits], ties to even. *)
Definition round_half_even (x : Q) : Z :=
  let f := Qfloor x in
  let r := x - inject_Z f in
  if Qltb r (1 # 2) then f
  else if Qltb (1 # 2) r then (f + 1)%Z
  else if Z.even f then f else (f + 1)%Z.

Definition py_round (x : Q) (ndigits : nat) : Q :=
  let scale := inject_Z (10 ^ Z.of_nat ndigits) in
  Qred (inject_Z (round_half_even (x * scale)) / scale).

(** ** Constants of [augment_road_segments.py] *)

Definition SNAP_RADIUS : Q := 10.
Definition ANGLE_THRESHOLD : Q := 60.
Definition SPAWN_RATE_THRESHOLD : Q := 30 # 100.
Definition SPEED_RATIO_THRESHOLD : Q := 50 # 100.
Definition LENGTH_THRESHOLD : Q := 150.
Definition BOUNDARY_BUFFER : Q := 50.

(** ** Constants of [validate_road_graph.py] *)

Definition LARGEST_COMPONENT_THRESHOLD : Q := 90 # 100.
Definition INTERIOR_DEAD_END_THRESHOLD : Q := 5 # 100.
Definition ENTRY_REACHABILITY_THRESHOLD : Q := 85 # 100.

(** ** Python containers *)

(** [l[i]] with Python's negative indices; [IndexError] out of range. *)
Definition py_index {A} (l : list A) (i : Z) : result A :=
  let n := Z.of_nat (length l) in
  let j := if (i <? 0)%Z then (i + n)%Z else i in
  if ((0 <=? j) && (j <? n))%Z then of_option IndexError (l !! Z.to_nat j)
  else Raise IndexError.

(** [str(n)] / [f"{n}"] for a non-negative integer. *)
Definition str_nat (n : nat) : string := NilEmpty.string_of_uint (Nat.to_uint n).

(** [f"{n:04d}"]: decimal, left-padded with zeros to width 4. *)
Definition zero_pad (width : nat) (s : string) : string :=
  Nat.iter (width - String.length s) (String (Ascii.ascii_of_nat 48)) s.

Definition fmt_04d (n : nat) : string := zero_pad 4 (str_nat n).

(** Insertion-ordered dictionaries: [od_set] overwrites in place when the key
    is present and appends otherwise, as a Python [dict] does. *)
Definition odict (V : Type) : Type := list (string * V).

Fixpoint od_get {V} (d : odict V) (k : string) : option V :=
  match d with
  | [] => None
  | (k', v) :: d' => if decide (k' = k) then Some v else od_get d' k
  end.

Fixpoint od_set {V} (d : odict V) (k : string) (v : V) : odict V :=
  match d with
  | [] => [(k, v)]
  | (k', v') :: d' =>
      if decide (k' = k) then (k, v) :: d' else (k', v') :: od_set d' k v
  end.

Definition od_keys {V} (d : odict V) : list string := d.*1.
Definition od_values {V} (d : odict V) : list V := d.*2.
Definition od_mem {V} (d : odict V) (k : string) : bool := bool_decide (is_Some (od_get d k)).

(** [d[k].append(i)] on a [defaultdict(list)]. *)
Definition od_append {V} (d : odict (list V)) (k : string) (i : V) : odict (list V) :=
  od_set d k (default [] (od_get d k) ++ [i]).

(** [sorted(xs, key=...)]: Python's sort is stable, and a stable sort is
    determined by its comparison; [le a b] says that [a] may stay in front
    of [b]. *)
Fixpoint sorted_insert {A} (le : A -> A -> bool) (a : A) (l : list A) : list A :=
  match l with
  | [] => [a]
  | b :: l' => if le a b then a :: b :: l' else b :: sorted_insert le a l'
  end.

Definition sorted_by {A} (le : A -> A -> bool) (l : list A) : list A :=
  foldr (sorted_insert le) [] l.

(** ** Data model of [augment_road_segments.py] *)

Definition Point3D : Type := Q * Q * Q.
Definition pt_x (p : Point3D) : Q := p.1.1.   (* pt[0] *)
Definition pt_z (p : Point3D) : Q := p.2.     (* pt[2] *)

(** A segment record.  The first five fields are the input; the others are
    the keys the pipeline adds.  Every added key is written before it is
    read, so the values given to them in an input record are never
    observed. *)
Record segment : Type := mk_segment {
  seg_id : string;
  points : list Point3D;
  avgSpeedMph : Q;
  freeFlowSpeedMph : Q;
  spawnRates : list Q;
  startHeadingDeg : Q;
  endHeadingDeg : Q;
  successors : list string;
  predecessors : list string;
  startNodeId : string;
  endNodeId : string;
  speedRatio : Q;
  lengthMeters : Q;
  isMajor : bool;
  isEntry : bool
}.

(** An input record: only the raw keys are meaningful. *)
Definition raw_segment (i : string) (pts : list Point3D) (avg free : Q)
    (rates : list Q) : segment :=
  mk_segment i pts avg free rates 0 0 [] [] "" "" 0 0 false false.

Record Endpoint : Type := mk_endpoint {
  ep_x : Q;
  ep_z : Q;
  segment_id : string;
  is_start : bool
}.

Record RoadNode : Type := mk_node {
  node_id : string;
  position : Q * Q;
  outgoing : list string;
  incoming : list string;
  isBoundary : bool
}.

Record DataBounds : Type := mk_bounds {
  xMin : Q;
  xMax : Q;
  zMin : Q;
  zMax : Q
}.

(** ** Union-find ([class UnionFind]) *)

Section UnionFind.
Context `{Countable K}.

Record UnionFind : Type := mk_uf {
  parent : gmap K K;
  rank : gmap K nat
}.

Definition uf_new : UnionFind := mk_uf ∅ ∅.

Definition make_set (x : K) (uf : UnionFind) : UnionFind :=
  match parent uf !! x with
  | Some _ => uf
  | None => mk_uf (<[x := x]> (parent uf)) (<[x := 0%nat]> (rank uf))
  end.

(** [find] recurses along parent links and compresses the path on the way
    back.  [depth] bounds the recursion; exhausting it is a
    [RecursionError]. *)
Fixpoint find (depth : nat) (x : K) (uf : UnionFind) : result (K * UnionFind) :=
  match depth with
  | O => Raise RecursionError
  | S depth' =>
      p ← of_option KeyError (parent uf !! x);
      if decide (p = x) then Ok (p, uf)
      else
        '(r, uf1) ← find depth' p uf;
        Ok (r, mk_uf (<[x := r]> (parent uf1)) (rank uf1))
  end.

Definition union (depth : nat) (x y : K) (uf : UnionFind) : result UnionFind :=
  '(rx, uf1) ← find depth x uf;
  '(ry, uf2) ← find depth y uf1;
  if decide (rx = ry) then Ok uf2
  else
    kx ← of_option KeyError (rank uf2 !! rx);
    ky ← of_option KeyError (rank uf2 !! ry);
    (* union by rank: [rx, ry = ry, rx] when rank[rx] < rank[ry] *)
    let '(rx, ry, kx, ky) :=
      if (kx <? ky)%nat then (ry, rx, ky, kx) else (rx, ry, kx, ky) in
    let parent' := <[ry := rx]> (parent uf2) in
    if (kx =? ky)%nat
    then Ok (mk_uf parent' (<[rx := S kx]> (rank uf2)))
    else Ok (mk_uf parent' (rank uf2)).
End UnionFind.

Arguments UnionFind K {_ _}.

(** ** Helper functions of [augment_road_segments.py] *)

(** [distance(p1, p2)] is [math.sqrt(dx*dx + dz*dz)].  The script only uses
    it as [distance(..) < SNAP_RADIUS]; the square root is increasing, so that
    comparison is the comparison of the squares, which is what
    [distance_lt] computes. *)
Definition distance_sq (p1 p2 : Endpoint) : Q :=
  let dx := ep_x p1 - ep_x p2 in
  let dz := ep_z p1 - ep_z p2 in
  dx * dx + dz * dz.

Definition distance_lt (p1 p2 : Endpoint) (radius : Q) : bool :=
  Qltb (distance_sq p1 p2) (radius * radius).

Definition angle_difference (h1 h2 : Q) : Q :=
  let diff := Qabs (h1 - h2) in
  py_min diff (360 - diff).

(** [compute_data_bounds]: the extent of all raw points.  The script stores
    it in the module-level [DATA_BOUNDS]; here it is returned and passed on. *)
Definition compute_data_bounds (segments : list segment) : result DataBounds :=
  let xs := concat (map (fun seg => map pt_x (points seg)) segments) in
  let zs := concat (map (fun seg => map pt_z (points seg)) segments) in
  x0 ← min_list xs;
  x1 ← max_list xs;
  z0 ← min_list zs;
  z1 ← max_list zs;
  Ok (mk_bounds x0 x1 z0 z1).

Definition is_near_boundary (b : DataBounds) (x z : Q) : bool :=
  Qltb x (xMin b + BOUNDARY_BUFFER) ||
  Qgtb x (xMax b - BOUNDARY_BUFFER) ||
  Qltb z (zMin b + BOUNDARY_BUFFER) ||
  Qgtb z (zMax b - BOUNDARY_BUFFER).

(** ** [build_node_set] *)

(** Lines 199-215: two endpoints per segment, in segment order. *)
Definition segment_endpoints (seg : segment) : result (list Endpoint) :=
  p0 ← py_index (points seg) 0;
  pl ← py_index (points seg) (-1);
  Ok [ mk_endpoint (pt_x p0) (pt_z p0) (seg_id seg) true;
       mk_endpoint (pt_x pl) (pt_z pl) (seg_id seg) false ].

Definition collect_endpoints (segments : list segment) : result (list Endpoint) :=
  for_each (fun seg eps => new ← segment_endpoints seg; Ok (eps ++ new)) segments [].

(** Lines 219-224: [ep_id = f"{i}"] for every endpoint index. *)
Definition make_endpoint_ids (n : nat) : list string := map str_nat (seq 0 n).

Definition make_sets (endpoint_ids : list string) : UnionFind string :=
  fold_left (fun uf ep_id => make_set ep_id uf) endpoint_ids uf_new.

(** The recursion budget given to [find]: no chain of parent links is ever
    this long (lemma [build_node_set_total] below). *)
Definition find_depth (n : nat) : nat := S (n * n).

(** Lines 226-232: union every pair of endpoints closer than the radius. *)
Definition merge_pair (endpoints : list Endpoint) (endpoint_ids : list string)
    (i j : nat) (uf : UnionFind string) : result (UnionFind string) :=
  ei ← of_option IndexError (endpoints !! i);
  ej ← of_option IndexError (endpoints !! j);
  if distance_lt ei ej SNAP_RADIUS then
    idi ← of_option IndexError (endpoint_ids !! i);
    idj ← of_option IndexError (endpoint_ids !! j);
    union (find_depth (length endpoints)) idi idj uf
  else Ok uf.

Definition merge_endpoints (endpoints : list Endpoint) (endpoint_ids : list string)
    (uf : UnionFind string) : result (UnionFind string) :=
  let n := length endpoints in
  for_each (fun i uf =>
    for_each (merge_pair endpoints endpoint_ids i) (seq (S i) (n - S i)) uf)
    (seq 0 n) uf.

(** Lines 236-240: group endpoint indices by cluster root, in first-seen
    order of the roots. *)
Definition group_step (depth : nat) (i : nat) (ep_id : string)
    (st : UnionFind string * odict (list nat))
    : result (UnionFind string * odict (list nat)) :=
  '(root, uf') ← find depth ep_id st.1;
  Ok (uf', od_append st.2 root i).

Fixpoint group_from (depth : nat) (i : nat) (endpoint_ids : list string)
    (st : UnionFind string * odict (list nat))
    : result (UnionFind string * odict (list nat)) :=
  match endpoint_ids with
  | [] => Ok st
  | ep_id :: rest => st' ← group_step depth i ep_id st; group_from depth (S i) rest st'
  end.

Definition group_clusters (depth : nat) (endpoint_ids : list string)
    (uf : UnionFind string) : result (odict (list nat)) :=
  st ← group_from depth 0 endpoint_ids (uf, []); Ok st.2.

(** Lines 249-274: one node per cluster. *)
Definition NodeMaps : Type := gmap string string * gmap string string.

Definition assign_endpoint (endpoints : list Endpoint) (nid : string) (i : nat)
    (st : RoadNode * NodeMaps) : result (RoadNode * NodeMaps) :=
  ep ← of_option IndexError (endpoints !! i);
  let '(node, (start_node_map, end_node_map)) := st in
  if is_start ep then
    Ok (mk_node (node_id node) (position node)
                (outgoing node ++ [segment_id ep]) (incoming node) (isBoundary node),
        (<[segment_id ep := nid]> start_node_map, end_node_map))
  else
    Ok (mk_node (node_id node) (position node)
                (outgoing node) (incoming node ++ [segment_id ep]) (isBoundary node),
        (start_node_map, <[segment_id ep := nid]> end_node_map)).

Definition coords (endpoints : list Endpoint) (f : Endpoint -> Q) (indices : list nat)
    : result (list Q) :=
  for_each (fun i acc => ep ← of_option IndexError (endpoints !! i); Ok (acc ++ [f ep]))
    indices [].

Definition centroid (endpoints : list Endpoint) (indices : list nat) : result (Q * Q) :=
  xs ← coords endpoints ep_x indices;
  cx ← py_div (Qsum xs) (inject_Z (Z.of_nat (length indices)));
  zs ← coords endpoints ep_z indices;
  cz ← py_div (Qsum zs) (inject_Z (Z.of_nat (length indices)));
  Ok (cx, cz).

Definition make_node_id (node_idx : nat) : string := "node_" +:+ fmt_04d node_idx.

Definition build_node (bounds : DataBounds) (endpoints : list Endpoint)
    (node_idx : nat) (indices : list nat)
    (st : odict RoadNode * NodeMaps) : result (odict RoadNode * NodeMaps) :=
  '(cx, cz) ← centroid endpoints indices;
  let nid := make_node_id node_idx in
  let node := mk_node nid (py_round cx 2, py_round cz 2) [] []
                      (is_near_boundary bounds cx cz) in
  '(node', maps) ← for_each (assign_endpoint endpoints nid) indices (node, st.2);
  Ok (od_set st.1 nid node', maps).

Fixpoint build_nodes_from (bounds : DataBounds) (endpoints : list Endpoint)
    (node_idx : nat) (clusters : odict (list nat))
    (st : odict RoadNode * NodeMaps) : result (odict RoadNode * NodeMaps) :=
  match clusters with
  | [] => Ok st
  | (_, indices) :: rest =>
      st' ← build_node bounds endpoints node_idx indices st;
      build_nodes_from bounds endpoints (S node_idx) rest st'
  end.

Definition cluster_endpoints (endpoints : list Endpoint) : result (odict (list nat)) :=
  let endpoint_ids := make_endpoint_ids (length endpoints) in
  uf ← merge_endpoints endpoints endpoint_ids (make_sets endpoint_ids);
  group_clusters (find_depth (length endpoints)) endpoint_ids uf.

Definition build_node_set (bounds : DataBounds) (segments : list segment)
    : result (odict RoadNode * NodeMaps) :=
  endpoints ← collect_endpoints segments;
  clusters ← cluster_endpoints endpoints;
  build_nodes_from bounds endpoints 0 clusters ([], (∅, ∅)).

(** ** [build_adjacency] and [augment_segments] *)

(** Field updates ([seg['key'] = value]). *)
Definition set_headings (sh eh : Q) (s : segment) : segment :=
  mk_segment (seg_id s) (points s) (avgSpeedMph s) (freeFlowSpeedMph s) (spawnRates s)
    sh eh (successors s) (predecessors s) (startNodeId s) (endNodeId s)
    (speedRatio s) (lengthMeters s) (isMajor s) (isEntry s).

Definition set_successors (l : list string) (s : segment) : segment :=
  mk_segment (seg_id s) (points s) (avgSpeedMph s) (freeFlowSpeedMph s) (spawnRates s)
    (startHeadingDeg s) (endHeadingDeg s) l (predecessors s) (startNodeId s) (endNodeId s)
    (speedRatio s) (lengthMeters s) (isMajor s) (isEntry s).

Definition set_predecessors (l : list string) (s : segment) : segment :=
  mk_segment (seg_id s) (points s) (avgSpeedMph s) (freeFlowSpeedMph s) (spawnRates s)
    (startHeadingDeg s) (endHeadingDeg s) (successors s) l (startNodeId s) (endNodeId s)
    (speedRatio s) (lengthMeters s) (isMajor s) (isEntry s).

Definition set_augmented (sn en : string) (ratio len : Q) (major entry : bool)
    (s : segment) : segment :=
  mk_segment (seg_id s) (points s) (avgSpeedMph s) (freeFlowSpeedMph s) (spawnRates s)
    (startHeadingDeg s) (endHeadingDeg s) (successors s) (predecessors s) sn en
    ratio len major entry.

(** [seg_map = {s['id']: s for s in segments}].  The values of [seg_map] are
    the very objects of the list [segments] (a later record wins on a repeated
    id), and the passes below mutate them through either name.  The list is
    therefore the store, and [seg_map] maps an id to a position in it. *)
Fixpoint index_segments (i : nat) (segments : list segment) (m : gmap string nat)
    : gmap string nat :=
  match segments with
  | [] => m
  | s :: rest => index_segments (S i) rest (<[seg_id s := i]> m)
  end.

Definition make_seg_map (segments : list segment) : gmap string nat :=
  index_segments 0 segments ∅.

Fixpoint map_result {A B} (f : A -> result B) (l : list A) : result (list B) :=
  match l with
  | [] => Ok []
  | a :: l' => b ← f a; bs ← map_result f l'; Ok (b :: bs)
  end.

(** [is_major] and [is_entry] as [augment_segments] computes them. *)
Definition is_major (max_spawn speed_ratio length_meters : Q) : bool :=
  Qgtb max_spawn SPAWN_RATE_THRESHOLD ||
  Qgtb speed_ratio SPEED_RATIO_THRESHOLD ||
  Qgtb length_meters LENGTH_THRESHOLD.

Definition is_entry (start_boundary : bool) (preds : list string) : bool :=
  start_boundary || (length preds =? 0)%nat.

Section Adjacency.
(** [atan2_deg y x] stands for [math.atan2(y, x) * 180 / math.pi], and
    [sqrt] for [math.sqrt]. *)
Variable atan2_deg : Q -> Q -> Q.
Variable sqrt : Q -> Q.

(** [a % m] on floats, for positive [m]. *)
Definition py_mod (a m : Q) : Q := a - m * inject_Z (Qfloor (a / m)).

Definition compute_heading (from_pt to_pt : Point3D) : Q :=
  let dx := pt_x to_pt - pt_x from_pt in
  let dz := pt_z to_pt - pt_z from_pt in
  let heading := atan2_deg dx (- dz) in
  py_mod (heading + 360) 360.

Fixpoint compute_length_from (prev : Point3D) (rest : list Point3D) (total : Q) : Q :=
  match rest with
  | [] => total
  | p :: rest' =>
      let dx := pt_x p - pt_x prev in
      let dz := pt_z p - pt_z prev in
      compute_length_from p rest' (total + sqrt (dx * dx + dz * dz))
  end.

Definition compute_length (pts : list Point3D) : Q :=
  match pts with
  | [] => 0
  | p :: rest => compute_length_from p rest 0
  end.

(** First pass (lines 291-294). *)
Definition heading_step (seg : segment) : result segment :=
  p0 ← py_index (points seg) 0;
  p1 ← py_index (points seg) 1;
  pm2 ← py_index (points seg) (-2);
  pm1 ← py_index (points seg) (-1);
  Ok (set_headings (compute_heading p0 p1) (compute_heading pm2 pm1) seg).

(** Second pass (lines 297-316), for the segment at position [k]. *)
Definition candidate_step (store : list segment) (seg_map : gmap string nat)
    (seg : segment) (candidate_id : string) (acc : list string) : result (list string) :=
  if decide (candidate_id = seg_id seg) then Ok acc
  else
    ci ← of_option KeyError (seg_map !! candidate_id);
    candidate ← of_option IndexError (store !! ci);
    if Qleb (angle_difference (endHeadingDeg seg) (startHeadingDeg candidate))
            ANGLE_THRESHOLD
    then Ok (acc ++ [candidate_id])
    else Ok acc.

Definition successor_step (nodes : odict RoadNode) (end_node_map : gmap string string)
    (seg_map : gmap string nat) (k : nat) (st : list segment * nat)
    : result (list segment * nat) :=
  seg ← of_option IndexError (st.1 !! k);
  end_node_id ← of_option KeyError (end_node_map !! seg_id seg);
  end_node ← of_option KeyError (od_get nodes end_node_id);
  succs ← for_each (candidate_step st.1 seg_map seg) (outgoing end_node) [];
  Ok (<[k := set_successors succs seg]> st.1, (st.2 + length succs)%nat).

(** Third pass (lines 321-326). *)
Definition predecessor_link (seg_map : gmap string nat) (from_id : string)
    (succ_id : string) (store : list segment) : result (list segment) :=
  ci ← of_option KeyError (seg_map !! succ_id);
  target ← of_option IndexError (store !! ci);
  Ok (<[ci := set_predecessors (predecessors target ++ [from_id]) target]> store).

Definition predecessor_step (seg_map : gmap string nat) (k : nat)
    (store : list segment) : result (list segment) :=
  seg ← of_option IndexError (store !! k);
  for_each (predecessor_link seg_map (seg_id seg)) (successors seg) store.

Definition count_links (f : segment -> list string) (segments : list segment) : nat :=
  sum_list_with (fun s => length (f s)) segments.

Definition build_adjacency (segments : list segment) (nodes : odict RoadNode)
    (start_node_map end_node_map : gmap string string) : result (list segment) :=
  let seg_map := make_seg_map segments in
  store1 ← map_result heading_step segments;
  '(store2, total_successors) ←
    for_each (successor_step nodes end_node_map seg_map)
             (seq 0 (length store1)) (store1, 0%nat);
  let store3 := map (set_predecessors []) store2 in
  store4 ← for_each (predecessor_step seg_map) (seq 0 (length store3)) store3;
  let pred_count := count_links predecessors store4 in
  if decide (pred_count = total_successors) then Ok store4
  else Raise AssertionError.

(** [augment_segments], one segment (lines 343-370). *)
Definition augment_step (nodes : odict RoadNode)
    (start_node_map end_node_map : gmap string string) (seg : segment)
    : result segment :=
  sn ← of_option KeyError (start_node_map !! seg_id seg);
  en ← of_option KeyError (end_node_map !! seg_id seg);
  speed_ratio ← py_div (avgSpeedMph seg) (freeFlowSpeedMph seg);
  let ratio := py_max (1 # 100) (py_min 1 (py_round speed_ratio 3)) in
  let len := py_round (compute_length (points seg)) 2 in
  max_spawn ← max_list (spawnRates seg);
  let major := is_major max_spawn ratio len in
  start_node ← of_option KeyError (od_get nodes sn);
  let entry := is_entry (isBoundary start_node) (predecessors seg) in
  Ok (set_augmented sn en ratio len major entry seg).

Definition count_if (f : segment -> bool) (segments : list segment) : nat :=
  length (filter (fun s => f s = true) segments).

Definition augment_segments (segments : list segment) (nodes : odict RoadNode)
    (start_node_map end_node_map : gmap string string) : result (list segment) :=
  out ← map_result (augment_step nodes start_node_map end_node_map) segments;
  (* the two summary lines divide by [len(segments)] *)
  _ ← py_div (inject_Z (Z.of_nat (count_if isMajor out)))
             (inject_Z (Z.of_nat (length out)));
  Ok out.
End Adjacency.

(** ** [compute_graph_version]

    [hashlib.md5(data.encode()).hexdigest()[:12]], with MD5 (RFC 1321) on
    32-bit words written out. *)

Module MD5.
Local Open Scope Z_scope.

Definition mask32 : Z := 4294967295.
Definition w32 (x : Z) : Z := Z.land x mask32.
Definition add32 (x y : Z) : Z := w32 (x + y).
Definition not32 (x : Z) : Z := Z.lxor x mask32.
Definition rotl32 (x : Z) (c : Z) : Z :=
  w32 (Z.lor (Z.shiftl x c) (Z.shiftr x (32 - c))).

Definition shifts : list Z :=
  [ 7; 12; 17; 22; 7; 12; 17; 22; 7; 12; 17; 22; 7; 12; 17; 22;
    5; 9; 14; 20; 5; 9; 14; 20; 5; 9; 14; 20; 5; 9; 14; 20;
    4; 11; 16; 23; 4; 11; 16; 23; 4; 11; 16; 23; 4; 11; 16; 23;
    6; 10; 15; 21; 6; 10; 15; 21; 6; 10; 15; 21; 6; 10; 15; 21 ].

Definition sines : list Z :=
  [ 3614090360; 3905402710; 606105819; 3250441966;
    4118548399; 1200080426; 2821735955; 4249261313;
    1770035416; 2336552879; 4294925233; 2304563134;
    1804603682; 4254626195; 2792965006; 1236535329;
    4129170786; 3225465664; 643717713; 3921069994;
    3593408605; 38016083; 3634488961; 3889429448;
    568446438; 3275163606; 4107603335; 1163531501;
    2850285829; 4243563512; 1735328473; 2368359562;
    4294588738; 2272392833; 1839030562; 4259657740;
    2763975236; 1272893353; 4139469664; 3200236656;
    681279174; 3936430074; 3572445317; 76029189;
    3654602809; 3873151461; 530742520; 3299628645;
    4096336452; 1126891415; 2878612391; 4237533241;
    1700485571; 2399980690; 4293915773; 2240044497;
    1873313359; 4264355552; 2734768916; 1309151649;
    4149444226; 3174756917; 718787259; 3951481745 ].

Definition state : Type := Z * Z * Z * Z.

(** Little-endian bytes of a word, and back. *)
Definition le_bytes (n : nat) (x : Z) : list Z :=
  map (fun i => Z.land (Z.shiftr x (8 * Z.of_nat i)) 255) (seq 0 n).

Fixpoint le_word (bs : list Z) : Z :=
  match bs with
  | [] => 0
  | b :: bs' => b + 256 * le_word bs'
  end.

Fixpoint chunks {A} (k : nat) (n : nat) (l : list A) : list (list A) :=
  match n with
  | O => []
  | S n' => take k l :: chunks k n' (drop k l)
  end.

Definition pad (msg : list Z) : list Z :=
  let len := Z.of_nat (length msg) in
  let zeros := Z.to_nat ((55 - len) mod 64) in
  msg ++ [128] ++ repeat 0 zeros ++ le_bytes 8 (8 * len).

Definition round (m : list Z) (i : nat) (st : state) : state :=
  let '(a, b, c, d) := st in
  let iz := Z.of_nat i in
  let '(f, g) :=
    if iz <? 16 then (Z.lor (Z.land b c) (Z.land (not32 b) d), iz)
    else if iz <? 32 then (Z.lor (Z.land d b) (Z.land (not32 d) c), (5 * iz + 1) mod 16)
    else if iz <? 48 then (Z.lxor (Z.lxor b c) d, (3 * iz + 5) mod 16)
    else (Z.lxor c (Z.lor b (not32 d)), (7 * iz) mod 16) in
  let f' := add32 (add32 (add32 f a) (nth i sines 0)) (nth (Z.to_nat g) m 0) in
  (d, add32 b (rotl32 f' (nth i shifts 0)), b, c).

Definition block (st : state) (bytes : list Z) : state :=
  let m := map le_word (chunks 4 16 bytes) in
  let '(a0, b0, c0, d0) := st in
  let '(a, b, c, d) := fold_left (fun s i => round m i s) (seq 0 64) st in
  (add32 a0 a, add32 b0 b, add32 c0 c, add32 d0 d).

Definition init : state := (1732584193, 4023233417, 2562383102, 271733878).

Definition digest (msg : list Z) : list Z :=
  let p := pad msg in
  let '(a, b, c, d) := fold_left block (chunks 64 (length p / 64) p) init in
  le_bytes 4 a ++ le_bytes 4 b ++ le_bytes 4 c ++ le_bytes 4 d.

Definition hex_digit (x : Z) : Ascii.ascii :=
  Ascii.ascii_of_N (Z.to_N (if x <? 10 then 48 + x else 87 + x)).

Definition hex_byte (b : Z) : string :=
  String (hex_digit (Z.shiftr b 4)) (String (hex_digit (Z.land b 15)) EmptyString).

Definition encode (s : string) : list Z :=
  map (fun c => Z.of_N (Ascii.N_of_ascii c)) (String.list_ascii_of_string s).

Definition hexdigest (s : string) : string :=
  String.concat "" (map hex_byte (digest (encode s))).
End MD5.

(** [s[:n]] on strings. *)
Definition str_take (n : nat) (s : string) : string := String.substring 0 n s.

Definition version_item (s : segment) : string :=
  seg_id s +:+ ":" +:+ str_nat (length (points s)).

Definition by_id (a b : segment) : bool := String.leb (seg_id a) (seg_id b).

(** The string that is hashed. *)
Definition version_data (segments : list segment) : string :=
  String.concat "|" (map version_item (sorted_by by_id segments)).

Definition compute_graph_version (segments : list segment) : string :=
  str_take 12 (MD5.hexdigest (version_data segments)).

(** ** [main] of [augment_road_segments.py], without the file I/O *)

Record GraphOutput : Type := mk_output {
  out_segments : list segment;
  out_nodes : list RoadNode;
  nodeCount : nat;
  majorSegmentCount : nat;
  entryPointCount : nat;
  totalSuccessorLinks : nat;
  graphVersion : string
}.

Section Main.
Variable atan2_deg : Q -> Q -> Q.
Variable sqrt : Q -> Q.

Definition augment_main (segments : list segment) : result GraphOutput :=
  bounds ← compute_data_bounds segments;
  '(nodes, (start_node_map, end_node_map)) ← build_node_set bounds segments;
  segs1 ← build_adjacency atan2_deg segments nodes start_node_map end_node_map;
  segs2 ← augment_segments sqrt segs1 nodes start_node_map end_node_map;
  let total_successor_links := count_links successors segs2 in
  (* the summary prints [total_successor_links / len(segments)] *)
  _ ← py_div (inject_Z (Z.of_nat total_successor_links))
             (inject_Z (Z.of_nat (length segs2)));
  Ok (mk_output segs2 (od_values nodes) (length nodes)
        (count_if isMajor segs2) (count_if isEntry segs2)
        total_successor_links (compute_graph_version segs2)).
End Main.

(** ** [validate_road_graph.py] *)

(** [{s['id']: s for s in graph_data['segments']}] and the same for nodes. *)
Definition segment_dict (segments : list segment) : odict segment :=
  fold_left (fun d s => od_set d (seg_id s) s) segments [].

Definition node_dict (nodes : list RoadNode) : odict RoadNode :=
  fold_left (fun d n => od_set d (node_id n) n) nodes [].

(** [[i for i in ids if i not in seen and i in segments]]: what one visited
    segment appends to the queue. *)
Definition unseen_known (segments : odict segment) (seen : gset string)
    (ids : list string) : list string :=
  filter (fun i => (i ∉ seen) ∧ is_Some (od_get segments i)) ids.

(** The [while queue:] loops.  [budget] bounds the number of iterations; the
    budgets below are never exhausted (lemmas [bfs_component_total] and
    [bfs_reachable_total]). *)
Fixpoint bfs_component (budget : nat) (segments : odict segment)
    (queue : list string) (visited component : gset string)
    : result (gset string * gset string) :=
  match queue with
  | [] => Ok (visited, component)
  | current_id :: queue' =>
      match budget with
      | O => Raise RecursionError
      | S budget' =>
          if decide (current_id ∈ visited)
          then bfs_component budget' segments queue' visited component
          else
            let visited' := visited ∪ {[current_id]} in
            let component' := component ∪ {[current_id]} in
            segment ← of_option KeyError (od_get segments current_id);
            bfs_component budget' segments
              (queue' ++ unseen_known segments visited' (successors segment)
                      ++ unseen_known segments visited' (predecessors segment))
              visited' component'
      end
  end.

Definition link_budget (segments : odict segment) : nat :=
  sum_list_with
    (fun kv => S (length (successors kv.2) + length (predecessors kv.2))) segments.

Definition by_size_desc (a b : gset string) : bool := (size b <=? size a)%nat.

Definition component_step (segments : odict segment) (seg_id : string)
    (st : gset string * list (gset string)) : result (gset string * list (gset string)) :=
  if decide (seg_id ∈ st.1) then Ok st
  else
    '(visited', component) ←
      bfs_component (S (link_budget segments)) segments [seg_id] st.1 ∅;
    Ok (visited', st.2 ++ [component]).

Definition find_connected_components (segments : odict segment)
    : result (list (gset string)) :=
  st ← for_each (component_step segments) (od_keys segments) (∅, []);
  Ok (sorted_by by_size_desc st.2).

Fixpoint bfs_reachable (budget : nat) (segments : odict segment)
    (queue : list string) (reachable : gset string) : result (gset string) :=
  match queue with
  | [] => Ok reachable
  | current_id :: queue' =>
      match budget with
      | O => Raise RecursionError
      | S budget' =>
          if decide (current_id ∈ reachable)
          then bfs_reachable budget' segments queue' reachable
          else
            let reachable' := reachable ∪ {[current_id]} in
            match od_get segments current_id with
            | Some segment =>
                bfs_reachable budget' segments
                  (queue' ++ unseen_known segments reachable' (successors segment))
                  reachable'
            | None => bfs_reachable budget' segments queue' reachable'
            end
      end
  end.

Definition find_reachable_from_entries (segments : odict segment)
    : result (gset string) :=
  let entry_segments := od_keys (filter (fun kv => isEntry kv.2 = true) segments) in
  bfs_reachable (length entry_segments + link_budget segments) segments
    entry_segments ∅.

(** [count_dead_ends]: [(interior, boundary)]. *)
Definition dead_end_step (nodes : odict RoadNode) (segment : segment)
    (st : nat * nat) : nat * nat :=
  if (length (successors segment) =? 0)%nat then
    match od_get nodes (endNodeId segment) with
    | Some end_node =>
        if isBoundary end_node then (st.1, S st.2) else (S st.1, st.2)
    | None => (S st.1, st.2)
    end
  else st.

Definition count_dead_ends (segments : odict segment) (nodes : odict RoadNode)
    : nat * nat :=
  fold_left (fun st s => dead_end_step nodes s st) (od_values segments) (0%nat, 0%nat).

Definition Qnat (n : nat) : Q := inject_Z (Z.of_nat n).

(** [count / len(segments) if segments else 0]. *)
Definition fraction_of (count : nat) (segments : odict segment) : result Q :=
  match segments with
  | [] => Ok 0
  | _ => py_div (Qnat count) (Qnat (length segments))
  end.

Record Statistics : Type := mk_stats {
  st_avgSuccessors : Q;
  st_avgPredecessors : Q;
  st_entryPointCount : nat;
  st_majorSegmentCount : nat
}.

Definition compute_statistics (segments : odict segment) : result Statistics :=
  let total_successors := count_links successors (od_values segments) in
  let total_predecessors := count_links predecessors (od_values segments) in
  let entry_count := count_if isEntry (od_values segments) in
  let major_count := count_if isMajor (od_values segments) in
  avg_s ← fraction_of total_successors segments;
  avg_p ← fraction_of total_predecessors segments;
  Ok (mk_stats avg_s avg_p entry_count major_count).

(** The three messages of the [failures] list; each carries the percentage
    that its text prints. *)
Inductive failure : Type :=
  | LargestComponentBelow (pct : Q)
  | InteriorDeadEndsAbove (pct : Q)
  | EntryReachabilityBelow (pct : Q).

(** What sections 1-4 of [validate_graph] measure. *)
Record Analysis : Type := mk_analysis {
  a_totalSegments : nat;
  a_totalNodes : nat;
  a_componentCount : nat;
  a_largest_size : nat;
  a_largest_pct : Q;
  a_reachable : nat;
  a_reachable_pct : Q;
  a_interior_dead : nat;
  a_interior_dead_pct : Q;
  a_boundary_dead : nat;
  a_stats : Statistics
}.

Definition analyse (segment_list : list segment) (node_list : list RoadNode)
    : result Analysis :=
  let segments := segment_dict segment_list in
  let nodes := node_dict node_list in
  components ← find_connected_components segments;
  let largest_size := match components with c :: _ => size c | [] => 0%nat end in
  largest_pct ← fraction_of largest_size segments;
  reachable ← find_reachable_from_entries segments;
  reachable_pct ← fraction_of (size reachable) segments;
  let '(interior_dead, boundary_dead) := count_dead_ends segments nodes in
  interior_dead_pct ← fraction_of interior_dead segments;
  stats ← compute_statistics segments;
  Ok (mk_analysis (length segments) (length nodes) (length components)
        largest_size largest_pct (size reachable) reachable_pct
        interior_dead interior_dead_pct boundary_dead stats).

(** Section 5 of [validate_graph]: the threshold checks, in source order. *)
Definition check_thresholds (a : Analysis) : list failure :=
  (if Qltb (a_largest_pct a) LARGEST_COMPONENT_THRESHOLD
   then [LargestComponentBelow (a_largest_pct a * 100)] else []) ++
  (if Qgtb (a_interior_dead_pct a) INTERIOR_DEAD_END_THRESHOLD
   then [InteriorDeadEndsAbove (a_interior_dead_pct a * 100)] else []) ++
  (if Qltb (a_reachable_pct a) ENTRY_REACHABILITY_THRESHOLD
   then [EntryReachabilityBelow (a_reachable_pct a * 100)] else []).

Record ValidationReport : Type := mk_report {
  totalSegments : nat;
  totalNodes : nat;
  componentCount : nat;
  largestComponentSize : nat;
  largestComponentPct : Q;
  reachableFromEntries : nat;
  reachableFromEntriesPct : Q;
  interiorDeadEnds : nat;
  interiorDeadEndPct : Q;
  boundaryDeadEnds : nat;
  r_entryPointCount : nat;
  r_majorSegmentCount : nat;
  avgSuccessors : Q;
  avgPredecessors : Q;
  passed : bool;
  failures : list failure
}.

Definition make_report (a : Analysis) : ValidationReport :=
  let failures := check_thresholds a in
  let passed := (length failures =? 0)%nat in
  mk_report (a_totalSegments a) (a_totalNodes a) (a_componentCount a)
    (a_largest_size a) (py_round (a_largest_pct a * 100) 2)
    (a_reachable a) (py_round (a_reachable_pct a * 100) 2)
    (a_interior_dead a) (py_round (a_interior_dead_pct a * 100) 2)
    (a_boundary_dead a)
    (st_entryPointCount (a_stats a)) (st_majorSegmentCount (a_stats a))
    (py_round (st_avgSuccessors (a_stats a)) 2)
    (py_round (st_avgPredecessors (a_stats a)) 2)
    passed failures.

Definition validate_graph (segment_list : list segment) (node_list : list RoadNode)
    : result ValidationReport :=
  a ← analyse segment_list node_list; Ok (make_report a).

(** [main]: the value handed to [sys.exit]. *)
Definition exit_status (report : ValidationReport) : Z :=
  if passed report then 0%Z else 1%Z.

Definition validate_main (segment_list : list segment) (node_list : list RoadNode)
    : result (ValidationReport * Z) :=
  report ← validate_graph segment_list node_list;
  Ok (report, exit_status report).


(** ** A small graph to run the definitions on

    [demo_s] runs north and ends where [demo_c60], [demo_c61] and [demo_far]
    start; [demo_atan2] is [atan2_deg] on the directions that occur: it puts
    [demo_c60] at exactly 60 degrees and [demo_c61] at 60.01 degrees. *)

Definition demo_atan2 (y x : Q) : Q :=
  if Qeq_bool y 0 then 0
  else if Qeq_bool y 866 then 60
  else if Qeq_bool y 867 then 6001 # 100
  else 90.

Definition demo_sqrt (v : Q) : Q :=
  if Qeq_bool v 100 then 10 else 1000.

Definition demo_s : segment :=
  raw_segment "s" [(0, 0, 0); (0, 0, -10)] 12 30 [5 # 100].
Definition demo_c60 : segment :=
  raw_segment "c60" [(0, 0, -10); (866, 0, -510)] 12 30 [5 # 100].
Definition demo_c61 : segment :=
  raw_segment "c61" [(3, 0, -10); (870, 0, -510)] 12 30 [5 # 100].
Definition demo_far : segment :=
  raw_segment "far" [(9, 0, -16); (2000, 0, -16)] 12 30 [5 # 100].

Definition demo_segments : list segment := [demo_s; demo_c60; demo_c61; demo_far].

Definition demo_bounds : DataBounds := mk_bounds 0 2000 (-510) 0.

Definition demo_nodes : odict RoadNode :=
  [ ("node_0000", mk_node "node_0000" (0, 0) ["s"] [] true);
    ("node_0001", mk_node "node_0001" (3, -23 # 2) ["c60"; "c61"; "far"] ["s"] true);
    ("node_0002", mk_node "node_0002" (868, -510) [] ["c60"; "c61"] true);
    ("node_0003", mk_node "node_0003" (2000, -16) [] ["far"] true) ].

Definition demo_start_map : gmap string string :=
  <["far" := "node_0001"]> (<["c61" := "node_0001"]> (<["c60" := "node_0001"]>
    {["s" := "node_0000"]})).

Definition demo_end_map : gmap string string :=
  <["far" := "node_0003"]> (<["c61" := "node_0002"]> (<["c60" := "node_0002"]>
    {["s" := "node_0001"]})).
(** * Properties *)

(** ** Comparisons *)

Lemma Qleb_le a b : Qleb a b = true <-> a <= b.
Proof. apply Qle_bool_iff. Qed.

Lemma Qltb_lt a b : Qltb a b = true <-> a < b.
Proof.
  unfold Qltb. rewrite negb_true_iff, <- not_true_iff_false, Qle_bool_iff.
  split; [apply Qnot_le_lt | apply Qlt_not_le].
Qed.

Lemma Qgtb_gt a b : Qgtb a b = true <-> b < a.
Proof. apply Qltb_lt. Qed.

Lemma Qgeb_ge a b : Qgeb a b = true <-> b <= a.
Proof. apply Qleb_le. Qed.

Lemma Qltb_false a b : Qltb a b = false <-> b <= a.
Proof.
  unfold Qltb. rewrite negb_false_iff. apply Qle_bool_iff.
Qed.

(** ** The result monad *)

Lemma bind_Ok {A B} (f : A -> result B) (r : result A) (b : B) :
  (r ≫= f) = Ok b -> exists a, r = Ok a /\ f a = Ok b.
Proof. destruct r as [a|e]; [eauto | discriminate]. Qed.

Lemma of_option_Ok {A} (e : exn) (o : option A) (a : A) :
  of_option e o = Ok a -> o = Some a.
Proof. destruct o; simpl; congruence. Qed.

(** Inverts a hypothesis [(x ← r; k) = Ok b]. *)
Ltac inv_bind H :=
  let a := fresh "a" in
  let Ha := fresh "Ha" in
  apply bind_Ok in H; destruct H as (a & Ha & H).

Ltac inv_binds :=
  repeat match goal with
  | H : (_ ≫= _) = Ok _ |- _ => inv_bind H
  | H : of_option _ _ = Ok _ |- _ => apply of_option_Ok in H
  | H : Ok _ = Ok _ |- _ => injection H as H
  | H : (let '(_, _) := ?p in _) = Ok _ |- _ => destruct p
  end.

(** A loop invariant for [for_each]. *)
Lemma for_each_inv {A S} (P : S -> Prop) (body : A -> S -> result S) xs s s' :
  (forall x t t', x ∈ xs -> P t -> body x t = Ok t' -> P t') ->
  P s -> for_each body xs s = Ok s' -> P s'.
Proof.
  revert s. induction xs as [|x xs IH]; intros s Hb Hs Hr; simpl in Hr.
  - congruence.
  - inv_bind Hr. apply (IH a); [| |done].
    + intros y t t' Hy. apply Hb. by right.
    + eapply Hb; [left|exact Hs|exact Ha].
Qed.

(** ** C6: [isMajor] *)

Lemma augment_step_is_major sqrt nodes sm em seg seg' :
  augment_step sqrt nodes sm em seg = Ok seg' ->
  exists max_spawn,
    max_list (spawnRates seg) = Ok max_spawn /\
    isMajor seg' = is_major max_spawn (speedRatio seg') (lengthMeters seg').
Proof.
  unfold augment_step. intros Hs. inv_binds. subst seg'. simpl. eauto.
Qed.

(** C6. [isMajor] is the disjunction of three strict comparisons - maximum
    spawn rate above 0.30, speed ratio above 0.50, length above 150 - taken in
    any order; the value [augment_segments] stores is that disjunction of the
    stored [speedRatio] and [lengthMeters]; and length 200 with speed ratio
    0.10 and maximum spawn rate 0.05 is major through the length alone. *)
Theorem is_major_plain_or sqrt nodes sm em seg seg' :
  augment_step sqrt nodes sm em seg = Ok seg' ->
  (exists max_spawn,
     max_list (spawnRates seg) = Ok max_spawn /\
     (isMajor seg' = true <->
        (30 # 100) < max_spawn \/ (50 # 100) < speedRatio seg' \/
        150 < lengthMeters seg')) /\
  (forall m r l,
     is_major m r l = true <-> (30 # 100) < m \/ (50 # 100) < r \/ 150 < l) /\
  (forall m r l,
     let p1 := Qgtb m SPAWN_RATE_THRESHOLD in
     let p2 := Qgtb r SPEED_RATIO_THRESHOLD in
     let p3 := Qgtb l LENGTH_THRESHOLD in
     is_major m r l = p1 || p2 || p3 /\ is_major m r l = p3 || p2 || p1 /\
     is_major m r l = p2 || p3 || p1) /\
  (is_major (5 # 100) (10 # 100) 200 = true /\
   Qgtb (5 # 100) SPAWN_RATE_THRESHOLD = false /\
   Qgtb (10 # 100) SPEED_RATIO_THRESHOLD = false /\
   Qgtb 200 LENGTH_THRESHOLD = true).
Proof.
  intros Hs.
  assert (Hiff : forall m r l,
     is_major m r l = true <-> (30 # 100) < m \/ (50 # 100) < r \/ 150 < l).
  { intros m r l. unfold is_major.
    rewrite !orb_true_iff, !Qgtb_gt.
    unfold SPAWN_RATE_THRESHOLD, SPEED_RATIO_THRESHOLD, LENGTH_THRESHOLD. tauto. }
  split; [|split; [exact Hiff|split]].
  - destruct (augment_step_is_major _ _ _ _ _ _ Hs) as (m & Hm & ->).
    exists m. split; [exact Hm | apply Hiff].
  - intros m r l. unfold is_major. simpl.
    destruct (Qgtb m _), (Qgtb r _), (Qgtb l _); auto.
  - repeat split; reflexivity.
Qed.

(** The scenario of C6 as a run of [augment_step]: a straight segment of
    length 200 driven at a tenth of its free-flow speed, with spawn rates of
    at most 0.05. *)
Lemma is_major_plain_or_witness :
  let sqrt := fun x : Q => if Qeq_bool x 40000 then 200 else 0 in
  let nodes := [("node_0000", mk_node "node_0000" (0, 0) ["a"] [] false)] in
  let maps : gmap string string := {["a" := "node_0000"]} in
  let seg := raw_segment "a" [(0, 0, 0); (200, 0, 0)] 3 30 [5 # 100; 1 # 100] in
  exists seg',
    augment_step sqrt nodes maps maps seg = Ok seg' /\
    lengthMeters seg' = 200 /\ speedRatio seg' = 1 # 10 /\
    max_list (spawnRates seg) = Ok (5 # 100) /\ isMajor seg' = true.
Proof.
  intros sqrt nodes maps seg.
  eexists. split; [vm_compute; reflexivity|].
  split; [reflexivity|]. split; [reflexivity|]. split; [reflexivity|].
  destruct (is_major_plain_or sqrt nodes maps maps seg _ eq_refl)
    as ((m & Hm & Hiff) & _).
  apply Hiff. right. right. reflexivity.
Defined.

(** ** Loops *)

(** An invariant that may mention the part of the list already traversed. *)
Lemma for_each_prefix_inv {A S} (P : list A -> S -> Prop)
    (body : A -> S -> result S) xs s s' :
  P [] s ->
  (forall pre x post t t',
     xs = pre ++ x :: post -> P pre t -> body x t = Ok t' -> P (pre ++ [x]) t') ->
  for_each body xs s = Ok s' -> P xs s'.
Proof.
  intros H0 Hstep.
  assert (G : forall post pre t, xs = pre ++ post -> P pre t ->
                for_each body post t = Ok s' -> P xs s').
  { induction post as [|x post IH]; intros pre t Hxs Hp Hr; simpl in Hr.
    - rewrite app_nil_r in Hxs. subst pre. congruence.
    - inv_bind Hr. apply (IH (pre ++ [x]) a).
      + by rewrite <- app_assoc.
      + by eapply Hstep.
      + done. }
  apply (G xs [] s); auto.
Qed.

(** The same for [for i in range(n)]. *)
Lemma for_range_inv {St} (P : nat -> St -> Prop) (body : nat -> St -> result St) n s s' :
  P 0%nat s ->
  (forall i t t', (i < n)%nat -> P i t -> body i t = Ok t' -> P (S i) t') ->
  for_each body (seq 0 n) s = Ok s' -> P n s'.
Proof.
  intros H0 Hstep Hr.
  pose proof (for_each_prefix_inv (fun pre t => P (length pre) t) body (seq 0 n) s s')
    as G.
  cbv beta in G. rewrite length_seq in G. apply G; [exact H0| |exact Hr].
  intros pre x post t t' Hseq Hp Hb.
  assert (x = length pre /\ (x < n)%nat) as [-> Hlt].
  { assert (Hl : seq 0 n !! length pre = Some x).
    { rewrite Hseq. by rewrite list_lookup_middle. }
    apply lookup_seq in Hl. lia. }
  rewrite length_app. simpl. replace (length pre + 1)%nat with (S (length pre)) by lia.
  by eapply Hstep.
Qed.

Lemma map_result_Ok {A B} (f : A -> result B) l l' :
  map_result f l = Ok l' -> Forall2 (fun a b => f a = Ok b) l l'.
Proof.
  revert l'. induction l as [|a l IH]; intros l' Hr; simpl in Hr.
  - injection Hr as <-. constructor.
  - inv_binds. subst l'. constructor; auto.
Qed.

(** ** [seg_map] *)

Lemma index_segments_lookup segs : forall n m i j,
  index_segments n segs m !! i = Some j ->
  m !! i = Some j \/
  (n <= j)%nat /\ exists s, segs !! (j - n)%nat = Some s /\ seg_id s = i.
Proof.
  induction segs as [|s segs IH]; intros n m i j Hl; simpl in Hl.
  - by left.
  - apply IH in Hl as [Hl | (Hle & s' & Hs' & Hid)].
    + destruct (decide (seg_id s = i)) as [Heq|Hne].
      * rewrite <- Heq, lookup_insert_eq in Hl. injection Hl as <-.
        right. split; [lia|]. exists s. by rewrite Nat.sub_diag.
      * rewrite lookup_insert_ne in Hl by done. by left.
    + right. split; [lia|]. exists s'. split; [|done].
      replace (j - n)%nat with (S (j - S n)) by lia. done.
Qed.

Lemma make_seg_map_lookup segs i j :
  make_seg_map segs !! i = Some j ->
  exists s, segs !! j = Some s /\ seg_id s = i.
Proof.
  intros Hl. apply index_segments_lookup in Hl as [Hl | (_ & s & Hs & Hid)].
  - by rewrite lookup_empty in Hl.
  - rewrite Nat.sub_0_r in Hs. eauto.
Qed.

(** Stores that carry the same ids at the same positions. *)
Definition same_ids (a b : list segment) : Prop := map seg_id a = map seg_id b.

Lemma same_ids_lookup a b j s :
  same_ids a b -> a !! j = Some s -> exists s', b !! j = Some s' /\ seg_id s' = seg_id s.
Proof.
  unfold same_ids. intros Hab Hs.
  assert (Hm : map seg_id a !! j = Some (seg_id s)) by (by rewrite list_lookup_fmap, Hs).
  rewrite Hab, list_lookup_fmap in Hm.
  destruct (b !! j) as [s'|]; simpl in Hm; [|done]. injection Hm as Hm. eauto.
Qed.

Lemma same_ids_length a b : same_ids a b -> length a = length b.
Proof.
  unfold same_ids. intros Hab.
  by rewrite <- (length_map seg_id a), Hab, length_map.
Qed.

Lemma same_ids_insert a j s s' :
  a !! j = Some s -> seg_id s' = seg_id s -> same_ids (<[j := s']> a) a.
Proof.
  unfold same_ids. intros Hs Hid.
  rewrite list_fmap_insert, Hid. apply list_insert_id.
  by rewrite list_lookup_fmap, Hs.
Qed.

Lemma unique_by_id (l : list segment) (s1 s2 : segment) :
  NoDup (map seg_id l) -> s1 ∈ l -> s2 ∈ l -> seg_id s1 = seg_id s2 -> s1 = s2.
Proof.
  induction l as [|s l IH]; intros Hnd H1 H2 Hid.
  - by apply elem_of_nil in H1.
  - simpl in Hnd. apply NoDup_cons in Hnd as [Hnin Hnd].
    apply elem_of_cons in H1 as [->|H1]; apply elem_of_cons in H2 as [->|H2]; auto.
    + exfalso. apply Hnin. rewrite Hid. by apply list_elem_of_fmap_2.
    + exfalso. apply Hnin. rewrite <- Hid. by apply list_elem_of_fmap_2.
Qed.

(** ** Adjacency: what the passes keep and what they establish *)

(** Two stores agree on [f] position by position. *)
Definition agree {X} (f : segment -> X) (a b : list segment) : Prop :=
  map f a = map f b.

Lemma agree_lookup {X} (f : segment -> X) a b j s :
  agree f a b -> a !! j = Some s -> exists s', b !! j = Some s' /\ f s' = f s.
Proof.
  unfold agree. intros Hab Hs.
  assert (Hm : map f a !! j = Some (f s)) by (by rewrite list_lookup_fmap, Hs).
  rewrite Hab, list_lookup_fmap in Hm.
  destruct (b !! j) as [s'|]; simpl in Hm; [|done]. injection Hm as Hm. eauto.
Qed.

Lemma agree_length {X} (f : segment -> X) a b : agree f a b -> length a = length b.
Proof.
  unfold agree. intros Hab. by rewrite <- (length_map f a), Hab, length_map.
Qed.

Lemma agree_sym {X} (f : segment -> X) a b : agree f a b -> agree f b a.
Proof. unfold agree. congruence. Qed.

Lemma agree_trans {X} (f : segment -> X) a b c :
  agree f a b -> agree f b c -> agree f a c.
Proof. unfold agree. congruence. Qed.

Lemma agree_insert {X} (f : segment -> X) a j s s' :
  a !! j = Some s -> f s' = f s -> agree f (<[j := s']> a) a.
Proof.
  unfold agree. intros Hs Hid.
  rewrite list_fmap_insert, Hid. apply list_insert_id.
  by rewrite list_lookup_fmap, Hs.
Qed.

(** The keys no pass after the first changes, and those no pass after the
    second changes. *)
Definition static (s : segment) : string * Q * Q :=
  (seg_id s, startHeadingDeg s, endHeadingDeg s).
Definition linked (s : segment) : string * Q * Q * list string :=
  (static s, successors s).

Lemma linked_static a b : agree linked a b -> agree static a b.
Proof.
  unfold agree. intros Hab.
  assert (Hc : map fst (map linked a) = map fst (map linked b)) by congruence.
  by rewrite !map_map in Hc.
Qed.

Lemma static_ids a b : agree static a b -> agree seg_id a b.
Proof.
  unfold agree. intros Hab.
  assert (Hc : map (fun t : string * Q * Q => t.1.1) (map static a)
             = map (fun t : string * Q * Q => t.1.1) (map static b)) by congruence.
  by rewrite !map_map in Hc.
Qed.

Lemma count_links_app f a b :
  count_links f (a ++ b) = (count_links f a + count_links f b)%nat.
Proof. apply sum_list_with_app. Qed.

Lemma count_links_agree f a b : agree f a b -> count_links f a = count_links f b.
Proof.
  unfold agree, count_links. revert b.
  induction a as [|s a IH]; intros [|s' b] Hab; try discriminate; [done|].
  simpl in *. injection Hab as Hs Hab. by rewrite Hs, (IH b).
Qed.

Section AdjacencyFacts.
Variable atan2_deg : Q -> Q -> Q.

Lemma heading_step_static seg seg' :
  heading_step atan2_deg seg = Ok seg' ->
  seg_id seg' = seg_id seg /\ points seg' = points seg.
Proof. unfold heading_step. intros Hs. inv_binds. by subst seg'. Qed.

Lemma heading_pass_ids segs store :
  map_result (heading_step atan2_deg) segs = Ok store -> agree seg_id store segs.
Proof.
  intros Hr. apply map_result_Ok in Hr. unfold agree.
  induction Hr as [|s s' l l' Hs _ IH]; [done|]. simpl.
  apply heading_step_static in Hs as [Hs _]. congruence.
Qed.

(** What a segment's successor list is, relative to a store [base] that
    carries the headings. *)
Definition compatible (base : list segment) (seg_map : gmap string nat)
    (seg : segment) (cid : string) : Prop :=
  exists ci C, seg_map !! cid = Some ci /\ base !! ci = Some C /\
    angle_difference (endHeadingDeg seg) (startHeadingDeg C) <= ANGLE_THRESHOLD.

Lemma candidates_spec store seg_map seg out succs :
  for_each (candidate_step store seg_map seg) out [] = Ok succs ->
  forall cid, cid ∈ succs <->
    cid ∈ out /\ cid <> seg_id seg /\ compatible store seg_map seg cid.
Proof.
  apply (for_each_prefix_inv (fun pre acc => forall cid, cid ∈ acc <->
      cid ∈ pre /\ cid <> seg_id seg /\ compatible store seg_map seg cid)).
  - intros cid. split; [intros Hin; by apply elem_of_nil in Hin|].
    intros (Hin & _). by apply elem_of_nil in Hin.
  - intros pre x post acc acc' _ IH Hb cid. unfold candidate_step in Hb.
    rewrite elem_of_app, list_elem_of_singleton.
    destruct (decide (x = seg_id seg)) as [Heq|Hne].
    { injection Hb as <-. rewrite IH. split.
      - intros (? & ? & ?). auto.
      - intros ([Hin| ->] & Hn & Hc); [auto|contradiction]. }
    inv_binds.
    destruct (Qleb _ _) eqn:Hang in Hb; injection Hb as <-.
    + rewrite elem_of_app, list_elem_of_singleton, IH. split.
      * intros [(? & ? & ?)| ->]; [auto|]. split; [by right|]. split; [done|].
        exists a, a0. by rewrite <- Qleb_le.
      * intros ([?| ->] & ? & ?); auto.
    + rewrite IH. split; [intros (? & ? & ?); auto|].
      intros ([?|Heq] & ? & Hc); [by repeat split|].
      destruct Hc as (ci & C & Hci & HC & Hle).
      rewrite Heq, Ha in Hci. injection Hci as <-. rewrite Ha0 in HC. injection HC as <-.
      apply Qleb_le in Hle. congruence.
Qed.

(** [seg_map[cid]] names a record of the store. *)
Definition resolves (base : list segment) (seg_map : gmap string nat)
    (cid : string) : Prop :=
  exists ci C, seg_map !! cid = Some ci /\ base !! ci = Some C.

Lemma candidates_resolve store seg_map seg out succs :
  for_each (candidate_step store seg_map seg) out [] = Ok succs ->
  forall cid, cid ∈ out -> cid <> seg_id seg -> resolves store seg_map cid.
Proof.
  apply (for_each_prefix_inv (fun pre (acc : list string) => forall cid,
      cid ∈ pre -> cid <> seg_id seg -> resolves store seg_map cid)).
  - intros cid Hin. by apply elem_of_nil in Hin.
  - intros pre x post acc acc' _ IH Hb cid Hin Hne.
    apply elem_of_app in Hin as [Hin|Hin]; [by apply IH|].
    apply list_elem_of_singleton in Hin. subst cid.
    unfold candidate_step in Hb. destruct (decide _); [done|].
    inv_binds. by exists a, a0.
Qed.

Lemma resolves_agree {X} (f : segment -> X) a b seg_map cid :
  agree f a b -> resolves a seg_map cid -> resolves b seg_map cid.
Proof.
  intros Hab (ci & C & Hci & HC).
  destruct (agree_lookup _ _ _ _ _ Hab HC) as (C' & HC' & _). by exists ci, C'.
Qed.

(** The successor list of one segment, as the second pass leaves it. *)
Definition successors_ok (base : list segment) (nodes : odict RoadNode)
    (end_node_map : gmap string string) (seg_map : gmap string nat)
    (s : segment) : Prop :=
  exists nid end_node,
    end_node_map !! seg_id s = Some nid /\ od_get nodes nid = Some end_node /\
    (forall cid, cid ∈ successors s <->
       cid ∈ outgoing end_node /\ cid <> seg_id s /\ compatible base seg_map s cid) /\
    (forall cid, cid ∈ outgoing end_node -> cid <> seg_id s ->
       resolves base seg_map cid).

Lemma compatible_agree a b seg_map s s' cid :
  agree static a b -> endHeadingDeg s = endHeadingDeg s' ->
  compatible a seg_map s cid -> compatible b seg_map s' cid.
Proof.
  intros Hab He (ci & C & Hci & HC & Hle).
  destruct (agree_lookup _ _ _ _ _ Hab HC) as (C' & HC' & HS).
  exists ci, C'. repeat split; [done..|].
  unfold static in HS. injection HS as _ Hh _. by rewrite <- He, Hh.
Qed.

Lemma successors_ok_agree a b nodes em seg_map s s' :
  agree static a b -> linked s = linked s' ->
  successors_ok a nodes em seg_map s -> successors_ok b nodes em seg_map s'.
Proof.
  intros Hab Hl (nid & en & Hn & He & Hspec & Hres).
  unfold linked, static in Hl. injection Hl as Hid Hsh Heh Hsu.
  exists nid, en. rewrite <- Hid, <- Hsu. split; [done|]. split; [done|]. split.
  - intros cid. rewrite Hspec.
    split; intros (? & ? & Hc); (split; [done|split; [done|]]).
    + eapply compatible_agree; eauto.
    + eapply compatible_agree; [by apply agree_sym| symmetry; eassumption | eauto].
  - intros cid Hin Hne. eapply resolves_agree; [exact Hab|]. by apply Hres.
Qed.

Definition second_pass_inv (base : list segment) (nodes : odict RoadNode)
    (em : gmap string string) (seg_map : gmap string nat)
    (k : nat) (st : list segment * nat) : Prop :=
  agree static st.1 base /\
  st.2 = count_links successors (take k st.1) /\
  forall j s, (j < k)%nat -> st.1 !! j = Some s -> successors_ok base nodes em seg_map s.

Lemma successor_step_inv base nodes em seg_map k st st' :
  (k < length base)%nat ->
  second_pass_inv base nodes em seg_map k st ->
  successor_step nodes em seg_map k st = Ok st' ->
  second_pass_inv base nodes em seg_map (S k) st'.
Proof.
  intros Hk (Hag & Htot & Hok) Hs. destruct st as [store total]. simpl in *.
  unfold successor_step in Hs. simpl in Hs. inv_binds. subst st'.
  unfold second_pass_inv. cbn [fst snd].
  rename a into seg, a0 into nid, a1 into en, a2 into succs.
  assert (Hag' : agree static (<[k := set_successors succs seg]> store) store)
    by (by eapply agree_insert).
  split; [by eapply agree_trans|]. split.
  - assert (Hlen : (k < length store)%nat) by (by eapply lookup_lt_Some).
    rewrite (take_S_r _ _ (set_successors succs seg))
      by (by apply list_lookup_insert_eq).
    rewrite take_insert_ge by lia.
    rewrite count_links_app, <- Htot. unfold count_links. simpl. lia.
  - intros j s Hj Hjs.
    destruct (decide (j = k)) as [->|Hne].
    + rewrite list_lookup_insert_eq in Hjs by (by eapply lookup_lt_Some).
      injection Hjs as <-. exists nid, en. simpl. split; [done|]. split; [done|].
      split.
      * intros cid. rewrite (candidates_spec _ _ _ _ _ Ha2 cid).
        split; intros (? & ? & Hc); (split; [done|split; [done|]]);
          (eapply compatible_agree; [| |exact Hc]); auto using agree_sym.
      * intros cid Hin Hne. eapply resolves_agree; [exact Hag|].
        by eapply candidates_resolve.
    + rewrite list_lookup_insert_ne in Hjs by done.
      apply (Hok j); [lia|done].
Qed.

Lemma second_pass_spec base nodes em seg_map store total :
  for_each (successor_step nodes em seg_map) (seq 0 (length base)) (base, 0%nat)
    = Ok (store, total) ->
  agree static store base /\
  total = count_links successors store /\
  forall s, s ∈ store -> successors_ok store nodes em seg_map s.
Proof.
  intros Hr.
  apply (for_range_inv (second_pass_inv base nodes em seg_map)) in Hr.
  - destruct Hr as (Hag & Htot & Hok). simpl in *.
    split; [done|]. split.
    + rewrite Htot, take_ge; [done|]. rewrite (agree_length _ _ _ Hag). lia.
    + intros s Hs. apply list_elem_of_lookup in Hs as [j Hj].
      eapply successors_ok_agree; [by apply agree_sym|reflexivity|].
      apply (Hok j); [|done]. apply lookup_lt_Some in Hj.
      by rewrite <- (agree_length _ _ _ Hag).
  - split; [done|]. split; [done|]. intros j s Hj. lia.
  - intros i t t' Hi. by apply successor_step_inv.
Qed.

(** The third pass: [base] is the store it starts from. *)
Definition linked_before (base : list segment) (seg_map : gmap string nat)
    (k : nat) (pid : string) (j : nat) : Prop :=
  exists k' P cid, (k' < k)%nat /\ base !! k' = Some P /\ seg_id P = pid /\
    cid ∈ successors P /\ seg_map !! cid = Some j.

Definition third_pass_inv (base : list segment) (seg_map : gmap string nat)
    (k : nat) (store : list segment) : Prop :=
  agree linked store base /\
  (forall j C pid, store !! j = Some C ->
     (pid ∈ predecessors C <-> linked_before base seg_map k pid j)) /\
  (forall k' P cid, (k' < k)%nat -> base !! k' = Some P -> cid ∈ successors P ->
     exists j, seg_map !! cid = Some j /\ (j < length base)%nat).

Definition link_loop_inv (base : list segment) (seg_map : gmap string nat)
    (k : nat) (from_id : string) (pre : list string) (store : list segment) : Prop :=
  agree linked store base /\
  (forall j C pid, store !! j = Some C ->
     (pid ∈ predecessors C <->
        linked_before base seg_map k pid j \/
        (pid = from_id /\ exists cid, cid ∈ pre /\ seg_map !! cid = Some j))) /\
  (forall cid, cid ∈ pre -> exists j, seg_map !! cid = Some j /\ (j < length base)%nat).

Lemma predecessor_link_inv base seg_map k from_id pre x store store' :
  link_loop_inv base seg_map k from_id pre store ->
  predecessor_link seg_map from_id x store = Ok store' ->
  link_loop_inv base seg_map k from_id (pre ++ [x]) store'.
Proof.
  intros (Hag & Hmem & Hres) Hl. unfold predecessor_link in Hl. inv_binds.
  rename a into ci, a0 into target. subst store'.
  assert (Hci : (ci < length store)%nat) by (by eapply lookup_lt_Some).
  split; [|split].
  - eapply agree_trans; [|exact Hag]. by eapply agree_insert.
  - intros j C pid HC.
    destruct (decide (j = ci)) as [->|Hne].
    + rewrite list_lookup_insert_eq in HC by done. injection HC as <-. simpl.
      rewrite elem_of_app, list_elem_of_singleton, (Hmem ci target pid Ha0).
      split.
      * intros [[?|(-> & cid & Hin & Hc)]| ->]; [by left| |].
        -- right. split; [done|]. exists cid. split; [|done]. apply elem_of_app. by left.
        -- right. split; [done|]. exists x. split; [|done]. apply elem_of_app.
           right. by apply list_elem_of_singleton.
      * intros [?|(-> & cid & Hin & Hc)]; [by left; left|].
        apply elem_of_app in Hin as [Hin|Hin].
        -- left. right. split; [done|]. by exists cid.
        -- by right.
    + rewrite list_lookup_insert_ne in HC by done.
      rewrite (Hmem j C pid HC). split.
      * intros [?|(-> & cid & Hin & Hc)]; [by left|].
        right. split; [done|]. exists cid. split; [|done]. apply elem_of_app. by left.
      * intros [?|(-> & cid & Hin & Hc)]; [by left|].
        apply elem_of_app in Hin as [Hin|Hin].
        -- right. split; [done|]. by exists cid.
        -- apply list_elem_of_singleton in Hin. subst cid. congruence.
  - intros cid Hin. apply elem_of_app in Hin as [Hin|Hin]; [by apply Hres|].
    apply list_elem_of_singleton in Hin. subst cid. exists ci. split; [done|].
    by rewrite <- (agree_length _ _ _ Hag).
Qed.

Lemma predecessor_step_inv base seg_map k store store' :
  third_pass_inv base seg_map k store ->
  predecessor_step seg_map k store = Ok store' ->
  third_pass_inv base seg_map (S k) store'.
Proof.
  intros (Hag & Hmem & Hres) Hs. unfold predecessor_step in Hs. inv_binds.
  rename a into seg.
  destruct (agree_lookup _ _ _ _ _ Hag Ha) as (P & HP & HPl).
  unfold linked, static in HPl. injection HPl as Hid _ _ Hsu.
  assert (Hin : link_loop_inv base seg_map k (seg_id seg) (successors seg) store').
  { revert Hs. apply for_each_prefix_inv.
    - split; [done|]. split.
      + intros j C pid HC. rewrite (Hmem j C pid HC). split; [by left|].
        intros [?|(_ & cid & Hin & _)]; [done|]. by apply elem_of_nil in Hin.
      + intros cid Hin. by apply elem_of_nil in Hin.
    - intros pre x post t t' _. apply predecessor_link_inv. }
  destruct Hin as (Hag' & Hmem' & Hres').
  split; [done|]. split.
  - intros j C pid HC. rewrite (Hmem' j C pid HC). split.
    + intros [(k' & P' & cid & ? & ? & ? & ? & ?)|(-> & cid & Hin & Hc)].
      * exists k', P', cid. repeat split; auto with lia.
      * exists k, P, cid. rewrite Hsu. repeat split; auto with lia.
    + intros (k' & P' & cid & Hlt & HP' & Hid' & Hin & Hc).
      destruct (decide (k' = k)) as [->|Hne].
      * right. rewrite HP in HP'. injection HP' as <-.
        split; [congruence|]. exists cid. by rewrite <- Hsu.
      * left. exists k', P', cid. repeat split; auto with lia.
  - intros k' P' cid Hlt HP' Hin.
    destruct (decide (k' = k)) as [->|Hne].
    + rewrite HP in HP'. injection HP' as <-. apply Hres'. by rewrite <- Hsu.
    + apply (Hres k' P'); auto with lia.
Qed.

Lemma third_pass_spec base seg_map store :
  Forall (fun s => predecessors s = []) base ->
  for_each (predecessor_step seg_map) (seq 0 (length base)) base = Ok store ->
  third_pass_inv base seg_map (length base) store.
Proof.
  intros Hnil. apply for_range_inv.
  - split; [done|]. split.
    + intros j C pid HC. rewrite Forall_forall in Hnil.
      rewrite (Hnil C) by (by eapply list_elem_of_lookup_2). split.
      * intros Hin. by apply elem_of_nil in Hin.
      * intros (k' & _ & _ & Hlt & _). lia.
    + intros k' P cid Hlt. lia.
  - intros i t t' _. apply predecessor_step_inv.
Qed.

(** What [build_adjacency] leaves behind when it completes. *)
Lemma build_adjacency_spec segs nodes sm em segs' :
  build_adjacency atan2_deg segs nodes sm em = Ok segs' ->
  agree seg_id segs' segs /\
  (forall s, s ∈ segs' -> successors_ok segs' nodes em (make_seg_map segs) s) /\
  (forall j C pid, segs' !! j = Some C ->
     (pid ∈ predecessors C <->
        exists P cid, P ∈ segs' /\ seg_id P = pid /\ cid ∈ successors P /\
          make_seg_map segs !! cid = Some j)) /\
  (forall P cid, P ∈ segs' -> cid ∈ successors P ->
     exists j, make_seg_map segs !! cid = Some j /\ (j < length segs')%nat) /\
  count_links predecessors segs' = count_links successors segs'.
Proof.
  unfold build_adjacency. intros Hb. inv_bind Hb. rename a into store1, Ha into H1.
  inv_bind Hb. destruct a as [store2 total]. rename Ha into H2.
  inv_bind Hb. rename a into store4, Ha into H3.
  destruct (decide _) as [Hcount|]; [|discriminate]. injection Hb as <-.
  set (store3 := map (set_predecessors []) store2) in *.
  set (seg_map := make_seg_map segs) in *.
  assert (A1 : agree seg_id store1 segs) by (by apply heading_pass_ids).
  apply second_pass_spec in H2 as (A2 & Htot & Hok).
  assert (A3 : agree linked store3 store2).
  { unfold agree, store3. rewrite map_map. by apply map_ext. }
  assert (Hnil : Forall (fun s => predecessors s = []) store3).
  { unfold store3. apply Forall_forall. intros s Hs.
    apply list_elem_of_fmap in Hs as (s0 & -> & _). done. }
  assert (Hlen3 : length store3 = length store2) by (unfold store3; apply length_map).
  apply third_pass_spec in H3 as (A4 & Hmem & Hres); [|done].
  assert (A42 : agree linked store4 store2) by (by eapply agree_trans).
  assert (Hlen : length store4 = length store3) by (by eapply agree_length).
  assert (Hback : forall P, P ∈ store4 ->
            exists k P3, (k < length store3)%nat /\ store3 !! k = Some P3 /\
              seg_id P3 = seg_id P /\ successors P3 = successors P).
  { intros P HP. apply list_elem_of_lookup in HP as [k Hk].
    destruct (agree_lookup _ _ _ _ _ A4 Hk) as (P3 & HP3 & HPl).
    unfold linked, static in HPl. injection HPl as ? _ _ ?.
    exists k, P3. split; [by apply (lookup_lt_Some _ _ _ HP3)|]. by repeat split. }
  split; [|split; [|split; [|split]]].
  - eapply agree_trans; [|exact A1]. apply static_ids.
    eapply agree_trans; [|exact A2]. by apply linked_static.
  - intros s Hs. apply list_elem_of_lookup in Hs as [k Hk].
    destruct (agree_lookup _ _ _ _ _ A42 Hk) as (s2 & Hs2 & Hl).
    eapply successors_ok_agree; [|exact Hl|].
    + apply agree_sym. by apply linked_static.
    + apply Hok. by eapply list_elem_of_lookup_2.
  - intros j C pid HC. rewrite (Hmem j C pid HC). split.
    + intros (k' & P3 & cid & Hlt & HP3 & Hid & Hin & Hc).
      destruct (agree_lookup _ _ _ _ _ (agree_sym _ _ _ A4) HP3) as (P & HP & HPl).
      unfold linked, static in HPl. injection HPl as ? _ _ Hsu.
      exists P, cid. split; [by eapply list_elem_of_lookup_2|].
      split; [congruence|]. split; [by rewrite Hsu|done].
    + intros (P & cid & HP & Hid & Hin & Hc).
      destruct (Hback P HP) as (k & P3 & Hlt & HP3 & Hid3 & Hsu3).
      exists k, P3, cid. split; [done|]. split; [done|]. split; [congruence|].
      split; [by rewrite Hsu3|done].
  - intros P cid HP Hin.
    destruct (Hback P HP) as (k & P3 & Hlt & HP3 & Hid3 & Hsu3).
    rewrite Hlen. apply (Hres k P3 cid); [done|done|by rewrite Hsu3].
  - rewrite Hcount, Htot. symmetry. apply count_links_agree.
    unfold agree in *.
    assert (Hc : map snd (map linked store4) = map snd (map linked store2))
      by congruence.
    by rewrite !map_map in Hc.
Qed.
End AdjacencyFacts.

(** ** Headings and angles *)

Lemma py_mod_range a m : 0 < m -> 0 <= py_mod a m /\ py_mod a m < m.
Proof.
  intros Hm. unfold py_mod.
  assert (Hne : ~ m == 0) by lra.
  pose proof (Qfloor_le (a / m)) as Hlo.
  pose proof (Qlt_floor (a / m)) as Hhi.
  rewrite inject_Z_plus in Hhi.
  set (f := inject_Z (Qfloor (a / m))) in *.
  assert (Ha : m * (a / m) == a) by (by apply Qmult_div_r).
  assert (H1 : m * f <= m * (a / m)) by (apply Qmult_le_l; [done|exact Hlo]).
  assert (H2 : m * (a / m) < m * (f + inject_Z 1)) by (apply Qmult_lt_l; [done|exact Hhi]).
  rewrite Ha in H1, H2. change (inject_Z 1) with 1 in H2.
  split; lra.
Qed.

Definition heading_in_range (h : Q) : Prop := 0 <= h /\ h < 360.

Lemma compute_heading_range atan2_deg p q : heading_in_range (compute_heading atan2_deg p q).
Proof. unfold compute_heading. apply py_mod_range. reflexivity. Qed.

Lemma angle_difference_range h1 h2 :
  heading_in_range h1 -> heading_in_range h2 ->
  0 <= angle_difference h1 h2 /\ angle_difference h1 h2 <= 180.
Proof.
  unfold heading_in_range, angle_difference, py_min. intros [? ?] [? ?].
  assert (Hd : 0 <= Qabs (h1 - h2) /\ Qabs (h1 - h2) < 360).
  { split; [apply Qabs_nonneg|]. apply Qabs_case; intros; lra. }
  destruct Hd as [Hd0 Hd1].
  destruct (Qltb (360 - Qabs (h1 - h2)) (Qabs (h1 - h2))) eqn:E.
  - apply Qltb_lt in E. split; lra.
  - apply Qltb_false in E. split; lra.
Qed.

Section AdjacencyTheorems.
Variable atan2_deg : Q -> Q -> Q.

Lemma heading_step_range seg seg' :
  heading_step atan2_deg seg = Ok seg' ->
  heading_in_range (startHeadingDeg seg') /\ heading_in_range (endHeadingDeg seg').
Proof.
  unfold heading_step. intros Hs. inv_binds. subst seg'. simpl.
  split; apply compute_heading_range.
Qed.

Lemma build_adjacency_headings segs nodes sm em segs' s :
  build_adjacency atan2_deg segs nodes sm em = Ok segs' -> s ∈ segs' ->
  heading_in_range (startHeadingDeg s) /\ heading_in_range (endHeadingDeg s).
Proof.
  unfold build_adjacency. intros Hb Hs. inv_bind Hb. rename a into store1, Ha into H1.
  inv_bind Hb. destruct a as [store2 total]. rename Ha into H2.
  inv_bind Hb. rename a into store4, Ha into H3.
  destruct (decide _) as [Hcount|]; [|discriminate]. injection Hb as <-.
  apply second_pass_spec in H2 as (A2 & _ & _).
  assert (A3 : agree linked (map (set_predecessors []) store2) store2).
  { unfold agree. rewrite map_map. by apply map_ext. }
  assert (Hnil : Forall (fun s => predecessors s = []) (map (set_predecessors []) store2)).
  { apply Forall_forall. intros s0 Hs0.
    apply list_elem_of_fmap in Hs0 as (s1 & -> & _). done. }
  apply third_pass_spec in H3 as (A4 & _ & _); [|done].
  assert (A : agree static store4 store1).
  { eapply agree_trans; [|exact A2]. apply linked_static. by eapply agree_trans. }
  apply list_elem_of_lookup in Hs as [k Hk].
  destruct (agree_lookup _ _ _ _ _ A Hk) as (s1 & Hs1 & Hst).
  unfold static in Hst. injection Hst as _ <- <-.
  apply map_result_Ok in H1.
  destruct (Forall2_lookup_r _ _ _ _ _ H1 Hs1) as (s0 & _ & Hstep).
  by eapply heading_step_range.
Qed.

(** C1. When [build_adjacency] completes, predecessors are the inverse of
    successors: every successor id of S names a record that lists S among
    its predecessors; every predecessor id of S names a record that lists S
    among its successors; with unique segment ids, C is a successor of S
    exactly when S is a predecessor of C; and the two link counts agree. *)
Theorem predecessors_inverse_of_successors segs nodes sm em segs' :
  build_adjacency atan2_deg segs nodes sm em = Ok segs' ->
  (forall S cid, S ∈ segs' -> cid ∈ successors S ->
     exists C, C ∈ segs' /\ seg_id C = cid /\ seg_id S ∈ predecessors C) /\
  (forall S pid, S ∈ segs' -> pid ∈ predecessors S ->
     exists P, P ∈ segs' /\ seg_id P = pid /\ seg_id S ∈ successors P) /\
  (NoDup (map seg_id segs) ->
   forall S C, S ∈ segs' -> C ∈ segs' ->
     (seg_id C ∈ successors S <-> seg_id S ∈ predecessors C)) /\
  count_links predecessors segs' = count_links successors segs'.
Proof.
  intros Hb.
  destruct (build_adjacency_spec _ _ _ _ _ _ Hb) as (Hids & _ & Hmem & Hres & Hcount).
  assert (Hname : forall cid j C, make_seg_map segs !! cid = Some j ->
            segs' !! j = Some C -> seg_id C = cid).
  { intros cid j C Hj HC. apply make_seg_map_lookup in Hj as (s & Hs & <-).
    destruct (agree_lookup _ _ _ _ _ Hids HC) as (s' & Hs' & Hid). congruence. }
  assert (Ha : forall S cid, S ∈ segs' -> cid ∈ successors S ->
     exists C, C ∈ segs' /\ seg_id C = cid /\ seg_id S ∈ predecessors C).
  { intros S cid HS Hin.
    destruct (Hres S cid HS Hin) as (j & Hj & Hlt).
    destruct (lookup_lt_is_Some_2 _ _ Hlt) as [C HC].
    exists C. split; [by eapply list_elem_of_lookup_2|]. split; [by eapply Hname|].
    apply (Hmem j C (seg_id S) HC). by exists S, cid. }
  assert (Hb' : forall S pid, S ∈ segs' -> pid ∈ predecessors S ->
     exists P, P ∈ segs' /\ seg_id P = pid /\ seg_id S ∈ successors P).
  { intros S pid HS Hin. apply list_elem_of_lookup in HS as [j Hj].
    apply (Hmem j S pid Hj) in Hin as (P & cid & HP & Hid & Hin & Hc).
    exists P. split; [done|]. split; [done|]. by rewrite (Hname cid j S Hc Hj). }
  split; [exact Ha|]. split; [exact Hb'|]. split; [|exact Hcount].
  intros Hnd S C HS HC.
  assert (Hnd' : NoDup (map seg_id segs')) by (by rewrite Hids).
  split; intros Hin.
  - destruct (Ha S _ HS Hin) as (C' & HC' & Hid & Hp).
    by rewrite <- (unique_by_id segs' C' C Hnd' HC' HC Hid).
  - destruct (Hb' C _ HC Hin) as (P & HP & Hid & Hs).
    by rewrite <- (unique_by_id segs' P S Hnd' HP HS Hid).
Qed.

(** C5. When [build_adjacency] completes, let S be any record and let
    end_node be the node at which S ends.  The successors of S are among
    the ids in [end_node.outgoing] other than S's own; each such candidate
    id names a record C (through [seg_map]), and it is a successor of S
    exactly when the angle difference between S's end heading and C's
    start heading is at most 60.  That difference lies in [0,180].  An end
    heading of 0 against a start heading of 60 is within the threshold, and
    against 60.01 it is not. *)
Theorem successor_iff_angle_within_threshold segs nodes sm em segs' S :
  build_adjacency atan2_deg segs nodes sm em = Ok segs' -> S ∈ segs' ->
  (exists nid end_node,
     em !! seg_id S = Some nid /\ od_get nodes nid = Some end_node /\
     (forall cid, cid ∈ successors S -> cid ∈ outgoing end_node /\ cid <> seg_id S) /\
     (forall cid, cid ∈ outgoing end_node -> cid <> seg_id S ->
        exists j C,
          make_seg_map segs !! cid = Some j /\ segs' !! j = Some C /\ seg_id C = cid /\
          let diff := angle_difference (endHeadingDeg S) (startHeadingDeg C) in
          0 <= diff /\ diff <= 180 /\ (cid ∈ successors S <-> diff <= 60))) /\
  (forall h1 h2, 0 <= h1 < 360 -> 0 <= h2 < 360 ->
     0 <= angle_difference h1 h2 <= 180) /\
  angle_difference 0 60 <= ANGLE_THRESHOLD /\
  ~ angle_difference 0 (6001 # 100) <= ANGLE_THRESHOLD.
Proof.
  intros Hb HS.
  destruct (build_adjacency_spec _ _ _ _ _ _ Hb) as (Hids & Hok & _).
  destruct (Hok S HS) as (nid & en & Hn & He & Hspec & Hres).
  split; [|split; [|split]].
  - exists nid, en. split; [done|]. split; [done|]. split.
    + intros cid Hin. apply Hspec in Hin as (? & ? & _). done.
    + intros cid Hin Hne.
      destruct (Hres cid Hin Hne) as (j & C & Hj & HC).
      exists j, C. split; [done|]. split; [done|]. split.
      { pose proof Hj as Hj'. apply make_seg_map_lookup in Hj' as (s & Hs & <-).
        destruct (agree_lookup _ _ _ _ _ Hids HC) as (s' & Hs' & Hid). congruence. }
      assert (HCin : C ∈ segs') by (by eapply list_elem_of_lookup_2).
      destruct (build_adjacency_headings _ _ _ _ _ _ Hb HS) as [_ HrS].
      destruct (build_adjacency_headings _ _ _ _ _ _ Hb HCin) as [HrC _].
      destruct (angle_difference_range _ _ HrS HrC) as [H0 H180].
      simpl. split; [done|]. split; [done|]. rewrite Hspec. split.
      * intros (_ & _ & (j' & C' & Hj' & HC' & Hle)).
        rewrite Hj in Hj'. injection Hj' as <-. rewrite HC in HC'. by injection HC' as <-.
      * intros Hle. split; [done|]. split; [done|]. by exists j, C.
  - intros h1 h2 H1 H2. by apply angle_difference_range.
  - by vm_compute.
  - by vm_compute.
Qed.
End AdjacencyTheorems.

(** The demonstration graph: what the two stages compute on it. *)
Example demo_bounds_run : compute_data_bounds demo_segments = Ok demo_bounds.
Proof. vm_compute. reflexivity. Qed.

Example demo_node_set_run :
  build_node_set demo_bounds demo_segments
  = Ok (demo_nodes, (demo_start_map, demo_end_map)).
Proof. vm_compute. reflexivity. Qed.

Example demo_adjacency_run :
  (fun r => match r with
            | Ok segs => map (fun s => (seg_id s, successors s, predecessors s)) segs
            | Raise _ => []
            end)
    (build_adjacency demo_atan2 demo_segments demo_nodes demo_start_map demo_end_map)
  = [ ("s", ["c60"], []); ("c60", [], ["s"]); ("c61", [], []); ("far", [], []) ].
Proof. vm_compute. reflexivity. Qed.

Lemma predecessors_inverse_of_successors_witness :
  match build_adjacency demo_atan2 demo_segments demo_nodes demo_start_map demo_end_map with
  | Ok segs' =>
      NoDup (map seg_id demo_segments) /\
      count_links predecessors segs' = count_links successors segs' /\
      forall S C, S ∈ segs' -> C ∈ segs' ->
        (seg_id C ∈ successors S <-> seg_id S ∈ predecessors C)
  | Raise _ => False
  end.
Proof.
  destruct (build_adjacency demo_atan2 demo_segments demo_nodes demo_start_map
              demo_end_map) as [segs'|e] eqn:E.
  - assert (Hnd : NoDup (map seg_id demo_segments))
      by (apply (bool_decide_unpack _); vm_compute; reflexivity).
    destruct (predecessors_inverse_of_successors demo_atan2 _ _ _ _ _ E)
      as (_ & _ & Hiff & Hcount).
    split; [exact Hnd|]. split; [exact Hcount|]. exact (Hiff Hnd).
  - vm_compute in E. discriminate E.
Defined.

Lemma successor_iff_angle_within_threshold_witness :
  match build_adjacency demo_atan2 demo_segments demo_nodes demo_start_map demo_end_map with
  | Ok segs' =>
      exists S, segs' !! 0%nat = Some S /\ seg_id S = "s" /\
        ("c60" ∈ successors S) /\ ~ ("c61" ∈ successors S)
  | Raise _ => False
  end.
Proof.
  destruct (build_adjacency demo_atan2 demo_segments demo_nodes demo_start_map
              demo_end_map) as [segs'|e] eqn:E; [|vm_compute in E; discriminate E].
  pose proof E as E'. vm_compute in E'. injection E' as <-.
  eexists. split; [reflexivity|]. split; [reflexivity|].
  match goal with |- ?x ∈ successors ?S /\ _ =>
    destruct (successor_iff_angle_within_threshold demo_atan2 _ _ _ _ _ S E)
      as ((nid & en & Hn & He & _ & Hcand) & _); [by left|]
  end.
  vm_compute in Hn. injection Hn as <-. vm_compute in He. injection He as <-.
  split.
  - destruct (Hcand "c60") as (j & C & Hj & HC & _ & _ & _ & Hiff);
      [set_solver|done|].
    vm_compute in Hj. injection Hj as <-. vm_compute in HC. injection HC as <-.
    apply Hiff. by vm_compute.
  - destruct (Hcand "c61") as (j & C & Hj & HC & _ & _ & _ & Hiff);
      [set_solver|done|].
    vm_compute in Hj. injection Hj as <-. vm_compute in HC. injection HC as <-.
    intros Hin. apply Hiff in Hin. by vm_compute in Hin.
Defined.

(** ** The validator: its loops terminate within their budgets *)

Lemma for_each_total {A St} (P : St -> Prop) (body : A -> St -> result St) xs s :
  (forall x t, x ∈ xs -> P t -> exists t', body x t = Ok t' /\ P t') ->
  P s -> exists s', for_each body xs s = Ok s' /\ P s'.
Proof.
  revert s. induction xs as [|x xs IH]; intros s Hb Hs; simpl.
  - eauto.
  - destruct (Hb x s) as (t' & -> & Ht'); [by left|done|]. simpl.
    apply IH; [|done]. intros y t Hy. apply Hb. by right.
Qed.

Definition degree (s : segment) : nat :=
  (length (successors s) + length (predecessors s))%nat.

(** The work that is left for the records not yet seen. *)
Definition unseen_weight (segments : odict segment) (seen : gset string) : nat :=
  sum_list_with (fun kv => if decide (kv.1 ∈ seen) then 0%nat else S (degree kv.2))
    segments.

Lemma unseen_weight_empty segments : unseen_weight segments ∅ = link_budget segments.
Proof.
  unfold unseen_weight, link_budget. induction segments as [|[k v] l IH]; [done|].
  simpl. rewrite IH. destruct (decide _) as [Hin|_]; [set_solver|done].
Qed.

Lemma unseen_weight_mono segments seen seen' :
  seen ⊆ seen' -> (unseen_weight segments seen' <= unseen_weight segments seen)%nat.
Proof.
  intros Hsub. unfold unseen_weight.
  induction segments as [|[k v] l IH]; [done|]. simpl.
  destruct (decide (k ∈ seen')), (decide (k ∈ seen)); try lia. set_solver.
Qed.

Lemma unseen_weight_visit segments seen cur seg :
  od_get segments cur = Some seg -> cur ∉ seen ->
  (unseen_weight segments (seen ∪ {[cur]}) + S (degree seg)
   <= unseen_weight segments seen)%nat.
Proof.
  intros Hget Hnin. unfold unseen_weight.
  induction segments as [|[k v] l IH]; [done|]. simpl in *.
  destruct (decide (k = cur)) as [->|Hne].
  - injection Hget as ->.
    destruct (decide (cur ∈ seen ∪ {[cur]})) as [_|Hn]; [|set_solver].
    destruct (decide (cur ∈ seen)) as [?|_]; [done|].
    pose proof (unseen_weight_mono l seen (seen ∪ {[cur]})) as Hm.
    unfold unseen_weight in Hm. assert (seen ⊆ seen ∪ {[cur]}) by set_solver.
    specialize (Hm H). lia.
  - specialize (IH Hget).
    destruct (decide (k ∈ seen ∪ {[cur]})), (decide (k ∈ seen)); try lia; set_solver.
Qed.

Lemma unseen_known_length segments seen ids :
  (length (unseen_known segments seen ids) <= length ids)%nat.
Proof. apply length_filter. Qed.

Lemma unseen_known_known segments seen ids i :
  i ∈ unseen_known segments seen ids -> is_Some (od_get segments i).
Proof. unfold unseen_known. rewrite list_elem_of_filter. tauto. Qed.

Lemma bfs_component_total budget : forall segments queue visited component,
  (length queue + unseen_weight segments visited <= budget)%nat ->
  (forall q, q ∈ queue -> is_Some (od_get segments q)) ->
  exists v c, bfs_component budget segments queue visited component = Ok (v, c).
Proof.
  induction budget as [|budget IH]; intros segments queue visited component Hb Hq.
  - destruct queue; simpl in *; [eauto|lia].
  - destruct queue as [|cur queue]; simpl; [eauto|].
    destruct (decide (cur ∈ visited)) as [Hin|Hnin].
    + apply IH; [simpl in Hb; lia|]. intros q Hq'. apply Hq. by right.
    + destruct (Hq cur) as [seg Hseg]; [by left|]. rewrite Hseg. simpl.
      apply IH.
      * pose proof (unseen_weight_visit segments visited cur seg Hseg Hnin).
        pose proof (unseen_known_length segments (visited ∪ {[cur]}) (successors seg)).
        pose proof (unseen_known_length segments (visited ∪ {[cur]}) (predecessors seg)).
        rewrite !length_app. unfold degree in *. simpl in Hb. lia.
      * intros q Hq'. rewrite !elem_of_app in Hq'.
        destruct Hq' as [?|[?|?]]; [apply Hq; by right| |];
          by eapply unseen_known_known.
Qed.

Lemma bfs_reachable_total budget : forall segments queue reachable,
  (length queue + unseen_weight segments reachable <= budget)%nat ->
  exists r, bfs_reachable budget segments queue reachable = Ok r.
Proof.
  induction budget as [|budget IH]; intros segments queue reachable Hb.
  - destruct queue; simpl in *; [eauto|lia].
  - destruct queue as [|cur queue]; simpl; [eauto|]. simpl in Hb.
    destruct (decide (cur ∈ reachable)) as [Hin|Hnin]; [apply IH; lia|].
    destruct (od_get segments cur) as [seg|] eqn:Hseg; apply IH.
    + pose proof (unseen_weight_visit segments reachable cur seg Hseg Hnin).
      pose proof (unseen_known_length segments (reachable ∪ {[cur]}) (successors seg)).
      rewrite !length_app. unfold degree in *. lia.
    + assert (Hsub : reachable ⊆ reachable ∪ {[cur]}) by set_solver.
      pose proof (unseen_weight_mono segments _ _ Hsub). lia.
Qed.

Lemma od_get_keys {V} (d : odict V) k : k ∈ od_keys d -> is_Some (od_get d k).
Proof.
  unfold od_keys. induction d as [|[k' v] d IH]; simpl; intros Hin.
  - by apply elem_of_nil in Hin.
  - destruct (decide (k' = k)); [eauto|].
    apply elem_of_cons in Hin as [?|?]; [congruence|auto].
Qed.

Lemma find_connected_components_total segments :
  exists cs, find_connected_components segments = Ok cs.
Proof.
  unfold find_connected_components.
  destruct (for_each_total (fun _ => True) (component_step segments)
              (od_keys segments) (∅, [])) as (st & -> & _); [|done|simpl; eauto].
  intros k [visited comps] Hk _. unfold component_step. cbn [fst snd].
  destruct (decide (k ∈ visited)); [eauto|].
  destruct (bfs_component_total (S (link_budget segments)) segments [k] visited ∅)
    as (v & c & ->).
  - assert (Hsub : ∅ ⊆ visited) by set_solver.
    pose proof (unseen_weight_mono segments _ _ Hsub) as Hm.
    rewrite unseen_weight_empty in Hm. simpl. lia.
  - intros q Hq. apply list_elem_of_singleton in Hq. subst q. by apply od_get_keys.
  - simpl. eauto.
Qed.

Lemma find_reachable_from_entries_total segments :
  exists r, find_reachable_from_entries segments = Ok r.
Proof.
  unfold find_reachable_from_entries. apply bfs_reachable_total.
  by rewrite unseen_weight_empty.
Qed.

Lemma Qnat_S_nonzero n : Qeq_bool (Qnat (S n)) 0 = false.
Proof.
  apply not_true_iff_false. rewrite Qeq_bool_iff. unfold Qnat, Qeq. simpl. lia.
Qed.

Lemma fraction_of_total count segments :
  exists q, fraction_of count segments = Ok q /\
    (segments = [] -> q = 0) /\
    (segments <> [] -> q = Qnat count / Qnat (length segments)).
Proof.
  destruct segments as [|kv l]; simpl.
  - exists 0. by repeat split.
  - unfold py_div. change (S (length l)) with (length (kv :: l)).
    simpl length. rewrite Qnat_S_nonzero. eexists. split; [reflexivity|].
    split; [done|]. done.
Qed.

Lemma analyse_total segment_list node_list :
  exists a, analyse segment_list node_list = Ok a /\
    (a_totalSegments a <> 0%nat ->
       a_largest_pct a = Qnat (a_largest_size a) / Qnat (a_totalSegments a) /\
       a_reachable_pct a = Qnat (a_reachable a) / Qnat (a_totalSegments a) /\
       a_interior_dead_pct a = Qnat (a_interior_dead a) / Qnat (a_totalSegments a)).
Proof.
  unfold analyse. set (segments := segment_dict segment_list).
  destruct (find_connected_components_total segments) as (cs & ->). simpl.
  set (largest := match cs with c :: _ => size c | [] => 0%nat end).
  destruct (fraction_of_total largest segments) as (q1 & -> & _ & H1). simpl.
  destruct (find_reachable_from_entries_total segments) as (r & ->). simpl.
  destruct (fraction_of_total (size r) segments) as (q2 & -> & _ & H2). simpl.
  destruct (count_dead_ends segments (node_dict node_list)) as [interior boundary].
  destruct (fraction_of_total interior segments) as (q3 & -> & _ & H3). simpl.
  unfold compute_statistics.
  destruct (fraction_of_total (count_links successors (od_values segments)) segments)
    as (q4 & -> & _). simpl.
  destruct (fraction_of_total (count_links predecessors (od_values segments)) segments)
    as (q5 & -> & _). simpl.
  eexists. split; [reflexivity|]. simpl. intros Hne.
  assert (segments <> []) by (by destruct segments).
  by rewrite H1, H2, H3.
Qed.

(** ** C3 and C10: thresholds, exit status, and the empty graph *)

Lemma elem_of_if_singleton {A} (b : bool) (x y : A) :
  y ∈ (if b then [x] else []) <-> b = true /\ y = x.
Proof.
  destruct b.
  - rewrite list_elem_of_singleton. split; [by intros ->|by intros [_ ->]].
  - split; [intros H; by apply elem_of_nil in H|intros [? _]; done].
Qed.

Lemma check_thresholds_elem a f :
  f ∈ check_thresholds a <->
    (a_largest_pct a < 90 # 100 /\ f = LargestComponentBelow (a_largest_pct a * 100)) \/
    (5 # 100 < a_interior_dead_pct a /\
       f = InteriorDeadEndsAbove (a_interior_dead_pct a * 100)) \/
    (a_reachable_pct a < 85 # 100 /\
       f = EntryReachabilityBelow (a_reachable_pct a * 100)).
Proof.
  unfold check_thresholds.
  rewrite !elem_of_app, !elem_of_if_singleton, Qgtb_gt, !Qltb_lt. reflexivity.
Qed.

Lemma check_thresholds_nil a :
  (length (check_thresholds a) =? 0)%nat = true <->
    90 # 100 <= a_largest_pct a /\ 85 # 100 <= a_reachable_pct a /\
    a_interior_dead_pct a <= 5 # 100.
Proof.
  unfold check_thresholds, Qgtb, LARGEST_COMPONENT_THRESHOLD,
    INTERIOR_DEAD_END_THRESHOLD, ENTRY_REACHABILITY_THRESHOLD.
  rewrite <- !Qltb_false.
  destruct (Qltb (a_largest_pct a) _), (Qltb (5 # 100) _),
    (Qltb (a_reachable_pct a) _); simpl;
    (split; [intros ?|intros (? & ? & ?)]); first [done | by repeat split].
Qed.

(** C3. The validator always produces a report.  The report says PASS exactly
    when the largest-component fraction is at least 0.90, the entry
    reachability fraction at least 0.85 and the interior dead-end fraction at
    most 0.05; its [failures] list holds exactly one entry per violated
    threshold, in source order; and the exit status is 0 on PASS and 1
    otherwise.  The three fractions are the counts over the number of
    segments. *)
Theorem validator_pass_iff_thresholds (segment_list : list segment)
    (node_list : list RoadNode) :
  exists a report,
    analyse segment_list node_list = Ok a /\
    validate_main segment_list node_list = Ok (report, exit_status report) /\
    (a_totalSegments a <> 0%nat ->
       a_largest_pct a = Qnat (a_largest_size a) / Qnat (a_totalSegments a) /\
       a_reachable_pct a = Qnat (a_reachable a) / Qnat (a_totalSegments a) /\
       a_interior_dead_pct a = Qnat (a_interior_dead a) / Qnat (a_totalSegments a)) /\
    (passed report = true <->
       90 # 100 <= a_largest_pct a /\ 85 # 100 <= a_reachable_pct a /\
       a_interior_dead_pct a <= 5 # 100) /\
    (forall f, f ∈ failures report <->
       (a_largest_pct a < 90 # 100 /\
          f = LargestComponentBelow (a_largest_pct a * 100)) \/
       (5 # 100 < a_interior_dead_pct a /\
          f = InteriorDeadEndsAbove (a_interior_dead_pct a * 100)) \/
       (a_reachable_pct a < 85 # 100 /\
          f = EntryReachabilityBelow (a_reachable_pct a * 100))) /\
    NoDup (failures report) /\
    (passed report = true <-> failures report = []) /\
    (passed report = true -> exit_status report = 0%Z) /\
    (passed report = false -> exit_status report = 1%Z).
Proof.
  destruct (analyse_total segment_list node_list) as (a & Ha & Hfr).
  exists a, (make_report a). split; [exact Ha|]. split.
  { unfold validate_main, validate_graph. rewrite Ha. reflexivity. }
  split; [exact Hfr|]. split; [apply check_thresholds_nil|].
  split; [apply check_thresholds_elem|]. split; [|split; [|split]].
  - simpl. unfold check_thresholds.
    destruct (Qltb (a_largest_pct a) _), (Qgtb _ _), (Qltb (a_reachable_pct a) _);
      simpl; repeat constructor;
      rewrite ?not_elem_of_cons; repeat split; try discriminate; apply not_elem_of_nil.
  - simpl. destruct (check_thresholds a); simpl; split; done.
  - unfold exit_status. by intros ->.
  - unfold exit_status. by intros ->.
Qed.

(** C10. On an empty segment collection every guarded quotient is 0 (where
    the quotient itself would raise [ZeroDivisionError]), and the validator
    returns a complete report: all fractions and averages 0, FAIL on the
    largest-component and reachability thresholds, exit status 1. *)
Theorem validator_empty_graph_guarded (node_list : list RoadNode) :
  (forall count, fraction_of count [] = Ok 0) /\
  (forall count, py_div (Qnat count) (Qnat (length (segment_dict [])))
                 = Raise ZeroDivisionError) /\
  exists a report,
    analyse [] node_list = Ok a /\
    a_largest_pct a = 0 /\ a_reachable_pct a = 0 /\ a_interior_dead_pct a = 0 /\
    st_avgSuccessors (a_stats a) = 0 /\ st_avgPredecessors (a_stats a) = 0 /\
    validate_main [] node_list = Ok (report, 1%Z) /\
    report = mk_report 0 (length (node_dict node_list)) 0 0 0 0 0 0 0 0 0 0 0 0 false
               [LargestComponentBelow 0; EntryReachabilityBelow 0].
Proof.
  split; [reflexivity|]. split; [reflexivity|].
  eexists. eexists. split; [reflexivity|]. simpl.
  repeat (split; [reflexivity|]). reflexivity.
Qed.

(** ** Strings: order, decimal numerals *)

Lemma str_leb_refl s : String.leb s s = true.
Proof. destruct (String.leb_total s s); done. Qed.

Lemma ascii_compare_lt_trans a b c :
  Ascii.compare a b = Lt -> Ascii.compare b c = Lt -> Ascii.compare a c = Lt.
Proof.
  unfold Ascii.compare. rewrite !N.compare_lt_iff. apply N.lt_trans.
Qed.

Lemma str_leb_trans : forall a b c,
  String.leb a b = true -> String.leb b c = true -> String.leb a c = true.
Proof.
  unfold String.leb.
  induction a as [|x a IH]; intros [|y b] [|z c]; simpl; try done.
  destruct (Ascii.compare x y) eqn:Exy; try done;
    destruct (Ascii.compare y z) eqn:Eyz; try done.
  - apply Ascii.compare_eq_iff in Exy. apply Ascii.compare_eq_iff in Eyz. subst y z.
    assert (Hxx : Ascii.compare x x = Eq).
    { unfold Ascii.compare. apply N.compare_refl. }
    rewrite Hxx. apply IH.
  - apply Ascii.compare_eq_iff in Exy. subst. by rewrite Eyz.
  - apply Ascii.compare_eq_iff in Eyz. subst. by rewrite Exy.
  - by rewrite (ascii_compare_lt_trans _ _ _ Exy Eyz).
Qed.

Lemma str_app_inv_head (s a b : string) : s +:+ a = s +:+ b -> a = b.
Proof. induction s as [|c s IH]; simpl; [done|]. intros H. injection H as H. auto. Qed.

Definition is_digit (c : Ascii.ascii) : bool :=
  let n := Ascii.nat_of_ascii c in (48 <=? n)%nat && (n <=? 57)%nat.

Fixpoint all_digits (s : string) : bool :=
  match s with
  | EmptyString => true
  | String c s' => is_digit c && all_digits s'
  end.

(** A string that does not continue a numeral. *)
Definition ends_numeral (s : string) : bool :=
  match s with
  | EmptyString => true
  | String c _ => negb (is_digit c)
  end.

Lemma str_nat_digits n : all_digits (str_nat n) = true.
Proof.
  unfold str_nat. generalize (Nat.to_uint n). intros d.
  induction d; simpl; try done; by rewrite IHd.
Qed.

Lemma str_nat_inj n m : str_nat n = str_nat m -> n = m.
Proof.
  unfold str_nat. intros Heq.
  assert (Hu : Some (Nat.to_uint n) = Some (Nat.to_uint m)).
  { by rewrite <- !NilEmpty.usu, Heq. }
  injection Hu as Hu. by apply Unsigned.to_uint_inj.
Qed.

Lemma numeral_prefix_unique : forall d1 d2 r1 r2,
  all_digits d1 = true -> all_digits d2 = true ->
  ends_numeral r1 = true -> ends_numeral r2 = true ->
  d1 +:+ r1 = d2 +:+ r2 -> d1 = d2.
Proof.
  induction d1 as [|c d1 IH]; intros [|c' d2] r1 r2 H1 H2 E1 E2 Heq.
  - done.
  - change (r1 = String c' (d2 +:+ r2)) in Heq. subst r1. simpl in *.
    apply andb_true_iff in H2 as [H2 _]. by rewrite H2 in E1.
  - change (String c (d1 +:+ r1) = r2) in Heq. subst r2. simpl in *.
    apply andb_true_iff in H1 as [H1 _]. by rewrite H1 in E2.
  - change (String c (d1 +:+ r1) = String c' (d2 +:+ r2)) in Heq.
    injection Heq as -> Heq. simpl in *. apply andb_true_iff in H1 as [_ H1].
    apply andb_true_iff in H2 as [_ H2]. f_equal. apply (IH d2 r1 r2); assumption.
Qed.

(** ** [sorted]: a permutation, sorted, and determined by the keys *)

Lemma sorted_insert_perm {A} (le : A -> A -> bool) a l :
  sorted_insert le a l ≡ₚ a :: l.
Proof.
  induction l as [|b l IH]; simpl; [done|].
  destruct (le a b); [done|]. rewrite IH. apply Permutation_swap.
Qed.

Lemma sorted_by_perm {A} (le : A -> A -> bool) l : sorted_by le l ≡ₚ l.
Proof.
  induction l as [|a l IH]; simpl; [done|].
  unfold sorted_by in *. simpl. by rewrite sorted_insert_perm, IH.
Qed.

Section Sorting.
Context {A : Type} (le : A -> A -> bool).
Hypothesis le_total : forall a b, le a b = true \/ le b a = true.
Hypothesis le_trans : forall a b c, le a b = true -> le b c = true -> le a c = true.

Lemma sorted_insert_sorted a l :
  StronglySorted (fun x y => le x y = true) l ->
  StronglySorted (fun x y => le x y = true) (sorted_insert le a l).
Proof.
  induction 1 as [|b l Hs IH Hb]; simpl.
  - repeat constructor.
  - destruct (le a b) eqn:E.
    + constructor; [by constructor|]. constructor; [done|].
      eapply Forall_impl; [exact Hb|]. intros c Hc. by eapply le_trans.
    + constructor; [done|].
      assert (Hba : le b a = true) by (destruct (le_total a b); congruence).
      rewrite sorted_insert_perm. by constructor.
Qed.

Lemma sorted_by_sorted l : StronglySorted (fun x y => le x y = true) (sorted_by le l).
Proof.
  induction l as [|a l IH]; [constructor|].
  unfold sorted_by in *. simpl. by apply sorted_insert_sorted.
Qed.
End Sorting.

Lemma sorted_insert_map {A B} (f : A -> B) (le : A -> A -> bool) (le' : B -> B -> bool)
    a l :
  (forall b, b ∈ l -> le' (f a) (f b) = le a b) ->
  map f (sorted_insert le a l) = sorted_insert le' (f a) (map f l).
Proof.
  induction l as [|b l IH]; intros Hle; simpl; [done|].
  rewrite (Hle b) by (by left). destruct (le a b); [done|]. simpl.
  f_equal. apply IH. intros c Hc. apply Hle. by right.
Qed.

Lemma sorted_by_map {A B} (f : A -> B) (le : A -> A -> bool) (le' : B -> B -> bool) l :
  (forall a b, a ∈ l -> b ∈ l -> le' (f a) (f b) = le a b) ->
  map f (sorted_by le l) = sorted_by le' (map f l).
Proof.
  induction l as [|a l IH]; intros Hle; [done|].
  unfold sorted_by in *. simpl. rewrite <- IH.
  - apply sorted_insert_map. intros b Hb. apply Hle; [by left|].
    right. by rewrite <- (sorted_by_perm le l).
  - intros x y Hx Hy. apply Hle; by right.
Qed.

(** ** C7: the graph version *)

(** What [compute_graph_version] reads of a segment. *)
Definition version_key (s : segment) : string * nat := (seg_id s, length (points s)).

Definition item_of_key (k : string * nat) : string := k.1 +:+ ":" +:+ str_nat k.2.

Definition key_le (p q : string * nat) : bool := String.leb p.1 q.1.

Lemma unique_by_key {A B} (f : A -> B) (l : list A) (x y : A) :
  NoDup (map f l) -> x ∈ l -> y ∈ l -> f x = f y -> x = y.
Proof.
  induction l as [|a l IH]; intros Hnd Hx Hy Hf.
  - by apply elem_of_nil in Hx.
  - simpl in Hnd. apply NoDup_cons in Hnd as [Hnin Hnd].
    apply elem_of_cons in Hx as [->|Hx]; apply elem_of_cons in Hy as [->|Hy]; auto.
    + exfalso. apply Hnin. rewrite Hf. by apply list_elem_of_fmap_2.
    + exfalso. apply Hnin. rewrite <- Hf. by apply list_elem_of_fmap_2.
Qed.

Lemma version_data_keys segs :
  version_data segs
  = String.concat "|" (map item_of_key (sorted_by key_le (map version_key segs))).
Proof.
  unfold version_data.
  rewrite <- (sorted_by_map version_key by_id key_le) by done.
  by rewrite map_map.
Qed.

Lemma sorted_keys_unique (l1 l2 : list (string * nat)) :
  NoDup (map fst l1) -> l1 ≡ₚ l2 -> sorted_by key_le l1 = sorted_by key_le l2.
Proof.
  intros Hnd Hp.
  apply (StronglySorted_unique_strong (fun x y => key_le x y = true)).
  - intros x1 x2 H1 H2 H12 H21.
    rewrite sorted_by_perm in H1. rewrite sorted_by_perm, <- Hp in H2.
    apply (unique_by_key fst l1); [done..|]. by apply String.leb_antisym.
  - apply sorted_by_sorted.
    + intros a b. apply String.leb_total.
    + intros a b c. apply str_leb_trans.
  - apply sorted_by_sorted.
    + intros a b. apply String.leb_total.
    + intros a b c. apply str_leb_trans.
  - by rewrite !sorted_by_perm.
Qed.

(** Records that agree on their ids, position by position, are sorted into
    the same order. *)
Lemma sorted_pairs (lp : list (segment * segment)) :
  Forall (fun p => seg_id p.1 = seg_id p.2) lp ->
  exists sp, sp ≡ₚ lp /\
    sorted_by by_id (map fst lp) = map fst sp /\
    sorted_by by_id (map snd lp) = map snd sp.
Proof.
  intros Hids. rewrite Forall_forall in Hids.
  exists (sorted_by (fun p q => by_id p.1 q.1) lp).
  split; [apply sorted_by_perm|]. split.
  - symmetry. by apply sorted_by_map.
  - symmetry. apply sorted_by_map. intros a b Ha Hb.
    unfold by_id. by rewrite (Hids a Ha), (Hids b Hb).
Qed.

Lemma str_app_assoc (a b c : string) : (a +:+ b) +:+ c = a +:+ (b +:+ c).
Proof.
  induction a as [|x a IH]; [done|].
  change (String x ((a +:+ b) +:+ c) = String x (a +:+ (b +:+ c))). by rewrite IH.
Qed.

Lemma str_app_nil_r (a : string) : a +:+ "" = a.
Proof.
  induction a as [|x a IH]; [done|].
  change (String x (a +:+ "") = String x a). by rewrite IH.
Qed.

(** ['|'.join(x :: l)]. *)
Definition join_tail (l : list string) : string :=
  match l with
  | [] => ""
  | _ => "|" +:+ String.concat "|" l
  end.

Lemma join_cons (x : string) l : String.concat "|" (x :: l) = x +:+ join_tail l.
Proof. destruct l; simpl; [by rewrite str_app_nil_r|done]. Qed.

Lemma join_tail_ends l : ends_numeral (join_tail l) = true.
Proof. by destruct l. Qed.

Lemma join_tail_inj l l' :
  length l = length l' -> join_tail l = join_tail l' ->
  String.concat "|" l = String.concat "|" l'.
Proof.
  destruct l, l'; try done. simpl join_tail. intros _ Heq.
  by apply (str_app_inv_head "|") in Heq.
Qed.

Lemma version_item_head s s' r r' :
  seg_id s = seg_id s' -> ends_numeral r = true -> ends_numeral r' = true ->
  version_item s +:+ r = version_item s' +:+ r' ->
  length (points s) = length (points s') /\ r = r'.
Proof.
  intros Hid Hr Hr'. unfold version_item. rewrite Hid, !str_app_assoc.
  intros Heq. apply str_app_inv_head in Heq. apply str_app_inv_head in Heq.
  assert (Hn : str_nat (length (points s)) = str_nat (length (points s'))).
  { eapply numeral_prefix_unique; [apply str_nat_digits..|exact Hr|exact Hr'|done]. }
  rewrite Hn in Heq. apply str_app_inv_head in Heq.
  split; [by apply str_nat_inj|done].
Qed.

Lemma version_items_differ (sp : list (segment * segment)) :
  Forall (fun p => seg_id p.1 = seg_id p.2) sp ->
  Exists (fun p => length (points p.1) <> length (points p.2)) sp ->
  String.concat "|" (map version_item (map fst sp))
  <> String.concat "|" (map version_item (map snd sp)).
Proof.
  induction sp as [|[s s'] sp IH]; intros Hids Hex.
  - by apply Exists_nil in Hex.
  - apply Forall_cons in Hids as [Hid Hids]. simpl in Hid.
    simpl map. rewrite !join_cons. intros Heq.
    apply version_item_head in Heq as [Hlen Htail];
      [|done|apply join_tail_ends|apply join_tail_ends].
    apply Exists_cons in Hex as [Hex|Hex]; [done|].
    apply (IH Hids Hex). apply join_tail_inj; [|done].
    by rewrite !length_map.
Qed.

(** C7, as the code has it.  With unique segment ids the fingerprint is a
    function of the multiset of (id, point count) pairs: two lists whose
    pairs are permutations of each other hash the same string.  Changing the
    point count of any segment (ids kept in place) changes the string that is
    hashed; the fingerprint is the first 12 hex digits of the MD5 of that
    string, so it changes too unless the two digests agree on those digits. *)
Theorem graph_version_of_keys :
  (forall segs segs',
     NoDup (map seg_id segs) ->
     map version_key segs ≡ₚ map version_key segs' ->
     version_data segs = version_data segs' /\
     compute_graph_version segs = compute_graph_version segs') /\
  (forall segs segs' i s s',
     Forall2 (fun a b => seg_id a = seg_id b) segs segs' ->
     segs !! i = Some s -> segs' !! i = Some s' ->
     length (points s) <> length (points s') ->
     version_data segs <> version_data segs') /\
  (forall segs segs',
     compute_graph_version segs <> compute_graph_version segs' ->
     version_data segs <> version_data segs') /\
  (forall segs,
     compute_graph_version segs = str_take 12 (MD5.hexdigest (version_data segs))).
Proof.
  split; [|split; [|split]].
  - intros segs segs' Hnd Hp.
    assert (Hd : version_data segs = version_data segs').
    { rewrite !version_data_keys. f_equal. f_equal.
      apply sorted_keys_unique; [|done]. by rewrite map_map. }
    split; [done|]. unfold compute_graph_version. by rewrite Hd.
  - intros segs segs' i s s' Hids Hs Hs' Hne.
    set (lp := zip segs segs').
    assert (Hlen : length segs = length segs') by (by eapply Forall2_length).
    assert (Hfst : map fst lp = segs) by (apply fst_zip; lia).
    assert (Hsnd : map snd lp = segs') by (apply snd_zip; lia).
    assert (Hall : Forall (fun p => seg_id p.1 = seg_id p.2) lp).
    { apply Forall_forall. intros [a b] Hin.
      apply list_elem_of_lookup in Hin as [j Hj].
      apply lookup_zip_with_Some in Hj as (a' & b' & Heq & Ha & Hb).
      injection Heq as -> ->. simpl.
      exact (Forall2_lookup_lr _ _ _ j _ _ Hids Ha Hb). }
    destruct (sorted_pairs lp Hall) as (sp & Hperm & Hs1 & Hs2).
    unfold version_data. rewrite <- Hfst at 1. rewrite <- Hsnd. rewrite Hs1, Hs2.
    apply version_items_differ.
    + by rewrite Hperm.
    + rewrite Hperm. apply Exists_exists. exists (s, s'). split; [|done].
      apply list_elem_of_lookup. exists i. apply lookup_zip_with_Some.
      by exists s, s'.
  - intros segs segs' Hne Hd. apply Hne. unfold compute_graph_version. by rewrite Hd.
  - reflexivity.
Qed.

Lemma graph_version_of_keys_witness :
  let a2 := raw_segment "a" [(0, 0, 0); (1, 0, 0)] 10 20 [] in
  let b3 := raw_segment "b" [(1, 0, 0); (2, 0, 0); (3, 0, 0)] 10 20 [] in
  let b2 := raw_segment "b" [(1, 0, 0); (3, 0, 0)] 10 20 [] in
  compute_graph_version [b3; a2] = compute_graph_version [a2; b3] /\
  version_data [a2; b3] = "a:2|b:3" /\
  version_data [a2; b3] <> version_data [a2; b2].
Proof.
  intros a2 b3 b2. destruct graph_version_of_keys as (Hperm & Hchange & _).
  split; [|split].
  - apply Hperm.
    + apply (bool_decide_unpack _). vm_compute. reflexivity.
    + apply Permutation_swap.
  - vm_compute. reflexivity.
  - apply (Hchange _ _ 1%nat b3 b2); [|reflexivity|reflexivity|].
    + repeat constructor.
    + simpl. discriminate.
Defined.

(** ** The fingerprint has only finitely many values *)

Definition all_ascii : list Ascii.ascii := map Ascii.ascii_of_nat (seq 0 256).

Lemma all_ascii_complete c : c ∈ all_ascii.
Proof.
  unfold all_ascii. rewrite <- (Ascii.ascii_nat_embedding c).
  apply list_elem_of_fmap_2. apply elem_of_seq.
  pose proof (Ascii.nat_ascii_bounded c). lia.
Qed.

Fixpoint strings_upto (k : nat) : list string :=
  match k with
  | O => [""]
  | S k' => "" :: (all_ascii ≫= fun c => map (String c) (strings_upto k'))
  end.

Lemma strings_upto_complete k : forall s, (String.length s <= k)%nat -> s ∈ strings_upto k.
Proof.
  induction k as [|k IH]; intros [|c s] Hlen; simpl in Hlen.
  - by left.
  - lia.
  - by left.
  - right. apply list_elem_of_bind. exists c. split; [|apply all_ascii_complete].
    apply list_elem_of_fmap_2. apply IH. lia.
Qed.

Lemma pigeonhole_strings k (f : nat -> string) :
  (forall n, (String.length (f n) <= k)%nat) -> ~ (forall x y, f x = f y -> x = y).
Proof.
  intros Hlen Hinj.
  assert (Hsub : map f (seq 0 (S (length (strings_upto k)))) ⊆+ strings_upto k).
  { apply NoDup_submseteq.
    - apply NoDup_fmap_2_strong; [|apply NoDup_seq]. intros x y _ _. apply Hinj.
    - intros x Hx. apply list_elem_of_fmap in Hx as (n & -> & _).
      apply strings_upto_complete, Hlen. }
  apply submseteq_length in Hsub. rewrite length_map, length_seq in Hsub. lia.
Qed.

Lemma str_take_length n : forall s, (String.length (str_take n s) <= n)%nat.
Proof.
  unfold str_take. induction n as [|n IH]; intros [|c s]; simpl; try lia.
  specialize (IH s). lia.
Qed.

(** A segment with id "a" and [n] points. *)
Definition probe (n : nat) : segment :=
  raw_segment "a" (repeat (0, 0, 0) n) 0 0 [].

(** Changing a point count does not always change the fingerprint: the
    fingerprints of the one-segment lists ["a" with n points] take at most
    finitely many values, so two different counts share one. *)
Lemma graph_version_collision :
  ~ (forall n n', n <> n' ->
       compute_graph_version [probe n] <> compute_graph_version [probe n']).
Proof.
  intros Hclaim.
  apply (pigeonhole_strings 12 (fun n => compute_graph_version [probe n])).
  - intros n. unfold compute_graph_version. apply str_take_length.
  - intros x y Heq. destruct (decide (x = y)) as [|Hne]; [done|].
    exfalso. exact (Hclaim x y Hne Heq).
Qed.

(** With a repeated id the order of the input shows: [sorted] is stable and
    compares ids only. *)
Example graph_version_repeated_id :
  let a2 := raw_segment "a" [(0, 0, 0); (1, 0, 0)] 10 20 [] in
  let a3 := raw_segment "a" [(1, 0, 0); (2, 0, 0); (3, 0, 0)] 10 20 [] in
  compute_graph_version [a2; a3] = "fa0b166291dc" /\
  compute_graph_version [a3; a2] = "0ef38c25b34f".
Proof. split; vm_compute; reflexivity. Qed.

(** ** Union-find: representatives, and why [find] terminates *)

Section UnionFindFacts.
Context `{Countable K}.

(** [root_of uf x r]: following parent links from [x] ends at the root [r]. *)
Inductive root_of (uf : UnionFind K) : K -> K -> Prop :=
  | root_self x : parent uf !! x = Some x -> root_of uf x x
  | root_step x p r :
      parent uf !! x = Some p -> p <> x -> root_of uf p r -> root_of uf x r.

Definition same_root (uf : UnionFind K) (x y : K) : Prop :=
  exists r, root_of uf x r /\ root_of uf y r.

Definition rank_of (uf : UnionFind K) (x : K) : nat := default 0%nat (rank uf !! x).

(** The forest is closed under parent links, ranks strictly increase towards
    the root, and no rank exceeds [bound]. *)
Record uf_wf (bound : nat) (uf : UnionFind K) : Prop := mk_uf_wf {
  wf_closed : forall x p, parent uf !! x = Some p -> is_Some (parent uf !! p);
  wf_ranked : forall x p, parent uf !! x = Some p -> p <> x ->
                (rank_of uf x < rank_of uf p)%nat;
  wf_rank_dom : forall x, is_Some (parent uf !! x) -> is_Some (rank uf !! x);
  wf_bound : forall x, (rank_of uf x <= bound)%nat
}.

Lemma uf_wf_mono b b' uf : (b <= b')%nat -> uf_wf b uf -> uf_wf b' uf.
Proof.
  intros Hle [H1 H2 H3 H4]. split; auto. intros x. specialize (H4 x). lia.
Qed.

Lemma root_of_fun uf x r r' : root_of uf x r -> root_of uf x r' -> r = r'.
Proof.
  intros Hr. revert r'. induction Hr as [x Hx|x p r Hp Hne _ IH]; intros r' Hr'.
  - inversion Hr' as [? Hx'|? p' ? Hp' Hne' _]; subst; [done|]. congruence.
  - inversion Hr' as [? Hx'|? p' ? Hp' Hne' Hr'']; subst; [congruence|].
    apply IH. congruence.
Qed.

Lemma root_is_root uf x r : root_of uf x r -> parent uf !! r = Some r.
Proof. induction 1; auto. Qed.

Lemma root_of_dom uf x r : root_of uf x r -> is_Some (parent uf !! x).
Proof. destruct 1; eauto. Qed.

Lemma root_rank_lt b uf x r :
  uf_wf b uf -> root_of uf x r -> x <> r -> (rank_of uf x < rank_of uf r)%nat.
Proof.
  intros Hwf Hr. induction Hr as [x Hx|x p r Hp Hne Hr IH]; intros Hxr; [done|].
  pose proof (wf_ranked _ _ Hwf x p Hp Hne).
  destruct (decide (p = r)) as [->|Hpr]; [done|]. specialize (IH Hpr). lia.
Qed.

Lemma same_root_refl uf x r : root_of uf x r -> same_root uf x x.
Proof. intros Hr. by exists r. Qed.

Lemma same_root_sym uf x y : same_root uf x y -> same_root uf y x.
Proof. intros (r & ? & ?). by exists r. Qed.

Lemma same_root_trans uf x y z : same_root uf x y -> same_root uf y z -> same_root uf x z.
Proof.
  intros (r & Hx & Hy) (r' & Hy' & Hz).
  rewrite <- (root_of_fun _ _ _ _ Hy Hy') in Hz. by exists r.
Qed.

(** Two forests with the same representatives. *)
Definition same_roots (uf uf' : UnionFind K) : Prop :=
  forall y r, root_of uf' y r <-> root_of uf y r.

(** Path compression: pointing a node at its own root changes no
    representative. *)
Lemma compress_roots uf x r :
  root_of uf x r -> x <> r ->
  same_roots uf (mk_uf (<[x := r]> (parent uf)) (rank uf)).
Proof.
  intros Hxr Hne y r'.
  assert (Hrr : parent uf !! r = Some r) by (by eapply root_is_root).
  split; intros Hy.
  - induction Hy as [y Hy|y q r' Hq Hqy _ IH]; simpl in *.
    + destruct (decide (y = x)) as [->|Hyx].
      * rewrite lookup_insert_eq in Hy. congruence.
      * rewrite lookup_insert_ne in Hy by done. by constructor.
    + destruct (decide (y = x)) as [->|Hyx].
      * rewrite lookup_insert_eq in Hq. injection Hq as <-.
        assert (r' = r) as ->; [|done].
        symmetry. eapply root_of_fun; [|exact IH]. by constructor.
      * rewrite lookup_insert_ne in Hq by done. by eapply root_step.
  - induction Hy as [y Hy|y q r' Hq Hqy Hy IH].
    + assert (y <> x).
      { intros ->. apply Hne. eapply root_of_fun; [by constructor|exact Hxr]. }
      constructor. simpl. by rewrite lookup_insert_ne.
    + destruct (decide (y = x)) as [->|Hyx].
      * assert (r' = r) as ->.
        { eapply root_of_fun; [|exact Hxr]. by eapply root_step. }
        eapply (root_step _ x r); simpl.
        -- by rewrite lookup_insert_eq.
        -- done.
        -- constructor. simpl. by rewrite lookup_insert_ne.
      * eapply root_step; simpl; [|done|exact IH]. by rewrite lookup_insert_ne.
Qed.

Lemma compress_wf b uf x r :
  uf_wf b uf -> root_of uf x r -> x <> r ->
  uf_wf b (mk_uf (<[x := r]> (parent uf)) (rank uf)).
Proof.
  intros Hwf Hxr Hne.
  assert (Hrr : parent uf !! r = Some r) by (by eapply root_is_root).
  split; simpl.
  - intros y p Hy. destruct (decide (y = x)) as [->|Hyx].
    + rewrite lookup_insert_eq in Hy. injection Hy as <-.
      rewrite lookup_insert_ne by done. eauto.
    + rewrite lookup_insert_ne in Hy by done.
      destruct (decide (p = x)) as [->|Hpx].
      * rewrite lookup_insert_eq. eauto.
      * rewrite lookup_insert_ne by done. by eapply wf_closed.
  - intros y p Hy Hpy. unfold rank_of. simpl.
    destruct (decide (y = x)) as [->|Hyx].
    + rewrite lookup_insert_eq in Hy. injection Hy as <-.
      by eapply root_rank_lt.
    + rewrite lookup_insert_ne in Hy by done. by eapply wf_ranked.
  - intros y Hy. apply (wf_rank_dom _ _ Hwf).
    destruct (decide (y = x)) as [->|Hyx]; [by eapply root_of_dom|].
    by rewrite lookup_insert_ne in Hy.
  - apply (wf_bound _ _ Hwf).
Qed.

Definition same_dom (uf uf' : UnionFind K) : Prop :=
  forall y, is_Some (parent uf' !! y) <-> is_Some (parent uf !! y).

(** [find] returns the root, within a recursion depth that the rank of the
    argument leaves, and keeps every representative. *)
Lemma find_spec b uf : forall depth x,
  uf_wf b uf -> is_Some (parent uf !! x) -> (b - rank_of uf x < depth)%nat ->
  exists r uf',
    find depth x uf = Ok (r, uf') /\ root_of uf x r /\
    uf_wf b uf' /\ rank uf' = rank uf /\ same_dom uf uf' /\ same_roots uf uf'.
Proof.
  intros depth. revert uf.
  induction depth as [|depth IH]; intros uf x Hwf [p Hp] Hd; [lia|].
  simpl. rewrite Hp. simpl. destruct (decide (p = x)) as [->|Hne].
  - exists x, uf. split; [done|]. split; [by constructor|]. split; [done|].
    split; [done|]. split; [by intros ?|by intros ? ?].
  - pose proof (wf_ranked _ _ Hwf x p Hp Hne) as Hlt.
    destruct (IH uf p Hwf) as (r & uf1 & -> & Hr & Hwf1 & Hrk & Hdom & Hroots).
    { by eapply wf_closed. }
    { pose proof (wf_bound _ _ Hwf p). lia. }
    simpl. exists r. eexists. split; [reflexivity|].
    assert (Hxr : root_of uf x r) by (by eapply root_step).
    assert (Hxne : x <> r).
    { intros ->. apply root_is_root in Hr. congruence. }
    assert (Hxr1 : root_of uf1 x r) by (by apply Hroots).
    split; [done|]. split; [by apply compress_wf|]. split; [done|]. split.
    + intros y. simpl. etrans; [|apply Hdom].
      destruct (decide (y = x)) as [->|Hyx].
      * rewrite lookup_insert_eq. split; [|eauto]. intros _. by eapply root_of_dom.
      * by rewrite lookup_insert_ne.
    + intros y r'. etrans; [|apply Hroots]. by apply compress_roots.
Qed.

(** Linking the root [c] below the root [t]. *)
Lemma link_roots uf t c rank' y r :
  parent uf !! t = Some t -> parent uf !! c = Some c -> c <> t ->
  root_of uf y r ->
  root_of (mk_uf (<[c := t]> (parent uf)) rank') y (if decide (r = c) then t else r).
Proof.
  intros Ht Hc Hne Hy.
  assert (Htt : root_of (mk_uf (<[c := t]> (parent uf)) rank') t t).
  { constructor. simpl. by rewrite lookup_insert_ne. }
  induction Hy as [y Hy|y q r Hq Hqy _ IH].
  - destruct (decide (y = c)) as [->|Hyc].
    + eapply root_step; [|exact (not_eq_sym Hne)|exact Htt].
      simpl. by rewrite lookup_insert_eq.
    + constructor. simpl. by rewrite lookup_insert_ne.
  - assert (y <> c) by congruence.
    eapply root_step; [|exact Hqy|exact IH]. simpl. by rewrite lookup_insert_ne.
Qed.

Lemma link_same_root uf t c rank' :
  parent uf !! t = Some t -> parent uf !! c = Some c -> c <> t ->
  (forall a d, same_root uf a d ->
     same_root (mk_uf (<[c := t]> (parent uf)) rank') a d) /\
  (forall a d, root_of uf a t -> root_of uf d c ->
     same_root (mk_uf (<[c := t]> (parent uf)) rank') a d).
Proof.
  intros Ht Hc Hne. split.
  - intros a d (r & Ha & Hd). eexists. split; by apply link_roots.
  - intros a d Ha Hd. exists t. split.
    + pose proof (link_roots uf t c rank' a t Ht Hc Hne Ha) as Hr.
      by destruct (decide (t = c)) as [->|_] in Hr.
    + pose proof (link_roots uf t c rank' d c Ht Hc Hne Hd) as Hr.
      by destruct (decide (c = c)) in Hr.
Qed.

Lemma link_wf b uf t c rank' :
  uf_wf b uf -> parent uf !! t = Some t -> parent uf !! c = Some c -> c <> t ->
  (rank' = rank uf /\ (rank_of uf c < rank_of uf t)%nat) \/
  (rank' = <[t := S (rank_of uf t)]> (rank uf) /\
     (rank_of uf c <= rank_of uf t)%nat) ->
  uf_wf (S b) (mk_uf (<[c := t]> (parent uf)) rank').
Proof.
  intros Hwf Ht Hc Hne Hrank.
  assert (Hrk : exists k',
            (forall y, rank_of (mk_uf (<[c := t]> (parent uf)) rank') y
                       = if decide (y = t) then k' else rank_of uf y) /\
            (rank_of uf c < k')%nat /\ (rank_of uf t <= k')%nat /\
            (k' <= S (rank_of uf t))%nat).
  { destruct Hrank as [[-> ?]|[-> ?]].
    - exists (rank_of uf t). split; [|lia]. intros y. unfold rank_of. simpl.
      by destruct (decide (y = t)) as [->|].
    - exists (S (rank_of uf t)). split; [|lia]. intros y. unfold rank_of. simpl.
      destruct (decide (y = t)) as [->|Hyt].
      + by rewrite lookup_insert_eq.
      + by rewrite lookup_insert_ne. }
  destruct Hrk as (k' & Hrk & Hck & Htk & Hkt).
  split.
  - intros y p Hy. simpl in *.
    assert (is_Some (parent uf !! p)) as [q Hq].
    { destruct (decide (y = c)) as [->|Hyc].
      - rewrite lookup_insert_eq in Hy. injection Hy as <-. eauto.
      - rewrite lookup_insert_ne in Hy by done. by eapply wf_closed. }
    destruct (decide (p = c)) as [->|Hpc].
    + rewrite lookup_insert_eq. eauto.
    + rewrite lookup_insert_ne by done. eauto.
  - intros y p Hy Hpy. rewrite !Hrk. simpl in Hy.
    destruct (decide (y = c)) as [->|Hyc].
    + rewrite lookup_insert_eq in Hy. injection Hy as <-.
      destruct (decide (c = t)) as [|_]; [done|].
      destruct (decide (t = t)) as [_|]; [lia|done].
    + rewrite lookup_insert_ne in Hy by done.
      pose proof (wf_ranked _ _ Hwf y p Hy Hpy).
      destruct (decide (y = t)) as [->|_]; [congruence|].
      destruct (decide (p = t)) as [->|_]; lia.
  - intros y Hy. simpl in *.
    assert (is_Some (rank uf !! y)) as [k Hk].
    { apply (wf_rank_dom _ _ Hwf).
      destruct (decide (y = c)) as [->|Hyc]; [eauto|].
      by rewrite lookup_insert_ne in Hy. }
    destruct Hrank as [[-> _]|[-> _]]; [eauto|].
    destruct (decide (y = t)) as [->|Hyt].
    + rewrite lookup_insert_eq. eauto.
    + rewrite lookup_insert_ne by done. eauto.
  - intros y. rewrite Hrk. pose proof (wf_bound _ _ Hwf y).
    pose proof (wf_bound _ _ Hwf t).
    destruct (decide (y = t)); lia.
Qed.

Lemma link_dom uf t c rank' :
  parent uf !! c = Some c -> same_dom uf (mk_uf (<[c := t]> (parent uf)) rank').
Proof.
  intros Hc y. simpl. destruct (decide (y = c)) as [->|Hyc].
  - rewrite lookup_insert_eq. split; eauto.
  - by rewrite lookup_insert_ne.
Qed.

(** [union] merges the classes of its arguments and keeps all others; each
    call raises the rank bound by at most one. *)
Lemma union_spec b uf depth x y :
  uf_wf b uf -> is_Some (parent uf !! x) -> is_Some (parent uf !! y) ->
  (b < depth)%nat ->
  exists uf',
    union depth x y uf = Ok uf' /\ uf_wf (S b) uf' /\ same_dom uf uf' /\
    (forall a d, same_root uf a d -> same_root uf' a d) /\ same_root uf' x y.
Proof.
  intros Hwf Hx Hy Hd. unfold union.
  destruct (find_spec b uf depth x Hwf Hx) as
    (rx & uf1 & -> & Hrx & Hwf1 & Hrk1 & Hdom1 & Hroots1); [lia|]. simpl.
  destruct (find_spec b uf1 depth y Hwf1) as
    (ry & uf2 & -> & Hry & Hwf2 & Hrk2 & Hdom2 & Hroots2);
    [by apply Hdom1|lia|]. simpl.
  assert (Hdom : same_dom uf uf2).
  { intros z. etrans; [apply Hdom2|apply Hdom1]. }
  assert (Hroots : same_roots uf uf2).
  { intros z r. etrans; [apply Hroots2|apply Hroots1]. }
  assert (Hkeep : forall a d, same_root uf a d -> same_root uf2 a d).
  { intros a d (r & Ha & Hd'). exists r. split; by apply Hroots. }
  assert (Hrx2 : root_of uf2 x rx) by (by apply Hroots2, Hroots1).
  assert (Hry2 : root_of uf2 y ry) by (by apply Hroots2).
  destruct (decide (rx = ry)) as [<-|Hne].
  { exists uf2. split; [done|]. split; [by eapply uf_wf_mono; [|exact Hwf2]; lia|].
    split; [done|]. split; [done|]. by exists rx. }
  pose proof (root_is_root _ _ _ Hrx2) as Hpx.
  pose proof (root_is_root _ _ _ Hry2) as Hpy.
  destruct (wf_rank_dom _ _ Hwf2 rx) as [kx Hkx]; [eauto|].
  destruct (wf_rank_dom _ _ Hwf2 ry) as [ky Hky]; [eauto|].
  rewrite Hkx, Hky. simpl.
  assert (Hrkx : rank_of uf2 rx = kx) by (unfold rank_of; by rewrite Hkx).
  assert (Hrky : rank_of uf2 ry = ky) by (unfold rank_of; by rewrite Hky).
  destruct (kx <? ky)%nat eqn:Hlt.
  - apply Nat.ltb_lt in Hlt.
    assert (Hneq : (ky =? kx)%nat = false) by (apply Nat.eqb_neq; lia).
    rewrite Hneq. eexists. split; [reflexivity|].
    destruct (link_same_root uf2 ry rx (rank uf2) Hpy Hpx Hne) as [Hk1 Hk2].
    split; [apply link_wf; auto; left; split; [done|lia]|].
    split; [intros z; etrans; [by apply link_dom|apply Hdom]|].
    split; [intros a d Had; by apply Hk1, Hkeep|].
    apply same_root_sym. by apply Hk2.
  - apply Nat.ltb_ge in Hlt.
    assert (Hne' : ry <> rx) by congruence.
    destruct (kx =? ky)%nat eqn:Heq.
    + apply Nat.eqb_eq in Heq. eexists. split; [reflexivity|].
      destruct (link_same_root uf2 rx ry (<[rx := S kx]> (rank uf2)) Hpx Hpy Hne')
        as [Hk1 Hk2].
      split; [apply link_wf; auto; right; split; [by rewrite Hrkx|lia]|].
      split; [intros z; etrans; [by apply link_dom|apply Hdom]|].
      split; [intros a d Had; by apply Hk1, Hkeep|]. by apply Hk2.
    + apply Nat.eqb_neq in Heq. eexists. split; [reflexivity|].
      destruct (link_same_root uf2 rx ry (rank uf2) Hpx Hpy Hne') as [Hk1 Hk2].
      split; [apply link_wf; auto; left; split; [done|lia]|].
      split; [intros z; etrans; [by apply link_dom|apply Hdom]|].
      split; [intros a d Had; by apply Hk1, Hkeep|]. by apply Hk2.
Qed.
End UnionFindFacts.

(** ** Clustering: the merge loops *)

Lemma for_seq_total {St} (P : nat -> St -> Prop) (body : nat -> St -> result St) :
  forall n a s,
  P a s ->
  (forall j t, (a <= j < a + n)%nat -> P j t -> exists t', body j t = Ok t' /\ P (S j) t') ->
  exists s', for_each body (seq a n) s = Ok s' /\ P (a + n)%nat s'.
Proof.
  induction n as [|n IH]; intros a s Hs Hstep; simpl.
  - exists s. by rewrite Nat.add_0_r.
  - destruct (Hstep a s) as (t' & -> & Ht'); [lia|done|]. simpl.
    destruct (IH (S a) t' Ht') as (s' & Hr & Hs').
    + intros j t Hj. apply Hstep. lia.
    + exists s'. split; [done|]. by replace (a + S n)%nat with (S a + n)%nat by lia.
Qed.

Lemma endpoint_ids_lookup n i :
  (i < n)%nat -> make_endpoint_ids n !! i = Some (str_nat i).
Proof.
  intros Hi. unfold make_endpoint_ids. rewrite list_lookup_fmap.
  by rewrite lookup_seq_lt.
Qed.

Lemma endpoint_ids_elem n k :
  k ∈ make_endpoint_ids n <-> exists i, (i < n)%nat /\ k = str_nat i.
Proof.
  unfold make_endpoint_ids. rewrite list_elem_of_fmap. split.
  - intros (i & -> & Hi). apply elem_of_seq in Hi. exists i. split; [lia|done].
  - intros (i & Hi & ->). exists i. split; [done|]. apply elem_of_seq. lia.
Qed.

(** After [make_set] on every id: each id is its own class, of rank 0. *)
Definition uf_discrete (uf : UnionFind string) : Prop :=
  (forall x p, parent uf !! x = Some p -> p = x) /\
  (forall x, rank_of uf x = 0%nat) /\
  (forall x, is_Some (parent uf !! x) -> is_Some (rank uf !! x)).

Lemma make_set_discrete x uf :
  uf_discrete uf ->
  uf_discrete (make_set x uf) /\
  (forall y, is_Some (parent (make_set x uf) !! y) <-> y = x \/ is_Some (parent uf !! y)).
Proof.
  intros (Hself & Hrk & Hdom). unfold make_set.
  destruct (parent uf !! x) as [p|] eqn:Hx.
  - split; [done|]. intros y. split; [by right|]. intros [->|?]; [eauto|done].
  - split; [split; [|split]|]; simpl.
    + intros y p Hy. destruct (decide (y = x)) as [->|Hne].
      * rewrite lookup_insert_eq in Hy. congruence.
      * rewrite lookup_insert_ne in Hy by done. by apply Hself.
    + intros y. unfold rank_of. simpl. destruct (decide (y = x)) as [->|Hne].
      * by rewrite lookup_insert_eq.
      * rewrite lookup_insert_ne by done. apply Hrk.
    + intros y Hy. destruct (decide (y = x)) as [->|Hne].
      * rewrite lookup_insert_eq. eauto.
      * rewrite lookup_insert_ne in Hy by done. rewrite lookup_insert_ne by done.
        by apply Hdom.
    + intros y. destruct (decide (y = x)) as [->|Hne].
      * rewrite lookup_insert_eq. split; eauto.
      * rewrite lookup_insert_ne by done. split; [by right|]. by intros [?|?].
Qed.

Lemma make_sets_spec ids :
  uf_discrete (make_sets ids) /\
  (forall y, is_Some (parent (make_sets ids) !! y) <-> y ∈ ids).
Proof.
  unfold make_sets.
  assert (G : forall l uf, uf_discrete uf ->
            uf_discrete (fold_left (fun uf ep_id => make_set ep_id uf) l uf) /\
            (forall y, is_Some (parent (fold_left (fun uf ep_id => make_set ep_id uf) l uf) !! y)
                       <-> y ∈ l \/ is_Some (parent uf !! y))).
  { induction l as [|x l IH]; intros uf Hd; simpl.
    - split; [done|]. intros y. split; [by right|]. intros [Hy|?]; [|done].
      by apply elem_of_nil in Hy.
    - destruct (make_set_discrete x uf Hd) as [Hd' Hdom'].
      destruct (IH _ Hd') as [Hd'' Hdom'']. split; [done|].
      intros y. rewrite Hdom'', Hdom', elem_of_cons. tauto. }
  destruct (G ids uf_new) as [Hd Hdom].
  { split; [|split].
    - intros x p Hx. simpl in Hx. by rewrite lookup_empty in Hx.
    - intros x. unfold rank_of. simpl. by rewrite lookup_empty.
    - intros x [p Hx]. simpl in Hx. by rewrite lookup_empty in Hx. }
  split; [done|]. intros y. rewrite Hdom. split; [|by left].
  intros [?|[p Hp]]; [done|]. simpl in Hp. by rewrite lookup_empty in Hp.
Qed.

Lemma uf_discrete_wf uf : uf_discrete uf -> uf_wf 0 uf.
Proof.
  intros (Hself & Hrk & Hdom). split.
  - intros x p Hx. rewrite (Hself x p Hx) in *. eauto.
  - intros x p Hx Hne. by rewrite (Hself x p Hx) in Hne.
  - done.
  - intros x. by rewrite Hrk.
Qed.

(** Every member of a well-formed forest has a root. *)
Lemma root_exists b (uf : UnionFind string) x :
  uf_wf b uf -> is_Some (parent uf !! x) -> exists r, root_of uf x r.
Proof.
  intros Hwf Hx.
  destruct (find_spec b uf (S b) x Hwf Hx) as (r & _ & _ & Hr & _); [lia|].
  by exists r.
Qed.

(** Closeness of two endpoints, by index. *)
Definition close (endpoints : list Endpoint) (a b : nat) : Prop :=
  exists ea eb, endpoints !! a = Some ea /\ endpoints !! b = Some eb /\
    distance_lt ea eb SNAP_RADIUS = true.

Lemma distance_lt_sym p q r : distance_lt p q r = distance_lt q p r.
Proof.
  unfold distance_lt, Qltb. f_equal.
  assert (Heq : distance_sq p q == distance_sq q p) by (unfold distance_sq; ring).
  by rewrite Heq.
Qed.

Lemma close_sym endpoints a b : close endpoints a b -> close endpoints b a.
Proof.
  intros (ea & eb & Ha & Hb & Hd). exists eb, ea. by rewrite distance_lt_sym.
Qed.

Section Merge.
Variable endpoints : list Endpoint.
Let n := length endpoints.
Let ids := make_endpoint_ids n.
Let uf0 := make_sets ids.

(** What holds of the forest while pairs are being merged: [seen a b] says
    that the pair has been compared. *)
Definition merge_inv (bound : nat) (seen : nat -> nat -> Prop)
    (uf : UnionFind string) : Prop :=
  uf_wf bound uf /\ same_dom uf0 uf /\
  forall a b, seen a b -> close endpoints a b ->
    same_root uf (str_nat a) (str_nat b).

Lemma in_dom_of_lt uf i : same_dom uf0 uf -> (i < n)%nat -> is_Some (parent uf !! str_nat i).
Proof.
  intros Hdom Hi. apply Hdom. apply make_sets_spec. apply endpoint_ids_elem. eauto.
Qed.

Lemma merge_pair_spec bound seen i j uf :
  (i < n)%nat -> (j < n)%nat -> (bound < find_depth n)%nat ->
  merge_inv bound seen uf ->
  exists uf',
    merge_pair endpoints ids i j uf = Ok uf' /\
    merge_inv (S bound) (fun a b => seen a b \/ (a = i /\ b = j)) uf'.
Proof.
  intros Hi Hj Hb (Hwf & Hdom & Hseen). unfold merge_pair.
  destruct (lookup_lt_is_Some_2 endpoints i Hi) as [ei Hei].
  destruct (lookup_lt_is_Some_2 endpoints j Hj) as [ej Hej].
  rewrite Hei, Hej. simpl.
  destruct (distance_lt ei ej SNAP_RADIUS) eqn:Hd.
  - unfold ids. rewrite !endpoint_ids_lookup by done. simpl.
    destruct (union_spec bound uf (find_depth (length endpoints)) (str_nat i) (str_nat j))
      as (uf' & -> & Hwf' & Hdom' & Hkeep & Hij); auto using in_dom_of_lt.
    exists uf'. split; [done|]. split; [done|]. split.
    + intros y. etrans; [apply Hdom'|apply Hdom].
    + intros a b [Hab|[-> ->]] Hc; [by apply Hkeep, Hseen|done].
  - exists uf. split; [done|]. split; [by eapply uf_wf_mono; [|exact Hwf]; lia|].
    split; [done|]. intros a b [Hab|[-> ->]] Hc; [by apply Hseen|].
    destruct Hc as (ea & eb & Ha & Hb' & Hc). congruence.
Qed.

Lemma merge_endpoints_spec :
  exists uf,
    merge_endpoints endpoints ids uf0 = Ok uf /\
    merge_inv (n * n) (fun a b => (a < b < n)%nat) uf.
Proof.
  unfold merge_endpoints. fold n.
  destruct (for_seq_total
              (fun i uf => merge_inv (i * n) (fun a b => (a < i)%nat /\ (a < b < n)%nat) uf)
              (fun i uf => for_each (merge_pair endpoints ids i) (seq (S i) (n - S i)) uf)
              n 0%nat uf0) as (uf & Hr & Hinv).
  - split; [|split].
    + apply uf_discrete_wf, make_sets_spec.
    + by intros y.
    + intros a b [? _]. lia.
  - intros i uf [_ Hi] (Hwf & Hdom & Hseen). simpl in Hi.
    destruct (for_seq_total
                (fun j uf' => merge_inv (i * n + (j - S i))
                   (fun a b => ((a < i)%nat /\ (a < b < n)%nat) \/
                               (a = i /\ (i < b < j)%nat)) uf')
                (merge_pair endpoints ids i) (n - S i) (S i) uf)
      as (uf' & Hr' & Hwf' & Hdom' & Hseen').
    + split; [|split; [done|]].
      * eapply uf_wf_mono; [|exact Hwf]. lia.
      * intros a b [?|[_ ?]]; [by apply Hseen|lia].
    + intros j t Hj (Hwf1 & Hdom1 & Hseen1).
      destruct (merge_pair_spec (i * n + (j - S i))
                  (fun a b => ((a < i)%nat /\ (a < b < n)%nat) \/
                              (a = i /\ (i < b < j)%nat)) i j t)
        as (t' & Ht' & Hwf2 & Hdom2 & Hseen2); [lia|lia| |done|].
      { unfold find_depth. fold n. nia. }
      exists t'. split; [done|]. split; [|split; [done|]].
      * eapply uf_wf_mono; [|exact Hwf2]. lia.
      * intros a b Hab. apply Hseen2.
        destruct Hab as [?|[-> ?]]; [by left; left|].
        destruct (decide (b = j)) as [->|?]; [by right|]. left. right. lia.
    + exists uf'. split; [done|]. split; [|split; [done|]].
      * eapply uf_wf_mono; [|exact Hwf']. nia.
      * intros a b [Ha Hab]. apply Hseen'.
        destruct (decide (a = i)) as [->|?]; [right; lia|left; lia].
  - exists uf. split; [done|]. destruct Hinv as (Hwf & Hdom & Hseen).
    split; [done|]. split; [done|]. intros a b Hab. apply Hseen. simpl. lia.
Qed.
End Merge.

(** ** Insertion-ordered dictionaries *)

Lemma od_get_elem {V} (d : odict V) k v : od_get d k = Some v -> (k, v) ∈ d.
Proof.
  induction d as [|[k' v'] d IH]; simpl; [done|].
  destruct (decide (k' = k)) as [->|Hne].
  - intros [= ->]. by left.
  - intros Hg. right. by apply IH.
Qed.

Lemma od_elem_get {V} (d : odict V) k v :
  NoDup (od_keys d) -> (k, v) ∈ d -> od_get d k = Some v.
Proof.
  unfold od_keys. induction d as [|[k' v'] d IH]; simpl; intros Hnd Hin.
  - by apply elem_of_nil in Hin.
  - apply NoDup_cons in Hnd as [Hnin Hnd].
    apply elem_of_cons in Hin as [[= -> ->]|Hin].
    + by destruct (decide (k' = k')).
    + destruct (decide (k' = k)) as [->|Hne]; [|by apply IH].
      exfalso. apply Hnin. by apply (list_elem_of_fmap_2 fst) in Hin.
Qed.

Lemma od_get_None_keys {V} (d : odict V) k : od_get d k = None <-> k ∉ od_keys d.
Proof.
  unfold od_keys. induction d as [|[k' v'] d IH]; simpl.
  - split; [intros _; apply not_elem_of_nil|done].
  - rewrite not_elem_of_cons. destruct (decide (k' = k)) as [->|Hne].
    + split; [done|]. by intros [? _].
    + rewrite IH. split; [by intros ?; split|by intros [_ ?]].
Qed.

Lemma od_set_fresh {V} (d : odict V) k v :
  od_get d k = None -> od_set d k v = d ++ [(k, v)].
Proof.
  induction d as [|[k' v'] d IH]; simpl; [done|].
  destruct (decide (k' = k)); [done|]. intros Hg. by rewrite IH.
Qed.

Lemma od_set_keys {V} (d : odict V) k v :
  od_keys (od_set d k v)
  = match od_get d k with Some _ => od_keys d | None => od_keys d ++ [k] end.
Proof.
  induction d as [|[k' v'] d IH]; [done|]. simpl od_set. simpl od_get.
  destruct (decide (k' = k)) as [->|Hne]; [done|].
  change (k' :: od_keys (od_set d k v)
          = match od_get d k with
            | Some _ => k' :: od_keys d
            | None => (k' :: od_keys d) ++ [k]
            end).
  rewrite IH. by destruct (od_get d k).
Qed.

Lemma od_set_elem {V} (d : odict V) k v k' v' :
  NoDup (od_keys d) ->
  ((k', v') ∈ od_set d k v <-> (k' = k /\ v' = v) \/ (k' <> k /\ (k', v') ∈ d)).
Proof.
  unfold od_keys. induction d as [|[k0 v0] d IH]; simpl; intros Hnd.
  - rewrite list_elem_of_singleton. split.
    + intros [= -> ->]. by left.
    + intros [[-> ->]|[_ Hin]]; [done|]. by apply elem_of_nil in Hin.
  - apply NoDup_cons in Hnd as [Hnin Hnd].
    destruct (decide (k0 = k)) as [->|Hne].
    + rewrite !elem_of_cons. split.
      * intros [[= -> ->]|Hin]; [by left|]. right. split; [|by right].
        intros ->. apply Hnin. by apply (list_elem_of_fmap_2 fst) in Hin.
      * intros [[-> ->]|[Hne [[= ? ?]|Hin]]]; [by left|done|by right].
    + rewrite !elem_of_cons, (IH Hnd). split.
      * intros [[= -> ->]|[?|[? ?]]]; [right; split; [done|by left]|by left|].
        right. split; [done|by right].
      * intros [[-> ->]|[? [[= -> ->]|?]]]; [right; by left|by left|].
        right. right. done.
Qed.

Lemma od_set_NoDup {V} (d : odict V) k v :
  NoDup (od_keys d) -> NoDup (od_keys (od_set d k v)).
Proof.
  intros Hnd. rewrite od_set_keys. destruct (od_get d k) eqn:Hg; [done|].
  apply NoDup_app. split; [done|]. split; [|apply NoDup_singleton].
  intros x Hx Hx'. apply list_elem_of_singleton in Hx'. subst x.
  by apply od_get_None_keys in Hg.
Qed.

(** ** Clustering: grouping by root *)

Section Group.
Variable endpoints : list Endpoint.
Variable ufm : UnionFind string.
Let n := length endpoints.
Let ids := make_endpoint_ids n.
Hypothesis ufm_wf : uf_wf (n * n) ufm.
Hypothesis ufm_dom : same_dom (make_sets ids) ufm.

(** The clusters after the first [k] endpoints: one entry per root seen,
    holding exactly the indices below [k] with that root, in order. *)
Definition clusters_ok (k : nat) (cl : odict (list nat)) : Prop :=
  NoDup (od_keys cl) /\
  (forall r l, (r, l) ∈ cl ->
     l <> [] /\ NoDup l /\
     forall i, i ∈ l <-> (i < k)%nat /\ root_of ufm (str_nat i) r) /\
  (forall i r, (i < k)%nat -> root_of ufm (str_nat i) r -> is_Some (od_get cl r)).

Definition group_inv (k : nat) (st : UnionFind string * odict (list nat)) : Prop :=
  uf_wf (n * n) st.1 /\ same_dom ufm st.1 /\ same_roots ufm st.1 /\ clusters_ok k st.2.

Lemma od_append_ok k cl r :
  root_of ufm (str_nat k) r -> clusters_ok k cl -> clusters_ok (S k) (od_append cl r k).
Proof.
  intros Hr (Hnd & Hmem & Hall). unfold od_append.
  split; [by apply od_set_NoDup|]. split.
  - intros r' l' Hin. apply (od_set_elem _ _ _ _ _ Hnd) in Hin as [[-> ->]|[Hne Hin]].
    + destruct (od_get cl r) as [old|] eqn:Hg; simpl.
      * destruct (Hmem r old (od_get_elem _ _ _ Hg)) as (Hne & Hndl & Hel).
        split; [by destruct old|]. split.
        -- apply NoDup_app. split; [done|]. split; [|apply NoDup_singleton].
           intros x Hx Hx'. apply list_elem_of_singleton in Hx'. subst x.
           apply Hel in Hx as [? _]. lia.
        -- intros i. rewrite elem_of_app, list_elem_of_singleton, Hel. split.
           ++ intros [[? ?]| ->]; [split; [lia|done]|split; [lia|done]].
           ++ intros [Hi Hri]. destruct (decide (i = k)) as [->|]; [by right|].
              left. split; [lia|done].
      * split; [done|]. split; [apply NoDup_singleton|].
        intros i. rewrite list_elem_of_singleton. split.
        -- intros ->. split; [lia|done].
        -- intros [Hi Hri]. destruct (decide (i = k)) as [->|]; [done|].
           destruct (Hall i r) as [x Hx]; [lia|done|]. congruence.
    + destruct (Hmem r' l' Hin) as (Hnel & Hndl & Hel).
      split; [done|]. split; [done|]. intros i. rewrite Hel. split.
      * intros [? ?]. split; [lia|done].
      * intros [Hi Hri]. split; [|done].
        destruct (decide (i = k)) as [->|]; [|lia].
        exfalso. apply Hne. by eapply root_of_fun.
  - intros i r' Hi Hri.
    destruct (decide (r' = r)) as [->|Hne].
    + assert (Hin : (r, default [] (od_get cl r) ++ [k])
                    ∈ od_set cl r (default [] (od_get cl r) ++ [k])).
      { apply od_set_elem; [done|]. by left. }
      rewrite (od_elem_get _ _ _ (od_set_NoDup _ _ _ Hnd) Hin). eauto.
    + assert (Hik : i <> k).
      { intros ->. apply Hne. by eapply root_of_fun. }
      destruct (Hall i r') as [l Hl]; [lia|done|].
      assert (Hin : (r', l) ∈ od_set cl r (default [] (od_get cl r) ++ [k])).
      { apply od_set_elem; [done|]. right. split; [done|]. by apply od_get_elem. }
      rewrite (od_elem_get _ _ _ (od_set_NoDup _ _ _ Hnd) Hin). eauto.
Qed.

Lemma group_step_spec k st :
  (k < n)%nat -> group_inv k st ->
  exists st', group_step (find_depth n) k (str_nat k) st = Ok st' /\ group_inv (S k) st'.
Proof.
  intros Hk (Hwf & Hdom & Hroots & Hcl). unfold group_step.
  destruct (find_spec (n * n) st.1 (find_depth n) (str_nat k) Hwf)
    as (r & uf' & -> & Hr & Hwf' & _ & Hdom' & Hroots').
  { apply Hdom, ufm_dom, make_sets_spec, endpoint_ids_elem. eauto. }
  { unfold find_depth. lia. }
  simpl. eexists. split; [reflexivity|]. split; [done|]. split.
  { intros y. etrans; [apply Hdom'|apply Hdom]. }
  split.
  { intros y r'. etrans; [apply Hroots'|apply Hroots]. }
  simpl. apply od_append_ok; [|done]. by apply Hroots.
Qed.

Lemma group_from_spec : forall m k st,
  (k + m = n)%nat -> group_inv k st ->
  exists st', group_from (find_depth n) k (map str_nat (seq k m)) st = Ok st' /\
              group_inv n st'.
Proof.
  induction m as [|m IH]; intros k st Hkm Hinv; simpl.
  - exists st. split; [done|]. by replace n with k by lia.
  - destruct (group_step_spec k st) as (st' & -> & Hinv'); [lia|done|]. simpl.
    apply IH; [lia|done].
Qed.

Lemma group_clusters_spec :
  exists cl, group_clusters (find_depth n) ids ufm = Ok cl /\ clusters_ok n cl.
Proof.
  unfold group_clusters.
  destruct (group_from_spec n 0%nat (ufm, [])) as (st' & Hr & Hinv); [lia| |].
  - split; [done|]. split; [by intros ?|]. split; [by intros ? ?|].
    split; [constructor|]. split.
    + intros r l Hin. by apply elem_of_nil in Hin.
    + intros i r Hi. lia.
  - unfold ids, make_endpoint_ids. rewrite Hr. simpl. exists st'.2.
    split; [done|]. apply Hinv.
Qed.
End Group.

(** ** Clustering: the partition of the endpoint indices *)

(** What [cluster_endpoints] returns, without the forest: the index lists
    partition [0 .. n-1], and two endpoints closer than the snap radius lie
    in the same list. *)
Record clustering (endpoints : list Endpoint) (cl : odict (list nat)) : Prop :=
  mk_clustering {
  cl_keys : NoDup (od_keys cl);
  cl_lists : forall r l, (r, l) ∈ cl ->
      l <> [] /\ NoDup l /\ forall i, i ∈ l -> (i < length endpoints)%nat;
  cl_cover : forall i, (i < length endpoints)%nat ->
      exists r l, (r, l) ∈ cl /\ i ∈ l;
  cl_disjoint : forall i r l r' l',
      (r, l) ∈ cl -> (r', l') ∈ cl -> i ∈ l -> i ∈ l' -> r = r' /\ l = l';
  cl_close : forall a b r l,
      close endpoints a b -> (r, l) ∈ cl -> a ∈ l -> b ∈ l
}.

Lemma cluster_endpoints_spec endpoints :
  exists cl, cluster_endpoints endpoints = Ok cl /\ clustering endpoints cl.
Proof.
  unfold cluster_endpoints.
  destruct (merge_endpoints_spec endpoints) as (ufm & -> & Hwf & Hdom & Hseen).
  simpl.
  destruct (group_clusters_spec endpoints ufm Hwf Hdom) as (cl & -> & Hnd & Hmem & Hall).
  exists cl. split; [done|].
  assert (Hroot : forall i, (i < length endpoints)%nat ->
            exists r, root_of ufm (str_nat i) r).
  { intros i Hi. eapply root_exists; [exact Hwf|].
    apply Hdom, make_sets_spec, endpoint_ids_elem. eauto. }
  assert (Hsame : forall a b, close endpoints a b ->
            same_root ufm (str_nat a) (str_nat b)).
  { intros a b Hc.
    assert (Ha : (a < length endpoints)%nat).
    { destruct Hc as (? & ? & Ha & _). by eapply lookup_lt_Some. }
    assert (Hb : (b < length endpoints)%nat).
    { destruct Hc as (? & ? & _ & Hb & _). by eapply lookup_lt_Some. }
    destruct (lt_eq_lt_dec a b) as [[Hlt| ->]|Hgt].
    - apply Hseen; [lia|done].
    - destruct (Hroot b Hb) as [r Hr]. by exists r.
    - apply same_root_sym, Hseen; [lia|by apply close_sym]. }
  split.
  - done.
  - intros r l Hin. destruct (Hmem r l Hin) as (? & ? & Hel).
    split; [done|]. split; [done|]. intros i Hi. by apply Hel.
  - intros i Hi. destruct (Hroot i Hi) as [r Hr].
    destruct (Hall i r Hi Hr) as [l Hl]. exists r, l.
    split; [by apply od_get_elem|]. apply (Hmem r l); [by apply od_get_elem|done].
  - intros i r l r' l' Hin Hin' Hi Hi'.
    destruct (Hmem r l Hin) as (_ & _ & Hel). destruct (Hmem r' l' Hin') as (_ & _ & Hel').
    apply Hel in Hi as [_ Hr]. apply Hel' in Hi' as [_ Hr'].
    assert (r = r') as <- by (by eapply root_of_fun). split; [done|].
    apply (od_elem_get _ _ _ Hnd) in Hin, Hin'. congruence.
  - intros a b r l Hc Hin Ha.
    destruct (Hmem r l Hin) as (_ & _ & Hel). apply Hel. apply Hel in Ha as [_ Hra].
    split.
    + destruct Hc as (? & ? & _ & Hb & _). by eapply lookup_lt_Some.
    + destruct (Hsame a b Hc) as (r' & Ha' & Hb').
      by rewrite (root_of_fun _ _ _ _ Hra Ha').
Qed.

(** ** Node ids *)

Definition parse_nat (s : string) : option nat :=
  option_map Nat.of_uint (NilEmpty.uint_of_string s).

Lemma parse_str_nat n : parse_nat (str_nat n) = Some n.
Proof.
  unfold parse_nat, str_nat. rewrite NilEmpty.usu. simpl.
  by rewrite Unsigned.of_to.
Qed.

Lemma parse_zero s : parse_nat (String (Ascii.ascii_of_nat 48) s) = parse_nat s.
Proof.
  unfold parse_nat. simpl. by destruct (NilEmpty.uint_of_string s).
Qed.

Lemma parse_fmt_04d n : parse_nat (fmt_04d n) = Some n.
Proof.
  unfold fmt_04d, zero_pad. generalize (4 - String.length (str_nat n))%nat. intros k.
  induction k as [|k IH]; simpl.
  - apply parse_str_nat.
  - by rewrite parse_zero.
Qed.

Lemma make_node_id_inj i j : make_node_id i = make_node_id j -> i = j.
Proof.
  unfold make_node_id. intros Heq. apply str_app_inv_head in Heq.
  assert (Hp : parse_nat (fmt_04d i) = parse_nat (fmt_04d j)) by (by rewrite Heq).
  rewrite !parse_fmt_04d in Hp. by injection Hp.
Qed.

(** ** The endpoints of the segments *)

Definition start_endpoint (s : segment) (p : Point3D) : Endpoint :=
  mk_endpoint (pt_x p) (pt_z p) (seg_id s) true.
Definition end_endpoint (s : segment) (p : Point3D) : Endpoint :=
  mk_endpoint (pt_x p) (pt_z p) (seg_id s) false.

Lemma py_index_first {A} (l : list A) : py_index l 0 = of_option IndexError (head l).
Proof.
  unfold py_index. destruct l as [|a l]; [done|]. simpl length.
  replace ((0 <? 0)%Z) with false by done.
  replace ((0 <=? 0)%Z) with true by done.
  destruct (0 <? Z.of_nat (S (length l)))%Z eqn:E; [done|].
  apply Z.ltb_ge in E. lia.
Qed.

Lemma py_index_last {A} (l : list A) : py_index l (-1) = of_option IndexError (last l).
Proof.
  unfold py_index. replace ((-1 <? 0)%Z) with true by done.
  destruct l as [|a l] using rev_ind; [done|].
  rewrite last_snoc, length_app. simpl length.
  destruct (0 <=? -1 + Z.of_nat (length l + 1))%Z eqn:E1;
    [|apply Z.leb_gt in E1; lia].
  destruct (-1 + Z.of_nat (length l + 1) <? Z.of_nat (length l + 1))%Z eqn:E2;
    [|apply Z.ltb_ge in E2; lia].
  simpl. replace (Z.to_nat (-1 + Z.of_nat (length l + 1))) with (length l) by lia.
  by rewrite list_lookup_middle.
Qed.

Lemma segment_endpoints_spec s :
  match points s with
  | [] => segment_endpoints s = Raise IndexError
  | p0 :: _ =>
      exists pl, last (points s) = Some pl /\
        segment_endpoints s = Ok [start_endpoint s p0; end_endpoint s pl]
  end.
Proof.
  unfold segment_endpoints. rewrite py_index_first, py_index_last.
  destruct (points s) as [|p0 pts] eqn:E; [done|].
  destruct (last (p0 :: pts)) as [pl|] eqn:El.
  - exists pl. by split.
  - by apply last_None in El.
Qed.

(** The endpoint list: positions [2k] and [2k+1] belong to the [k]-th
    segment. *)
Definition endpoints_for (segs : list segment) (eps : list Endpoint) : Prop :=
  length eps = (2 * length segs)%nat /\
  forall k s, segs !! k = Some s ->
    exists p0 pl, head (points s) = Some p0 /\ last (points s) = Some pl /\
      eps !! (2 * k)%nat = Some (start_endpoint s p0) /\
      eps !! (2 * k + 1)%nat = Some (end_endpoint s pl).

Lemma collect_endpoints_Ok segs eps :
  collect_endpoints segs = Ok eps -> endpoints_for segs eps.
Proof.
  unfold collect_endpoints.
  assert (G : forall l acc pre eps,
            endpoints_for pre acc ->
            for_each (fun seg eps => new ← segment_endpoints seg; Ok (eps ++ new)) l acc
              = Ok eps ->
            endpoints_for (pre ++ l) eps).
  { induction l as [|s l IH]; intros acc pre eps0 Hacc Hr; simpl in Hr.
    - injection Hr as <-. by rewrite app_nil_r.
    - inv_bind Hr. inv_bind Ha. injection Ha as <-.
      replace (pre ++ s :: l) with ((pre ++ [s]) ++ l) by (by rewrite <- app_assoc).
      apply (IH (acc ++ a0)); [|done].
      pose proof (segment_endpoints_spec s) as Hs. rewrite Ha0 in Hs.
      destruct (points s) as [|p0 pts] eqn:Ep; [done|].
      destruct Hs as (pl & Hl & [= ->]). destruct Hacc as [Hlen Hacc].
      split; [rewrite !length_app; simpl; lia|].
      intros k s' Hk. destruct (decide (k < length pre)%nat) as [Hlt|Hge].
      + rewrite lookup_app_l in Hk by done.
        destruct (Hacc k s' Hk) as (q0 & ql & ? & ? & H0 & H1).
        exists q0, ql. split; [done|]. split; [done|].
        rewrite !lookup_app_l by lia. done.
      + assert (k = length pre) as ->.
        { apply lookup_lt_Some in Hk. rewrite length_app in Hk. simpl in Hk. lia. }
        rewrite list_lookup_middle in Hk by done. injection Hk as <-.
        exists p0, pl. rewrite Ep. split; [done|]. split; [exact Hl|].
        rewrite !lookup_app_r by lia.
        replace (2 * length pre - length acc)%nat with 0%nat by lia.
        replace (2 * length pre + 1 - length acc)%nat with 1%nat by lia. done. }
  intros Hr. apply (G segs [] [] eps); [|done].
  split; [done|]. intros k s Hk. by rewrite lookup_nil in Hk.
Qed.

Lemma for_each_raise {A St} (body : A -> St -> result St) (e : exn) xs s :
  (forall x t e', body x t = Raise e' -> e' = e) ->
  (exists x, x ∈ xs /\ forall t, body x t = Raise e) ->
  for_each body xs s = Raise e.
Proof.
  intros Honly. revert s. induction xs as [|x xs IH]; intros s (y & Hy & Hbad).
  - by apply elem_of_nil in Hy.
  - simpl. destruct (body x s) as [t|e'] eqn:Hb; simpl.
    + apply IH. exists y. split; [|done].
      apply elem_of_cons in Hy as [->|Hy]; [|done]. by rewrite Hbad in Hb.
    + by rewrite (Honly _ _ _ Hb).
Qed.

Lemma for_each_all_ok {A St} (body : A -> St -> result St) xs s :
  (forall x t, x ∈ xs -> exists t', body x t = Ok t') ->
  exists s', for_each body xs s = Ok s'.
Proof.
  intros Hb. destruct (for_each_total (fun _ => True) body xs s) as (s' & Hs & _);
    [|done|eauto].
  intros x t Hx _. destruct (Hb x t Hx) as [t' Ht']. eauto.
Qed.

Lemma collect_endpoints_total segs :
  (forall s, s ∈ segs -> points s <> []) -> exists eps, collect_endpoints segs = Ok eps.
Proof.
  intros Hne. apply for_each_all_ok. intros s acc Hs. cbv beta.
  pose proof (segment_endpoints_spec s) as Hsp.
  destruct (points s) as [|p0 pts] eqn:Ep; [by destruct (Hne s Hs)|].
  destruct Hsp as (pl & _ & Hsp). rewrite Hsp. simpl. eauto.
Qed.

Lemma collect_endpoints_empty_points segs s :
  s ∈ segs -> points s = [] -> collect_endpoints segs = Raise IndexError.
Proof.
  intros Hs Hp. apply for_each_raise.
  - intros x t e' Hb. cbv beta in Hb. pose proof (segment_endpoints_spec x) as Hsp.
    destruct (points x); [rewrite Hsp in Hb; simpl in Hb; congruence|].
    destruct Hsp as (pl & _ & Hsp). rewrite Hsp in Hb. done.
  - exists s. split; [done|]. intros t. cbv beta.
    pose proof (segment_endpoints_spec s) as Hsp. rewrite Hp in Hsp. by rewrite Hsp.
Qed.

(** ** Building the nodes *)

(** The segment ids that a cluster contributes to [outgoing] ([sel = true])
    or to [incoming] ([sel = false]), in index order. *)
Definition ids_of (sel : bool) (endpoints : list Endpoint) (indices : list nat)
    : list string :=
  omap (fun i => match endpoints !! i with
                 | Some ep => if Bool.eqb (is_start ep) sel
                              then Some (segment_id ep) else None
                 | None => None
                 end) indices.

Definition assign_map (nid : string) (sids : list string) (m : gmap string string)
    : gmap string string :=
  fold_left (fun m sid => <[sid := nid]> m) sids m.

Definition cluster_node (bounds : DataBounds) (endpoints : list Endpoint)
    (idx : nat) (indices : list nat) (cx cz : Q) : RoadNode :=
  mk_node (make_node_id idx) (py_round cx 2, py_round cz 2)
    (ids_of true endpoints indices) (ids_of false endpoints indices)
    (is_near_boundary bounds cx cz).

Fixpoint assign_all (sel : bool) (endpoints : list Endpoint) (idx : nat)
    (cl : odict (list nat)) (m : gmap string string) : gmap string string :=
  match cl with
  | [] => m
  | (_, indices) :: rest =>
      assign_all sel endpoints (S idx) rest
        (assign_map (make_node_id idx) (ids_of sel endpoints indices) m)
  end.

(** The nodes built from the clusters [cl], numbered from [idx]. *)
Definition nodes_for (bounds : DataBounds) (endpoints : list Endpoint) (idx : nat)
    (cl : odict (list nat)) (new : odict RoadNode) : Prop :=
  length new = length cl /\
  forall j r indices, cl !! j = Some (r, indices) ->
    exists cx cz,
      centroid endpoints indices = Ok (cx, cz) /\
      new !! j = Some (make_node_id (idx + j),
                       cluster_node bounds endpoints (idx + j) indices cx cz).

Lemma ids_of_elem sel endpoints indices sid :
  sid ∈ ids_of sel endpoints indices <->
  exists i ep, i ∈ indices /\ endpoints !! i = Some ep /\
    is_start ep = sel /\ segment_id ep = sid.
Proof.
  unfold ids_of. rewrite list_elem_of_omap. split.
  - intros (i & Hi & Hf). destruct (endpoints !! i) as [ep|] eqn:Hep; [|done].
    destruct (Bool.eqb (is_start ep) sel) eqn:Hb; [|done]. injection Hf as <-.
    apply Bool.eqb_prop in Hb. by exists i, ep.
  - intros (i & ep & Hi & Hep & Hs & Hid). exists i. split; [done|].
    rewrite Hep, Hs, Bool.eqb_reflx. by rewrite Hid.
Qed.

Lemma assign_map_lookup nid sids m sid :
  assign_map nid sids m !! sid = if decide (sid ∈ sids) then Some nid else m !! sid.
Proof.
  unfold assign_map. revert m. induction sids as [|x sids IH]; intros m; simpl.
  - destruct (decide (sid ∈ [])) as [Hin|]; [by apply elem_of_nil in Hin|done].
  - rewrite IH. destruct (decide (sid ∈ sids)) as [Hin|Hnin].
    + destruct (decide (sid ∈ x :: sids)) as [|Hn]; [done|].
      exfalso. apply Hn. by right.
    + destruct (decide (sid = x)) as [->|Hne].
      * rewrite lookup_insert_eq.
        destruct (decide (x ∈ x :: sids)) as [|Hn]; [done|].
        exfalso. apply Hn. by left.
      * rewrite lookup_insert_ne by done.
        destruct (decide (sid ∈ x :: sids)) as [Hin|]; [|done].
        apply elem_of_cons in Hin as [?|?]; done.
Qed.

Lemma ids_of_cons sel endpoints i indices :
  ids_of sel endpoints (i :: indices)
  = match endpoints !! i with
    | Some ep => if Bool.eqb (is_start ep) sel
                 then segment_id ep :: ids_of sel endpoints indices
                 else ids_of sel endpoints indices
    | None => ids_of sel endpoints indices
    end.
Proof.
  unfold ids_of. simpl. destruct (endpoints !! i) as [ep|]; [|done].
  by destruct (Bool.eqb (is_start ep) sel).
Qed.

Lemma assign_loop endpoints nid : forall indices node sm em,
  (forall i, i ∈ indices -> (i < length endpoints)%nat) ->
  for_each (assign_endpoint endpoints nid) indices (node, (sm, em))
  = Ok (mk_node (node_id node) (position node)
          (outgoing node ++ ids_of true endpoints indices)
          (incoming node ++ ids_of false endpoints indices) (isBoundary node),
        (assign_map nid (ids_of true endpoints indices) sm,
         assign_map nid (ids_of false endpoints indices) em)).
Proof.
  induction indices as [|i indices IH]; intros node sm em Hin.
  - simpl. rewrite !app_nil_r. by destruct node.
  - destruct (lookup_lt_is_Some_2 endpoints i) as [ep Hep]; [apply Hin; by left|].
    rewrite !ids_of_cons, Hep.
    change (for_each (assign_endpoint endpoints nid) (i :: indices) (node, (sm, em)))
      with (assign_endpoint endpoints nid i (node, (sm, em))
            ≫= for_each (assign_endpoint endpoints nid) indices).
    assert (Hstep : assign_endpoint endpoints nid i (node, (sm, em))
                    = if is_start ep
                      then Ok (mk_node (node_id node) (position node)
                                 (outgoing node ++ [segment_id ep]) (incoming node)
                                 (isBoundary node),
                               (<[segment_id ep := nid]> sm, em))
                      else Ok (mk_node (node_id node) (position node)
                                 (outgoing node) (incoming node ++ [segment_id ep])
                                 (isBoundary node),
                               (sm, <[segment_id ep := nid]> em))).
    { unfold assign_endpoint. by rewrite Hep. }
    rewrite Hstep. destruct (is_start ep); simpl.
    + rewrite IH by (intros j Hj; apply Hin; by right). simpl.
      by rewrite <- app_assoc.
    + rewrite IH by (intros j Hj; apply Hin; by right). simpl.
      by rewrite <- app_assoc.
Qed.

Lemma coords_total endpoints f indices :
  (forall i, i ∈ indices -> (i < length endpoints)%nat) ->
  exists xs, coords endpoints f indices = Ok xs.
Proof.
  intros Hin. apply for_each_all_ok. intros i acc Hi.
  destruct (lookup_lt_is_Some_2 endpoints i) as [ep Hep]; [by apply Hin|].
  rewrite Hep. simpl. eauto.
Qed.

Lemma centroid_total endpoints indices :
  indices <> [] -> (forall i, i ∈ indices -> (i < length endpoints)%nat) ->
  exists cx cz, centroid endpoints indices = Ok (cx, cz).
Proof.
  intros Hne Hin. unfold centroid.
  destruct (coords_total endpoints ep_x indices Hin) as [xs ->].
  destruct (coords_total endpoints ep_z indices Hin) as [zs ->]. simpl.
  destruct indices as [|i indices]; [done|]. simpl length. unfold py_div.
  change (inject_Z (Z.of_nat (S (length indices)))) with (Qnat (S (length indices))).
  rewrite Qnat_S_nonzero. simpl. eauto.
Qed.

Lemma build_node_spec bounds endpoints idx indices nodes sm em :
  indices <> [] -> (forall i, i ∈ indices -> (i < length endpoints)%nat) ->
  exists cx cz,
    centroid endpoints indices = Ok (cx, cz) /\
    build_node bounds endpoints idx indices (nodes, (sm, em))
    = Ok (od_set nodes (make_node_id idx)
            (cluster_node bounds endpoints idx indices cx cz),
          (assign_map (make_node_id idx) (ids_of true endpoints indices) sm,
           assign_map (make_node_id idx) (ids_of false endpoints indices) em)).
Proof.
  intros Hne Hin. destruct (centroid_total endpoints indices Hne Hin) as (cx & cz & Hc).
  exists cx, cz. split; [done|]. unfold build_node. rewrite Hc. simpl.
  by rewrite assign_loop.
Qed.

Lemma build_nodes_from_spec bounds endpoints : forall cl idx nodes sm em,
  (forall r l, (r, l) ∈ cl -> l <> [] /\ forall i, i ∈ l -> (i < length endpoints)%nat) ->
  (forall k, k ∈ od_keys nodes -> exists j, (j < idx)%nat /\ k = make_node_id j) ->
  exists new,
    nodes_for bounds endpoints idx cl new /\
    build_nodes_from bounds endpoints idx cl (nodes, (sm, em))
    = Ok (nodes ++ new,
          (assign_all true endpoints idx cl sm, assign_all false endpoints idx cl em)).
Proof.
  induction cl as [|[r indices] cl IH]; intros idx nodes sm em Hcl Hfresh.
  - exists []. split; [|by rewrite app_nil_r].
    split; [done|]. intros j r l Hj. by destruct j.
  - destruct (Hcl r indices) as [Hne Hin]; [by left|].
    destruct (build_node_spec bounds endpoints idx indices nodes sm em Hne Hin)
      as (cx & cz & Hc & Hb).
    simpl build_nodes_from. rewrite Hb. simpl.
    rewrite od_set_fresh.
    2:{ apply od_get_None_keys. intros Hk. destruct (Hfresh _ Hk) as (j & Hj & Heq).
        apply make_node_id_inj in Heq. lia. }
    destruct (IH (S idx)
                (nodes ++ [(make_node_id idx,
                            cluster_node bounds endpoints idx indices cx cz)])
                (assign_map (make_node_id idx) (ids_of true endpoints indices) sm)
                (assign_map (make_node_id idx) (ids_of false endpoints indices) em))
      as (new & [Hlen Hnew] & ->).
    + intros r' l' Hin'. apply (Hcl r'). by right.
    + intros k Hk. unfold od_keys in Hk. rewrite fmap_app, elem_of_app in Hk.
      destruct Hk as [Hk|Hk].
      * destruct (Hfresh k Hk) as (j & ? & ?). exists j. split; [lia|done].
      * apply list_elem_of_singleton in Hk. exists idx. split; [lia|done].
    + eexists. split; [|by rewrite <- app_assoc].
      split; [simpl; by rewrite Hlen|].
      intros [|j] r' l' Hj; simpl in Hj.
      * injection Hj as <- <-. exists cx, cz. rewrite Nat.add_0_r. by split.
      * destruct (Hnew j r' l' Hj) as (cx' & cz' & ? & ?).
        exists cx', cz'. replace (idx + S j)%nat with (S idx + j)%nat by lia.
        by split.
Qed.

Lemma bind_Ok_l {A B} (a : A) (f : A -> result B) : (Ok a ≫= f) = f a.
Proof. reflexivity. Qed.

Lemma build_node_set_spec bounds segs eps :
  collect_endpoints segs = Ok eps ->
  exists cl nodes,
    cluster_endpoints eps = Ok cl /\ clustering eps cl /\
    nodes_for bounds eps 0 cl nodes /\
    build_node_set bounds segs
    = Ok (nodes, (assign_all true eps 0 cl ∅, assign_all false eps 0 cl ∅)).
Proof.
  intros Heps.
  destruct (cluster_endpoints_spec eps) as (cl & Hcl & Hc).
  destruct (build_nodes_from_spec bounds eps cl 0 [] ∅ ∅) as (new & Hnew & Hb).
  - intros r l Hin. destruct (cl_lists _ _ Hc r l Hin) as (? & _ & ?). by split.
  - intros k Hk. by apply elem_of_nil in Hk.
  - exists cl, new. split; [done|]. split; [done|]. split; [done|].
    unfold build_node_set. rewrite Heps, bind_Ok_l. cbv beta.
    rewrite Hcl, bind_Ok_l. cbv beta. exact Hb.
Qed.

Lemma build_node_set_total bounds segs :
  (forall s, s ∈ segs -> points s <> []) ->
  exists nodes sm em, build_node_set bounds segs = Ok (nodes, (sm, em)).
Proof.
  intros Hne. destruct (collect_endpoints_total segs Hne) as [eps Heps].
  destruct (build_node_set_spec bounds segs eps Heps) as (cl & nodes & _ & _ & _ & ->).
  eauto.
Qed.

(** ** C2: chains of close endpoints share a node *)







(** ** C9: every segment hangs on exactly one start node and one end node *)

Lemma endpoint_at segs eps i ep :
  endpoints_for segs eps -> eps !! i = Some ep ->
  exists k s, segs !! k = Some s /\ segment_id ep = seg_id s /\
    ((i = 2 * k /\ is_start ep = true) \/ (i = 2 * k + 1 /\ is_start ep = false))%nat.
Proof.
  intros [Hlen Hat] Hep.
  assert (Hi : (i < 2 * length segs)%nat) by (rewrite <- Hlen; by eapply lookup_lt_Some).
  destruct (lookup_lt_is_Some_2 segs (i / 2)) as [s Hs].
  { apply Nat.Div0.div_lt_upper_bound. lia. }
  destruct (Hat _ _ Hs) as (p0 & pl & _ & _ & H0 & H1).
  exists (i / 2)%nat, s. split; [done|].
  pose proof (Nat.div_mod_eq i 2) as Hdm.
  assert (Hmod : (i mod 2 < 2)%nat) by (apply Nat.mod_upper_bound; lia).
  destruct (i mod 2)%nat as [|[|m]] eqn:Em; [| |lia].
  - replace (2 * (i / 2))%nat with i in H0 by lia.
    rewrite Hep in H0. injection H0 as ->. split; [done|]. left. split; [lia|done].
  - replace (2 * (i / 2) + 1)%nat with i in H1 by lia.
    rewrite Hep in H1. injection H1 as ->. split; [done|]. right. split; [lia|done].
Qed.

Lemma endpoint_index_unique segs eps i i' ep ep' :
  endpoints_for segs eps -> NoDup (map seg_id segs) ->
  eps !! i = Some ep -> eps !! i' = Some ep' ->
  is_start ep = is_start ep' -> segment_id ep = segment_id ep' -> i = i'.
Proof.
  intros Hfor Hnd Hep Hep' Hs Hid.
  destruct (endpoint_at _ _ _ _ Hfor Hep) as (k & s & Hk & Hids & Hpos).
  destruct (endpoint_at _ _ _ _ Hfor Hep') as (k' & s' & Hk' & Hids' & Hpos').
  assert (k = k').
  { apply (NoDup_lookup _ _ _ (seg_id s) Hnd).
    - by rewrite list_lookup_fmap, Hk.
    - rewrite list_lookup_fmap, Hk'. simpl. congruence. }
  subst k'. destruct Hpos as [[-> H1]|[-> H1]], Hpos' as [[-> H2]|[-> H2]];
    congruence.
Qed.

Lemma ids_of_NoDup sel segs eps indices :
  endpoints_for segs eps -> NoDup (map seg_id segs) ->
  NoDup indices -> NoDup (ids_of sel eps indices).
Proof.
  intros Hfor Hnd. induction indices as [|i indices IH]; intros Hl.
  - constructor.
  - apply NoDup_cons in Hl as [Hnin Hl]. rewrite ids_of_cons.
    destruct (eps !! i) as [ep|] eqn:Hep; [|by apply IH].
    destruct (Bool.eqb (is_start ep) sel) eqn:Hb; [|by apply IH].
    apply Bool.eqb_prop in Hb. apply NoDup_cons. split; [|by apply IH].
    intros Hin. apply ids_of_elem in Hin as (i' & ep' & Hi' & Hep' & Hs' & Hid').
    assert (i = i'); [|by subst].
    eapply endpoint_index_unique; eauto; congruence.
Qed.

Lemma assign_all_sound sel eps : forall cl idx m sid nid,
  assign_all sel eps idx cl m !! sid = Some nid ->
  m !! sid = Some nid \/
  exists j r l, cl !! j = Some (r, l) /\ nid = make_node_id (idx + j) /\
    sid ∈ ids_of sel eps l.
Proof.
  induction cl as [|[r l] cl IH]; intros idx m sid nid Hl; simpl in Hl.
  - by left.
  - apply IH in Hl as [Hl|(j & r' & l' & Hj & -> & Hin)].
    + rewrite assign_map_lookup in Hl.
      destruct (decide (sid ∈ ids_of sel eps l)) as [Hin|]; [|by left].
      injection Hl as <-. right. exists 0%nat, r, l.
      rewrite Nat.add_0_r. by repeat split.
    + right. exists (S j), r', l'. split; [done|]. split; [f_equal; lia|done].
Qed.

Lemma assign_all_complete sel eps : forall cl idx m sid,
  (is_Some (m !! sid) \/
   exists j r l, cl !! j = Some (r, l) /\ sid ∈ ids_of sel eps l) ->
  is_Some (assign_all sel eps idx cl m !! sid).
Proof.
  induction cl as [|[r l] cl IH]; intros idx m sid Hs; simpl.
  - destruct Hs as [?|(j & ? & ? & Hj & _)]; [done|by destruct j].
  - apply IH. destruct Hs as [Hm|(j & r' & l' & Hj & Hin)].
    + left. rewrite assign_map_lookup. by destruct (decide _).
    + destruct j as [|j]; simpl in Hj.
      * injection Hj as <- <-. left. rewrite assign_map_lookup.
        destruct (decide (sid ∈ ids_of sel eps l)); [eauto|done].
      * right. by exists j, r', l'.
Qed.

Lemma od_keys_lookup {V} (d : odict V) j k v :
  d !! j = Some (k, v) -> od_keys d !! j = Some k.
Proof.
  intros Hj. unfold od_keys. rewrite list_lookup_fmap.
  trans (fst <$> Some (k, v)); [f_equal; exact Hj|done].
Qed.

Lemma nodes_for_keys bounds eps cl nodes :
  nodes_for bounds eps 0 cl nodes ->
  od_keys nodes = map make_node_id (seq 0 (length cl)).
Proof.
  intros [Hlen Hnodes]. apply list_eq. intros j. unfold od_keys.
  rewrite !list_lookup_fmap.
  destruct (decide (j < length cl)%nat) as [Hlt|Hge].
  - destruct (lookup_lt_is_Some_2 cl j Hlt) as [[r l] Hj].
    destruct (Hnodes j r l Hj) as (cx & cz & _ & Hn).
    rewrite lookup_seq_lt by done.
    trans (fst <$> Some (make_node_id (0 + j),
                         cluster_node bounds eps (0 + j) l cx cz));
      [f_equal; exact Hn|done].
  - rewrite lookup_ge_None_2 by lia. by rewrite lookup_seq_ge by lia.
Qed.

Lemma nodes_for_NoDup bounds eps cl nodes :
  nodes_for bounds eps 0 cl nodes -> NoDup (od_keys nodes).
Proof.
  intros Hn. rewrite (nodes_for_keys _ _ _ _ Hn).
  apply NoDup_fmap_2_strong; [|apply NoDup_seq].
  intros x y _ _. apply make_node_id_inj.
Qed.

Lemma nodes_for_elem bounds eps cl nodes nid node :
  nodes_for bounds eps 0 cl nodes -> (nid, node) ∈ nodes ->
  exists j r l cx cz,
    cl !! j = Some (r, l) /\ centroid eps l = Ok (cx, cz) /\
    nid = make_node_id j /\ node = cluster_node bounds eps j l cx cz.
Proof.
  intros [Hlen Hnodes] Hin. apply list_elem_of_lookup in Hin as [j Hj].
  destruct (lookup_lt_is_Some_2 cl j) as [[r l] Hcl].
  { rewrite <- Hlen. by eapply lookup_lt_Some. }
  destruct (Hnodes j r l Hcl) as (cx & cz & Hc & Hn). simpl in Hn.
  assert (Heq : Some (nid, node)
                = Some (make_node_id j, cluster_node bounds eps j l cx cz))
    by (rewrite <- Hj; exact Hn).
  injection Heq as -> ->. by exists j, r, l, cx, cz.
Qed.

Lemma cluster_position_unique eps cl j j' r l r' l' i :
  clustering eps cl -> cl !! j = Some (r, l) -> cl !! j' = Some (r', l') ->
  i ∈ l -> i ∈ l' -> j = j'.
Proof.
  intros Hc Hj Hj' Hi Hi'.
  destruct (cl_disjoint _ _ Hc i r l r' l') as [<- <-];
    [by eapply list_elem_of_lookup_2..|done|done|].
  apply (NoDup_lookup _ _ _ r (cl_keys _ _ Hc));
    [exact (od_keys_lookup cl j r l Hj)|exact (od_keys_lookup cl j' r l Hj')].
Qed.

(** One side of C9: [sel = true] is the start side ([outgoing],
    [start_node_map]), [sel = false] the end side. *)
Lemma segment_side_unique bounds segs eps cl nodes (sel : bool) k s :
  endpoints_for segs eps -> NoDup (map seg_id segs) ->
  clustering eps cl -> nodes_for bounds eps 0 cl nodes ->
  segs !! k = Some s ->
  let side := fun node : RoadNode => if sel then outgoing node else incoming node in
  exists nid node,
    assign_all sel eps 0 cl ∅ !! seg_id s = Some nid /\
    od_get nodes nid = Some node /\ seg_id s ∈ side node /\
    forall nid' node', (nid', node') ∈ nodes -> seg_id s ∈ side node' -> nid' = nid.
Proof.
  intros Hfor Hnd Hc Hn Hk side.
  set (i := (if sel then 2 * k else 2 * k + 1)%nat).
  destruct (proj2 Hfor k s Hk) as (p0 & pl & _ & _ & H0 & H1).
  assert (Hep : exists ep, eps !! i = Some ep /\ is_start ep = sel /\
                  segment_id ep = seg_id s).
  { unfold i. destruct sel; eexists; (split; [eassumption|by split]). }
  destruct Hep as (ep & Hep & Hsel & Hid).
  assert (Hside : forall j l cx cz,
            side (cluster_node bounds eps j l cx cz) = ids_of sel eps l).
  { intros. unfold side. by destruct sel. }
  assert (Hin_iff : forall l, seg_id s ∈ ids_of sel eps l -> i ∈ l).
  { intros l Hin. apply ids_of_elem in Hin as (i' & ep' & Hi' & Hep' & Hs' & Hid').
    assert (i = i'); [|by subst].
    eapply endpoint_index_unique; eauto; congruence. }
  destruct (cl_cover _ _ Hc i) as (r & l & Hin & Hil); [by eapply lookup_lt_Some|].
  apply list_elem_of_lookup in Hin as [j Hj].
  destruct (proj2 Hn j r l Hj) as (cx & cz & _ & Hnode). simpl in Hnode.
  assert (Hsid : seg_id s ∈ ids_of sel eps l).
  { apply ids_of_elem. by exists i, ep. }
  destruct (assign_all_complete sel eps cl 0 ∅ (seg_id s)) as [nid Hnid].
  { right. by exists j, r, l. }
  assert (nid = make_node_id j) as ->.
  { apply assign_all_sound in Hnid as [Hnid|(j' & r' & l' & Hj' & -> & Hin')].
    - by rewrite lookup_empty in Hnid.
    - simpl. f_equal. symmetry.
      eapply (cluster_position_unique eps cl j j'); eauto. }
  exists (make_node_id j), (cluster_node bounds eps j l cx cz).
  split; [done|]. split.
  { apply od_elem_get; [by eapply nodes_for_NoDup|]. by eapply list_elem_of_lookup_2. }
  split; [by rewrite Hside|].
  intros nid' node' Hin' Hs'.
  destruct (nodes_for_elem _ _ _ _ _ _ Hn Hin') as (j' & r' & l' & cx' & cz' & Hj' & _ & -> & ->).
  rewrite Hside in Hs'. f_equal. symmetry.
  eapply (cluster_position_unique eps cl j j'); eauto.
Qed.

(** C9. With unique segment ids, after [build_node_set]: node ids are
    distinct; no id occurs twice in an [outgoing] or [incoming] list; every
    segment's id is in the [outgoing] list of exactly one node, which is the
    node [start_node_map] names, and in the [incoming] list of exactly one
    node, which is the node [end_node_map] names. *)
Theorem segment_in_exactly_one_node bounds segs nodes sm em :
  NoDup (map seg_id segs) ->
  build_node_set bounds segs = Ok (nodes, (sm, em)) ->
  NoDup (od_keys nodes) /\
  (forall nid node, (nid, node) ∈ nodes ->
     node_id node = nid /\ NoDup (outgoing node) /\ NoDup (incoming node)) /\
  (forall s, s ∈ segs ->
     (exists nid node,
        sm !! seg_id s = Some nid /\ od_get nodes nid = Some node /\
        seg_id s ∈ outgoing node /\
        forall nid' node', (nid', node') ∈ nodes -> seg_id s ∈ outgoing node' ->
          nid' = nid) /\
     (exists nid node,
        em !! seg_id s = Some nid /\ od_get nodes nid = Some node /\
        seg_id s ∈ incoming node /\
        forall nid' node', (nid', node') ∈ nodes -> seg_id s ∈ incoming node' ->
          nid' = nid)).
Proof.
  intros Hnd Hb.
  assert (Heps : exists eps, collect_endpoints segs = Ok eps).
  { unfold build_node_set in Hb. destruct (collect_endpoints segs); [eauto|done]. }
  destruct Heps as [eps Heps].
  pose proof (collect_endpoints_Ok _ _ Heps) as Hfor.
  destruct (build_node_set_spec bounds segs eps Heps) as (cl & nodes' & _ & Hc & Hn & Hb').
  rewrite Hb in Hb'. injection Hb' as -> -> ->.
  split; [by eapply nodes_for_NoDup|]. split.
  - intros nid node Hin.
    destruct (nodes_for_elem _ _ _ _ _ _ Hn Hin) as (j & r & l & cx & cz & Hj & _ & -> & ->).
    split; [done|].
    destruct (cl_lists _ _ Hc r l) as (_ & Hndl & _); [by eapply list_elem_of_lookup_2|].
    split; by eapply ids_of_NoDup.
  - intros s Hs. apply list_elem_of_lookup in Hs as [k Hk]. split.
    + exact (segment_side_unique bounds segs eps cl nodes' true k s Hfor Hnd Hc Hn Hk).
    + exact (segment_side_unique bounds segs eps cl nodes' false k s Hfor Hnd Hc Hn Hk).
Qed.

Lemma segment_in_exactly_one_node_witness :
  NoDup (map seg_id demo_segments) /\
  NoDup (od_keys demo_nodes) /\
  exists nid node,
    demo_start_map !! "c61" = Some nid /\ od_get demo_nodes nid = Some node /\
    "c61" ∈ outgoing node /\
    forall nid' node', (nid', node') ∈ demo_nodes -> "c61" ∈ outgoing node' -> nid' = nid.
Proof.
  assert (Hnd : NoDup (map seg_id demo_segments))
    by (apply (bool_decide_unpack _); vm_compute; reflexivity).
  destruct (segment_in_exactly_one_node demo_bounds demo_segments demo_nodes
              demo_start_map demo_end_map Hnd demo_node_set_run) as (Hk & _ & Hs).
  split; [exact Hnd|]. split; [exact Hk|].
  destruct (Hs demo_c61) as [Hout _]; [|exact Hout].
  apply list_elem_of_lookup. by exists 2%nat.
Defined.

(** ** C8: the boundary flag of a node *)

Lemma fold_min_le xs : forall x y, y ∈ x :: xs -> fold_left py_min xs x <= y.
Proof.
  induction xs as [|a xs IH]; intros x y Hy; simpl.
  - apply list_elem_of_singleton in Hy as ->. apply Qle_refl.
  - assert (Hm : py_min x a <= x /\ py_min x a <= a).
    { unfold py_min. destruct (Qltb a x) eqn:E.
      - apply Qltb_lt in E. split; [by apply Qlt_le_weak|apply Qle_refl].
      - apply Qltb_false in E. split; [apply Qle_refl|done]. }
    destruct Hm as [Hx Ha].
    apply elem_of_cons in Hy as [->|Hy].
    + eapply Qle_trans; [|exact Hx]. apply IH. by left.
    + apply elem_of_cons in Hy as [->|Hy].
      * eapply Qle_trans; [|exact Ha]. apply IH. by left.
      * apply IH. by right.
Qed.

Lemma fold_max_ge xs : forall x y, y ∈ x :: xs -> y <= fold_left py_max xs x.
Proof.
  induction xs as [|a xs IH]; intros x y Hy; simpl.
  - apply list_elem_of_singleton in Hy as ->. apply Qle_refl.
  - assert (Hm : x <= py_max x a /\ a <= py_max x a).
    { unfold py_max. destruct (Qltb x a) eqn:E.
      - apply Qltb_lt in E. split; [by apply Qlt_le_weak|apply Qle_refl].
      - apply Qltb_false in E. split; [apply Qle_refl|done]. }
    destruct Hm as [Hx Ha].
    apply elem_of_cons in Hy as [->|Hy].
    + eapply Qle_trans; [exact Hx|]. apply IH. by left.
    + apply elem_of_cons in Hy as [->|Hy].
      * eapply Qle_trans; [exact Ha|]. apply IH. by left.
      * apply IH. by right.
Qed.

Lemma min_list_le xs m y : min_list xs = Ok m -> y ∈ xs -> m <= y.
Proof.
  destruct xs as [|x xs]; [done|]. intros [= <-]. apply fold_min_le.
Qed.

Lemma max_list_ge xs m y : max_list xs = Ok m -> y ∈ xs -> y <= m.
Proof.
  destruct xs as [|x xs]; [done|]. intros [= <-]. apply fold_max_ge.
Qed.

Lemma elem_of_all_coords (f : Point3D -> Q) segs s p :
  s ∈ segs -> p ∈ points s ->
  f p ∈ concat (map (fun seg => map f (points seg)) segs).
Proof.
  intros Hs Hp. induction segs as [|s' segs IH]; [by apply elem_of_nil in Hs|].
  simpl. apply elem_of_app. apply elem_of_cons in Hs as [<-|Hs].
  - left. apply list_elem_of_fmap. by exists p.
  - right. by apply IH.
Qed.

(** The extent is the bounding rectangle of every point of every segment. *)
Lemma compute_data_bounds_spec segs b :
  compute_data_bounds segs = Ok b ->
  forall s p, s ∈ segs -> p ∈ points s ->
    xMin b <= pt_x p /\ pt_x p <= xMax b /\ zMin b <= pt_z p /\ pt_z p <= zMax b.
Proof.
  unfold compute_data_bounds. cbv zeta. intros Hb s p Hs Hp.
  inv_bind Hb. rename a into x0, Ha into Hx0.
  inv_bind Hb. rename a into x1, Ha into Hx1.
  inv_bind Hb. rename a into z0, Ha into Hz0.
  inv_bind Hb. rename a into z1, Ha into Hz1.
  injection Hb as <-. simpl.
  pose proof (elem_of_all_coords pt_x segs s p Hs Hp) as Hx.
  pose proof (elem_of_all_coords pt_z segs s p Hs Hp) as Hz.
  split; [exact (min_list_le _ _ _ Hx0 Hx)|].
  split; [exact (max_list_ge _ _ _ Hx1 Hx)|].
  split; [exact (min_list_le _ _ _ Hz0 Hz)|exact (max_list_ge _ _ _ Hz1 Hz)].
Qed.


Section MainFacts.
Variable atan2_deg : Q -> Q -> Q.
Variable sqrt : Q -> Q.

End MainFacts.

(** Two inputs with the same extent.  In the first the start of [p] is at
    x = 49.999, in the second at x = 50; both nodes are stored at (50, 500). *)
Definition edge_inside : list segment :=
  [ raw_segment "e" [(0, 0, 0); (1000, 0, 1000)] 10 20 [1 # 10];
    raw_segment "p" [(49999 # 1000, 0, 500); (500, 0, 500)] 10 20 [1 # 10] ].

Definition edge_on_buffer : list segment :=
  [ raw_segment "e" [(0, 0, 0); (1000, 0, 1000)] 10 20 [1 # 10];
    raw_segment "p" [(50, 0, 500); (500, 0, 500)] 10 20 [1 # 10] ].

Definition edge_bounds : DataBounds := mk_bounds 0 1000 0 1000.

Example edge_inside_run :
  compute_data_bounds edge_inside = Ok edge_bounds /\
  (fun r => match r with Ok out => out_nodes out | Raise _ => [] end)
    (augment_main demo_atan2 demo_sqrt edge_inside)
  = [ mk_node "node_0000" (0, 0) ["e"] [] true;
      mk_node "node_0001" (1000, 1000) [] ["e"] true;
      mk_node "node_0002" (50, 500) ["p"] [] true;
      mk_node "node_0003" (500, 500) [] ["p"] false ].
Proof. split; vm_compute; reflexivity. Qed.

Example edge_on_buffer_run :
  compute_data_bounds edge_on_buffer = Ok edge_bounds /\
  (fun r => match r with Ok out => out_nodes out | Raise _ => [] end)
    (augment_main demo_atan2 demo_sqrt edge_on_buffer)
  = [ mk_node "node_0000" (0, 0) ["e"] [] true;
      mk_node "node_0001" (1000, 1000) [] ["e"] true;
      mk_node "node_0002" (50, 500) ["p"] [] false;
      mk_node "node_0003" (500, 500) [] ["p"] false ].
Proof. split; vm_compute; reflexivity. Qed.




(** ** C4: a segment with fewer than two points *)

Lemma py_index_raise {A} (l : list A) i e : py_index l i = Raise e -> e = IndexError.
Proof.
  unfold py_index. cbv zeta.
  destruct ((0 <=? _) && _)%Z; [|congruence].
  destruct (l !! _); simpl; congruence.
Qed.

Lemma map_result_raise {A B} (f : A -> result B) (e : exn) l :
  (forall x e', f x = Raise e' -> e' = e) ->
  (exists x, x ∈ l /\ f x = Raise e) ->
  map_result f l = Raise e.
Proof.
  intros Honly. induction l as [|a l IH]; intros (x & Hx & Hbad).
  - by apply elem_of_nil in Hx.
  - simpl. destruct (f a) as [b|e'] eqn:Ha; simpl.
    + rewrite IH; [done|]. exists x. split; [|done].
      apply elem_of_cons in Hx as [->|Hx]; [congruence|done].
    + by rewrite (Honly _ _ Ha).
Qed.

Lemma all_coords_nil (f : Point3D -> Q) segs :
  Forall (fun t => length (points t) = 0%nat) segs ->
  concat (map (fun seg => map f (points seg)) segs) = [].
Proof.
  induction 1 as [|t segs Ht _ IH]; [done|]. simpl. rewrite IH.
  by destruct (points t).
Qed.

Lemma min_list_total xs y : y ∈ xs -> exists m, min_list xs = Ok m.
Proof. destruct xs; [intros H; by apply elem_of_nil in H|simpl; eauto]. Qed.

Lemma max_list_total xs y : y ∈ xs -> exists m, max_list xs = Ok m.
Proof. destruct xs; [intros H; by apply elem_of_nil in H|simpl; eauto]. Qed.

Lemma compute_data_bounds_total segs t p :
  t ∈ segs -> p ∈ points t -> exists b, compute_data_bounds segs = Ok b.
Proof.
  intros Ht Hp. unfold compute_data_bounds. cbv zeta.
  pose proof (elem_of_all_coords pt_x segs t p Ht Hp) as Hx.
  pose proof (elem_of_all_coords pt_z segs t p Ht Hp) as Hz.
  destruct (min_list_total _ _ Hx) as [x0 ->].
  destruct (max_list_total _ _ Hx) as [x1 ->].
  destruct (min_list_total _ _ Hz) as [z0 ->].
  destruct (max_list_total _ _ Hz) as [z1 ->].
  simpl. eauto.
Qed.

Section ShortSegments.
Variable atan2_deg : Q -> Q -> Q.
Variable sqrt : Q -> Q.

Lemma heading_step_raise seg e :
  heading_step atan2_deg seg = Raise e -> e = IndexError.
Proof.
  unfold heading_step. intros Hs.
  destruct (py_index (points seg) 0) eqn:E0; simpl in Hs;
    [|injection Hs as <-; by eapply py_index_raise].
  destruct (py_index (points seg) 1) eqn:E1; simpl in Hs;
    [|injection Hs as <-; by eapply py_index_raise].
  destruct (py_index (points seg) (-2)) eqn:E2; simpl in Hs;
    [|injection Hs as <-; by eapply py_index_raise].
  destruct (py_index (points seg) (-1)) eqn:E3; simpl in Hs;
    [done|injection Hs as <-; by eapply py_index_raise].
Qed.

(** [pts[1]] does not exist when the segment has a single point. *)
Lemma heading_step_one_point seg p :
  points seg = [p] -> heading_step atan2_deg seg = Raise IndexError.
Proof. intros Hp. unfold heading_step. rewrite Hp. reflexivity. Qed.

Lemma build_adjacency_one_point segs nodes sm em s p :
  s ∈ segs -> points s = [p] ->
  build_adjacency atan2_deg segs nodes sm em = Raise IndexError.
Proof.
  intros Hs Hp. unfold build_adjacency. cbv zeta.
  rewrite (map_result_raise (heading_step atan2_deg) IndexError segs); [done| |].
  - intros x e'. apply heading_step_raise.
  - exists s. split; [done|]. by eapply heading_step_one_point.
Qed.
End ShortSegments.

(** What the specification describes: the records with fewer than two points
    removed from the input. *)
Definition spec_drop_degenerate (segments : list segment) : list segment :=
  filter (fun s => (2 <= length (points s))%nat) segments.

(** A record with a single point, far from every other endpoint. *)
Definition demo_dot : segment :=
  raw_segment "dot" [(1000, 0, -200)] 12 30 [5 # 100].

(** C4, as the specification has it, fails.  With the one-point record
    [demo_dot] in the input, [build_node_set] gives it two endpoints and a
    node of its own, and [main] then stops with [IndexError] in the heading
    pass; with the record removed from the input, [main] completes. *)
Lemma degenerate_segment_is_fatal :
  augment_main demo_atan2 demo_sqrt (demo_segments ++ [demo_dot]) = Raise IndexError /\
  spec_drop_degenerate (demo_segments ++ [demo_dot]) = demo_segments /\
  (exists out, augment_main demo_atan2 demo_sqrt demo_segments = Ok out) /\
  collect_endpoints [demo_dot]
  = Ok [ mk_endpoint 1000 (-200) "dot" true; mk_endpoint 1000 (-200) "dot" false ] /\
  exists nodes maps,
    build_node_set demo_bounds (demo_segments ++ [demo_dot]) = Ok (nodes, maps) /\
    od_get nodes "node_0004"
    = Some (mk_node "node_0004" (1000, -200) ["dot"] ["dot"] false).
Proof.
  split; [by vm_compute|]. split; [by vm_compute|].
  split; [eexists; vm_compute; reflexivity|]. split; [by vm_compute|].
  eexists _, _. split; vm_compute; reflexivity.
Qed.

(** C4, amended.  A record with fewer than two points is not dropped: it
    stops [main] with an exception and nothing is produced.  The exception
    is [ValueError] when no record has any point (the extent of no points is
    undefined), and [IndexError] otherwise (from [pts[0]] in
    [build_node_set] when some record has no point, else from [pts[1]] in
    the heading pass of [build_adjacency]). *)
Theorem short_segment_aborts atan2_deg sqrt segs s :
  s ∈ segs -> (length (points s) < 2)%nat ->
  exists e,
    augment_main atan2_deg sqrt segs = Raise e /\
    ((forall t, t ∈ segs -> points t = []) -> e = ValueError) /\
    ((exists t, t ∈ segs /\ points t <> []) -> e = IndexError).
Proof.
  intros Hs Hlen.
  destruct (decide (Forall (fun t => length (points t) = 0%nat) segs)) as [Hall|Hsome].
  - exists ValueError. split; [|split; [done|]].
    + unfold augment_main, compute_data_bounds. cbv zeta.
      by rewrite (all_coords_nil pt_x segs Hall).
    + intros (t & Ht & Hne). rewrite Forall_forall in Hall.
      specialize (Hall t Ht). by destruct (points t).
  - apply not_Forall_Exists in Hsome; [|apply _].
    apply Exists_exists in Hsome as (t & Ht & Hne).
    assert (Hp : exists p, p ∈ points t).
    { unfold compose in Hne. cbv beta in Hne. destruct (points t) as [|p pts]; [by destruct Hne|].
      exists p. by left. }
    destruct Hp as [p Hp].
    exists IndexError. split; [|split; [|done]].
    2:{ intros Hnil. rewrite (Hnil t Ht) in Hp. by apply elem_of_nil in Hp. }
    destruct (compute_data_bounds_total segs t p Ht Hp) as [b Hb].
    unfold augment_main. rewrite Hb. simpl.
    destruct (decide (Exists (fun u => length (points u) = 0%nat) segs)) as [Hex|Hnex].
    + apply Exists_exists in Hex as (u & Hu & Hu0).
      unfold build_node_set.
      rewrite (collect_endpoints_empty_points segs u Hu); [done|].
      by destruct (points u).
    + assert (Hfull : forall u, u ∈ segs -> points u <> []).
      { intros u Hu Hnil. apply Hnex. apply Exists_exists. exists u.
        split; [done|]. by rewrite Hnil. }
      destruct (build_node_set_total b segs Hfull) as (nodes & sm & em & ->). simpl.
      assert (Hone : exists q, points s = [q]).
      { pose proof (Hfull s Hs) as Hne'.
        destruct (points s) as [|q [|q' pts]]; [done|eauto|simpl in Hlen; lia]. }
      destruct Hone as [q Hq].
      by rewrite (build_adjacency_one_point atan2_deg segs nodes sm em s q Hs Hq).
Qed.

Lemma short_segment_aborts_witness :
  augment_main demo_atan2 demo_sqrt (demo_segments ++ [demo_dot]) = Raise IndexError.
Proof.
  destruct (short_segment_aborts demo_atan2 demo_sqrt (demo_segments ++ [demo_dot])
              demo_dot) as (e & -> & _ & He).
  - apply list_elem_of_lookup. by exists 4%nat.
  - simpl. lia.
  - f_equal. apply He. exists demo_dot. split; [|done].
    apply list_elem_of_lookup. by exists 4%nat.
Defined.

(** * Further properties of the two scripts *)

(** ** Loops that cannot fail *)

Lemma for_each_prefix_total {A St} (P : list A -> St -> Prop)
    (body : A -> St -> result St) xs s :
  P [] s ->
  (forall pre x post t, xs = pre ++ x :: post -> P pre t ->
     exists t', body x t = Ok t' /\ P (pre ++ [x]) t') ->
  exists s', for_each body xs s = Ok s' /\ P xs s'.
Proof.
  intros H0 Hstep.
  assert (G : forall post pre t, xs = pre ++ post -> P pre t ->
                exists s', for_each body post t = Ok s' /\ P xs s').
  { induction post as [|x post IH]; intros pre t Hxs Hp; simpl.
    - exists t. split; [done|]. by rewrite Hxs, app_nil_r.
    - destruct (Hstep pre x post t Hxs Hp) as (t' & -> & Ht'). simpl.
      apply (IH (pre ++ [x])); [|done]. by rewrite <- app_assoc. }
  by apply (G xs []).
Qed.

Lemma map_result_total {A B} (f : A -> result B) l :
  (forall x, x ∈ l -> exists y, f x = Ok y) -> exists l', map_result f l = Ok l'.
Proof.
  induction l as [|a l IH]; intros Hf; simpl; [eauto|].
  destruct (Hf a) as [b ->]; [by left|]. simpl.
  destruct IH as [l' ->]; [|simpl; eauto]. intros x Hx. apply Hf. by right.
Qed.



Lemma map_result_length {A B} (f : A -> result B) l l' :
  map_result f l = Ok l' -> length l' = length l.
Proof. intros Hr. apply map_result_Ok in Hr. symmetry. by eapply Forall2_length. Qed.

(** ** Python indexing *)

Lemma py_index_total {A} (l : list A) i :
  (- Z.of_nat (length l) <= i < Z.of_nat (length l))%Z ->
  exists a, py_index l i = Ok a.
Proof.
  intros Hi. unfold py_index. cbv zeta.
  destruct (i <? 0)%Z eqn:Hneg.
  - apply Z.ltb_lt in Hneg.
    destruct (0 <=? i + Z.of_nat (length l))%Z eqn:E1; [|apply Z.leb_gt in E1; lia].
    destruct (i + Z.of_nat (length l) <? Z.of_nat (length l))%Z eqn:E2;
      [|apply Z.ltb_ge in E2; lia].
    simpl. destruct (lookup_lt_is_Some_2 l (Z.to_nat (i + Z.of_nat (length l)))) as [a ->];
      [lia|]. simpl. eauto.
  - apply Z.ltb_ge in Hneg.
    destruct (0 <=? i)%Z eqn:E1; [|apply Z.leb_gt in E1; lia].
    destruct (i <? Z.of_nat (length l))%Z eqn:E2; [|apply Z.ltb_ge in E2; lia].
    simpl. destruct (lookup_lt_is_Some_2 l (Z.to_nat i)) as [a ->]; [lia|].
    simpl. eauto.
Qed.

Lemma py_index_Ok_range {A} (l : list A) i a :
  py_index l i = Ok a -> (- Z.of_nat (length l) <= i < Z.of_nat (length l))%Z.
Proof.
  unfold py_index. cbv zeta.
  destruct (i <? 0)%Z eqn:Hneg.
  - apply Z.ltb_lt in Hneg.
    destruct (0 <=? i + Z.of_nat (length l))%Z eqn:E1; [|done].
    apply Z.leb_le in E1. intros _. lia.
  - apply Z.ltb_ge in Hneg.
    destruct (0 <=? i)%Z eqn:E1; [|done].
    destruct (i <? Z.of_nat (length l))%Z eqn:E2; [|done].
    apply Z.ltb_lt in E2. intros _. lia.
Qed.

(** ** The segment map *)

Lemma index_segments_other segs : forall n m i,
  i ∉ map seg_id segs -> index_segments n segs m !! i = m !! i.
Proof.
  induction segs as [|s segs IH]; intros n m i Hi; simpl; [done|].
  simpl in Hi. apply not_elem_of_cons in Hi as [Hne Hi].
  rewrite IH by done. by rewrite lookup_insert_ne.
Qed.

Lemma index_segments_total segs : forall n m i,
  i ∈ map seg_id segs ->
  exists j, index_segments n segs m !! i = Some j /\ (n <= j < n + length segs)%nat.
Proof.
  induction segs as [|s segs IH]; intros n m i Hi; simpl.
  - by apply elem_of_nil in Hi.
  - destruct (decide (i ∈ map seg_id segs)) as [Hin|Hnin].
    + destruct (IH (S n) (<[seg_id s := n]> m) i Hin) as (j & Hj & Hr).
      exists j. split; [done|lia].
    + simpl in Hi. apply elem_of_cons in Hi as [->|Hi]; [|done].
      exists n. rewrite index_segments_other by done.
      rewrite lookup_insert_eq. split; [done|lia].
Qed.

(** Every id of the list is a key of [seg_map]. *)
Lemma make_seg_map_total segs i :
  i ∈ map seg_id segs ->
  exists j, make_seg_map segs !! i = Some j /\ (j < length segs)%nat.
Proof.
  intros Hi. destruct (index_segments_total segs 0 ∅ i Hi) as (j & Hj & Hr).
  exists j. split; [done|lia].
Qed.

(** ** The keys of the input that no stage changes *)

Definition input_fields (s : segment) : string * list Point3D * Q * Q * list Q :=
  (seg_id s, points s, avgSpeedMph s, freeFlowSpeedMph s, spawnRates s).

Lemma input_fields_ids a b : agree input_fields a b -> agree seg_id a b.
Proof.
  unfold agree. intros Hab.
  assert (Hc : map (fun t : string * list Point3D * Q * Q * list Q => t.1.1.1.1)
                 (map input_fields a)
             = map (fun t : string * list Point3D * Q * Q * list Q => t.1.1.1.1)
                 (map input_fields b)) by congruence.
  by rewrite !map_map in Hc.
Qed.

Lemma count_links_insert f store k s s' :
  store !! k = Some s ->
  (count_links f (<[k := s']> store) + length (f s)
   = count_links f store + length (f s'))%nat.
Proof.
  unfold count_links. revert k. induction store as [|x store IH]; intros k Hk; [done|].
  destruct k as [|k]; simpl in *.
  - injection Hk as ->. lia.
  - specialize (IH k Hk). lia.
Qed.

Section AdjacencyTotal.
Variable atan2_deg : Q -> Q -> Q.

Lemma heading_step_total seg :
  (2 <= length (points seg))%nat -> exists seg', heading_step atan2_deg seg = Ok seg'.
Proof.
  intros Hlen. unfold heading_step.
  destruct (py_index_total (points seg) 0) as [p0 ->]; [lia|].
  destruct (py_index_total (points seg) 1) as [p1 ->]; [lia|].
  destruct (py_index_total (points seg) (-2)) as [p2 ->]; [lia|].
  destruct (py_index_total (points seg) (-1)) as [p3 ->]; [lia|].
  simpl. eauto.
Qed.

Lemma heading_step_points seg seg' :
  heading_step atan2_deg seg = Ok seg' -> (2 <= length (points seg))%nat.
Proof.
  unfold heading_step. intros Hs. inv_bind Hs. inv_bind Hs.
  apply py_index_Ok_range in Ha0. lia.
Qed.

Lemma heading_step_fields seg seg' :
  heading_step atan2_deg seg = Ok seg' -> input_fields seg' = input_fields seg.
Proof. unfold heading_step. intros Hs. inv_binds. by subst seg'. Qed.

Lemma heading_pass_fields segs store :
  map_result (heading_step atan2_deg) segs = Ok store -> agree input_fields store segs.
Proof.
  intros Hr. apply map_result_Ok in Hr. unfold agree.
  induction Hr as [|s s' l l' Hs _ IH]; [done|]. simpl.
  apply heading_step_fields in Hs. congruence.
Qed.

Lemma successor_step_fields nodes em seg_map k st st' :
  successor_step nodes em seg_map k st = Ok st' -> agree input_fields st'.1 st.1.
Proof.
  unfold successor_step. intros Hs. inv_binds. subst st'. cbn [fst].
  by eapply agree_insert.
Qed.

Lemma second_pass_fields nodes em seg_map base store total :
  for_each (successor_step nodes em seg_map) (seq 0 (length base)) (base, 0%nat)
    = Ok (store, total) ->
  agree input_fields store base.
Proof.
  intros Hr.
  apply (for_range_inv (fun _ st => agree input_fields st.1 base)) in Hr; [done|done|].
  intros i t t' _ Hag Hs. eapply agree_trans; [|exact Hag].
  by eapply successor_step_fields.
Qed.

Lemma predecessor_link_keeps seg_map from_id x store store' :
  predecessor_link seg_map from_id x store = Ok store' ->
  agree input_fields store' store /\ agree linked store' store /\
  count_links predecessors store' = S (count_links predecessors store).
Proof.
  unfold predecessor_link. intros Hl. inv_binds. subst store'.
  rename a into ci, a0 into target.
  split; [by eapply agree_insert|]. split; [by eapply agree_insert|].
  pose proof (count_links_insert predecessors store ci target
                (set_predecessors (predecessors target ++ [from_id]) target) Ha0) as Hc.
  simpl in Hc. rewrite length_app in Hc. simpl in Hc. lia.
Qed.

Lemma predecessor_step_keeps seg_map k store store' seg :
  store !! k = Some seg ->
  predecessor_step seg_map k store = Ok store' ->
  agree input_fields store' store /\ agree linked store' store /\
  count_links predecessors store'
  = (count_links predecessors store + length (successors seg))%nat.
Proof.
  intros Hk. unfold predecessor_step. rewrite Hk. simpl.
  apply (for_each_prefix_inv (fun pre t =>
    agree input_fields t store /\ agree linked t store /\
    count_links predecessors t = (count_links predecessors store + length pre)%nat)).
  - split; [done|]. split; [done|]. simpl. lia.
  - intros pre x post t t' _ (H1 & H2 & H3) Hl.
    apply predecessor_link_keeps in Hl as (K1 & K2 & K3).
    split; [by eapply agree_trans|]. split; [by eapply agree_trans|].
    rewrite K3, H3, length_app. simpl. lia.
Qed.

Lemma successors_of_linked a b j s s' :
  agree linked a b -> a !! j = Some s -> b !! j = Some s' -> successors s = successors s'.
Proof.
  intros Hag Ha Hb. destruct (agree_lookup _ _ _ _ _ Hag Ha) as (s'' & Hs'' & Hl).
  rewrite Hb in Hs''. injection Hs'' as <-. unfold linked in Hl. by injection Hl.
Qed.

(** The third pass appends one predecessor entry per successor entry. *)
Lemma third_pass_keeps seg_map base store :
  for_each (predecessor_step seg_map) (seq 0 (length base)) base = Ok store ->
  agree input_fields store base /\ agree linked store base /\
  count_links predecessors store
  = (count_links predecessors base + count_links successors base)%nat.
Proof.
  intros Hr.
  apply (for_range_inv (fun k t =>
    agree input_fields t base /\ agree linked t base /\
    count_links predecessors t
    = (count_links predecessors base + count_links successors (take k base))%nat))
    in Hr.
  - destruct Hr as (H1 & H2 & H3). split; [done|]. split; [done|].
    by rewrite H3, take_ge.
  - split; [done|]. split; [done|]. rewrite take_0. unfold count_links at 3. simpl. lia.
  - intros i t t' Hi (H1 & H2 & H3) Hs.
    destruct (lookup_lt_is_Some_2 base i Hi) as [b Hb].
    destruct (lookup_lt_is_Some_2 t i) as [seg Hseg];
      [by rewrite (agree_length _ _ _ H2)|].
    destruct (predecessor_step_keeps _ _ _ _ _ Hseg Hs) as (K1 & K2 & K3).
    split; [by eapply agree_trans|]. split; [by eapply agree_trans|].
    rewrite K3, H3, (take_S_r _ _ _ Hb), count_links_app.
    rewrite (successors_of_linked _ _ _ _ _ H2 Hseg Hb).
    unfold count_links at 5. simpl. lia.
Qed.

Lemma cleared_predecessors store :
  agree input_fields (map (set_predecessors []) store) store /\
  agree linked (map (set_predecessors []) store) store /\
  count_links predecessors (map (set_predecessors []) store) = 0%nat.
Proof.
  unfold agree. rewrite !map_map. split; [by apply map_ext|]. split; [by apply map_ext|].
  unfold count_links. induction store as [|s store IH]; [done|]. simpl. exact IH.
Qed.

(** When the three passes complete, the two totals that line 330 compares
    are equal. *)
Lemma adjacency_counts_agree nodes em seg_map store1 store2 total store4 :
  for_each (successor_step nodes em seg_map) (seq 0 (length store1)) (store1, 0%nat)
    = Ok (store2, total) ->
  for_each (predecessor_step seg_map)
    (seq 0 (length (map (set_predecessors []) store2)))
    (map (set_predecessors []) store2) = Ok store4 ->
  count_links predecessors store4 = total.
Proof.
  intros H2 H3. apply second_pass_spec in H2 as (_ & -> & _).
  apply third_pass_keeps in H3 as (_ & _ & ->).
  destruct (cleared_predecessors store2) as (_ & _ & ->). simpl.
  apply count_links_agree. unfold agree. rewrite map_map. by apply map_ext.
Qed.

(** What [build_adjacency] keeps of its input. *)
Lemma build_adjacency_fields segs nodes sm em segs' :
  build_adjacency atan2_deg segs nodes sm em = Ok segs' -> agree input_fields segs' segs.
Proof.
  unfold build_adjacency. intros Hb. inv_bind Hb. rename a into store1, Ha into H1.
  inv_bind Hb. destruct a as [store2 total]. rename Ha into H2.
  inv_bind Hb. rename a into store4, Ha into H3.
  destruct (decide _) as [Hcount|]; [|discriminate]. injection Hb as <-.
  apply heading_pass_fields in H1. apply second_pass_fields in H2.
  apply third_pass_keeps in H3 as (H3 & _).
  destruct (cleared_predecessors store2) as (H4 & _).
  eapply agree_trans; [exact H3|]. eapply agree_trans; [exact H4|].
  by eapply agree_trans.
Qed.

(** *** When the passes complete *)

Lemma candidates_total store seg_map seg out :
  (forall cid, cid ∈ out -> cid <> seg_id seg ->
     exists ci, seg_map !! cid = Some ci /\ (ci < length store)%nat) ->
  exists succs, for_each (candidate_step store seg_map seg) out [] = Ok succs.
Proof.
  intros Hres. apply for_each_all_ok. intros cid acc Hin. unfold candidate_step.
  destruct (decide (cid = seg_id seg)); [eauto|].
  destruct (Hres cid Hin) as (ci & -> & Hlt); [done|]. simpl.
  destruct (lookup_lt_is_Some_2 store ci Hlt) as [C ->]. simpl.
  destruct (Qleb _ _); eauto.
Qed.

(** The node maps fit the segment list: each id has an end node, and that
    node's [outgoing] list names segments of the list. *)
Definition adjacency_ready (ids : list string) (nodes : odict RoadNode)
    (em : gmap string string) : Prop :=
  forall i, i ∈ ids ->
    exists nid node, em !! i = Some nid /\ od_get nodes nid = Some node /\
      forall cid, cid ∈ outgoing node -> cid ∈ ids.

Lemma successor_step_total segs nodes em k st :
  adjacency_ready (map seg_id segs) nodes em ->
  agree seg_id st.1 segs -> (k < length segs)%nat ->
  exists st', successor_step nodes em (make_seg_map segs) k st = Ok st'.
Proof.
  intros Hready Hag Hk. unfold successor_step.
  destruct (lookup_lt_is_Some_2 st.1 k) as [seg Hseg];
    [by rewrite (agree_length _ _ _ Hag)|].
  rewrite Hseg. simpl.
  assert (Hid : seg_id seg ∈ map seg_id segs).
  { unfold agree in Hag. rewrite <- Hag. by apply list_elem_of_fmap_2, (list_elem_of_lookup_2 _ k). }
  destruct (Hready _ Hid) as (nid & node & Hn & Hg & Hout).
  rewrite Hn. simpl. rewrite Hg. simpl.
  destruct (candidates_total st.1 (make_seg_map segs) seg (outgoing node)) as [succs ->].
  - intros cid Hin _. destruct (make_seg_map_total segs cid (Hout cid Hin)) as (ci & ? & ?).
    exists ci. split; [done|]. by rewrite (agree_length _ _ _ Hag).
  - simpl. eauto.
Qed.

Lemma second_pass_total segs nodes em store1 :
  adjacency_ready (map seg_id segs) nodes em -> agree seg_id store1 segs ->
  exists store2 total,
    for_each (successor_step nodes em (make_seg_map segs))
      (seq 0 (length store1)) (store1, 0%nat) = Ok (store2, total).
Proof.
  intros Hready Hag.
  destruct (for_seq_total (fun _ st => agree seg_id st.1 segs)
              (successor_step nodes em (make_seg_map segs))
              (length store1) 0%nat (store1, 0%nat)) as ([store2 total] & Hr & _).
  - done.
  - intros j t Hj Ht.
    destruct (successor_step_total segs nodes em j t Hready Ht) as [t' Ht'].
    { rewrite <- (agree_length _ _ _ Hag). lia. }
    exists t'. split; [done|].
    eapply agree_trans; [|exact Ht]. apply input_fields_ids.
    by eapply successor_step_fields.
  - eauto.
Qed.

Lemma predecessor_step_total seg_map k store seg :
  store !! k = Some seg ->
  (forall cid, cid ∈ successors seg ->
     exists ci, seg_map !! cid = Some ci /\ (ci < length store)%nat) ->
  exists store', predecessor_step seg_map k store = Ok store'.
Proof.
  intros Hk Hres. unfold predecessor_step. rewrite Hk. simpl.
  destruct (for_each_total (fun t => length t = length store)
              (predecessor_link seg_map (seg_id seg)) (successors seg) store)
    as (store' & Hr & _); [|done|eauto].
  intros cid t Hin Hlen. unfold predecessor_link.
  destruct (Hres cid Hin) as (ci & -> & Hlt). simpl.
  destruct (lookup_lt_is_Some_2 t ci) as [target ->]; [lia|]. simpl.
  eexists. split; [done|]. by rewrite length_insert.
Qed.

Lemma third_pass_total seg_map base :
  (forall s cid, s ∈ base -> cid ∈ successors s ->
     exists ci, seg_map !! cid = Some ci /\ (ci < length base)%nat) ->
  exists store, for_each (predecessor_step seg_map) (seq 0 (length base)) base = Ok store.
Proof.
  intros Hres.
  destruct (for_seq_total (fun _ t => agree linked t base)
              (predecessor_step seg_map) (length base) 0%nat base) as (store & Hr & _).
  - done.
  - intros j t Hj Ht.
    destruct (lookup_lt_is_Some_2 t j) as [seg Hseg];
      [rewrite (agree_length _ _ _ Ht); lia|].
    destruct (lookup_lt_is_Some_2 base j) as [b Hb]; [lia|].
    destruct (predecessor_step_total seg_map j t seg Hseg) as [t' Ht'].
    { intros cid Hin. rewrite (successors_of_linked _ _ _ _ _ Ht Hseg Hb) in Hin.
      rewrite (agree_length _ _ _ Ht).
      apply (Hres b cid); [by eapply list_elem_of_lookup_2|done]. }
    exists t'. split; [done|].
    destruct (predecessor_step_keeps _ _ _ _ _ Hseg Ht') as (_ & K & _).
    by eapply agree_trans.
  - eauto.
Qed.

Lemma build_adjacency_total segs nodes sm em :
  (forall s, s ∈ segs -> (2 <= length (points s))%nat) ->
  adjacency_ready (map seg_id segs) nodes em ->
  exists segs', build_adjacency atan2_deg segs nodes sm em = Ok segs'.
Proof.
  intros Hpts Hready. unfold build_adjacency. cbv zeta.
  destruct (map_result_total (heading_step atan2_deg) segs) as [store1 H1].
  { intros s Hs. by apply heading_step_total, Hpts. }
  rewrite H1. simpl.
  pose proof (heading_pass_ids _ _ _ H1) as A1.
  destruct (second_pass_total segs nodes em store1 Hready A1) as (store2 & total & H2).
  rewrite H2. simpl.
  pose proof H2 as H2'. apply second_pass_spec in H2' as (A2 & Htot & Hok).
  destruct (third_pass_total (make_seg_map segs) (map (set_predecessors []) store2))
    as [store4 H3].
  { intros s cid Hs Hin. apply list_elem_of_fmap in Hs as (s2 & -> & Hs2).
    simpl in Hin. rewrite length_map.
    destruct (Hok s2 Hs2) as (nid & node & _ & _ & Hspec & Hres).
    apply Hspec in Hin as (Hout & Hne & _).
    destruct (Hres cid Hout Hne) as (ci & C & Hci & HC).
    exists ci. split; [done|]. by eapply lookup_lt_Some. }
  rewrite H3. simpl.
  rewrite (adjacency_counts_agree _ _ _ _ _ _ _ H2 H3).
  destruct (decide (total = total)); [eauto|done].
Qed.
End AdjacencyTotal.

(** ** The node maps fit the segment list *)

Lemma endpoint_segment_id segs eps i ep :
  endpoints_for segs eps -> eps !! i = Some ep -> segment_id ep ∈ map seg_id segs.
Proof.
  intros Hfor Hep.
  destruct (endpoint_at _ _ _ _ Hfor Hep) as (k & s & Hk & -> & _).
  by apply list_elem_of_fmap_2, (list_elem_of_lookup_2 _ k).
Qed.

Lemma cluster_ids_known (sel : bool) segs eps l cid :
  endpoints_for segs eps -> cid ∈ ids_of sel eps l -> cid ∈ map seg_id segs.
Proof.
  intros Hfor Hin. apply ids_of_elem in Hin as (i & ep & _ & Hep & _ & <-).
  by eapply endpoint_segment_id.
Qed.

(** Each side of the node maps has an entry for every segment id, and the
    entry names a node of the node set. *)
Lemma node_map_total bounds segs eps cl nodes (sel : bool) i :
  endpoints_for segs eps -> clustering eps cl -> nodes_for bounds eps 0 cl nodes ->
  i ∈ map seg_id segs ->
  exists nid j r l cx cz,
    assign_all sel eps 0 cl ∅ !! i = Some nid /\
    nid = make_node_id j /\ cl !! j = Some (r, l) /\ i ∈ ids_of sel eps l /\
    od_get nodes nid = Some (cluster_node bounds eps j l cx cz).
Proof.
  intros Hfor Hc Hn Hi. apply list_elem_of_fmap in Hi as (s & -> & Hs).
  apply list_elem_of_lookup in Hs as [k Hk].
  destruct (proj2 Hfor k s Hk) as (p0 & pl & _ & _ & H0 & H1).
  set (e := (if sel then 2 * k else 2 * k + 1)%nat).
  assert (Hep : exists ep, eps !! e = Some ep /\ is_start ep = sel /\
                  segment_id ep = seg_id s).
  { unfold e. destruct sel; eexists; (split; [eassumption|by split]). }
  destruct Hep as (ep & Hep & Hsel & Hid).
  destruct (cl_cover _ _ Hc e) as (r0 & l0 & Hin0 & Hel0); [by eapply lookup_lt_Some|].
  apply list_elem_of_lookup in Hin0 as [j0 Hj0].
  destruct (assign_all_complete sel eps cl 0 ∅ (seg_id s)) as [nid Hnid].
  { right. exists j0, r0, l0. split; [done|]. apply ids_of_elem. by exists e, ep. }
  pose proof Hnid as Hsound.
  apply assign_all_sound in Hsound as [Hm|(j & r & l & Hj & -> & Hin)].
  { by rewrite lookup_empty in Hm. }
  destruct (proj2 Hn j r l Hj) as (cx & cz & _ & Hnode). simpl in Hnode.
  exists (make_node_id j), j, r, l, cx, cz.
  split; [done|]. split; [done|]. split; [done|]. split; [done|].
  apply od_elem_get; [by eapply nodes_for_NoDup|]. by eapply list_elem_of_lookup_2.
Qed.

Lemma node_set_ready bounds segs nodes sm em :
  build_node_set bounds segs = Ok (nodes, (sm, em)) ->
  adjacency_ready (map seg_id segs) nodes em /\
  (forall i, i ∈ map seg_id segs ->
     exists nid node, sm !! i = Some nid /\ od_get nodes nid = Some node).
Proof.
  intros Hb.
  assert (Heps : exists eps, collect_endpoints segs = Ok eps).
  { unfold build_node_set in Hb. destruct (collect_endpoints segs); [eauto|done]. }
  destruct Heps as [eps Heps].
  pose proof (collect_endpoints_Ok _ _ Heps) as Hfor.
  destruct (build_node_set_spec bounds segs eps Heps) as (cl & nodes' & _ & Hc & Hn & Hb').
  rewrite Hb in Hb'. injection Hb' as -> -> ->. split.
  - intros i Hi.
    destruct (node_map_total bounds segs eps cl nodes' false i Hfor Hc Hn Hi)
      as (nid & j & r & l & cx & cz & Hm & _ & _ & _ & Hg).
    exists nid, (cluster_node bounds eps j l cx cz). split; [done|]. split; [done|].
    intros cid Hin. simpl in Hin. by eapply cluster_ids_known.
  - intros i Hi.
    destruct (node_map_total bounds segs eps cl nodes' true i Hfor Hc Hn Hi)
      as (nid & j & r & l & cx & cz & Hm & _ & _ & _ & Hg).
    by exists nid, (cluster_node bounds eps j l cx cz).
Qed.

(** ** [augment_segments] *)

Lemma py_div_Ok a b q : py_div a b = Ok q -> ~ b == 0 /\ q = a / b.
Proof.
  unfold py_div. destruct (Qeq_bool b 0) eqn:E; [done|]. intros [= <-].
  split; [|done]. by apply Qeq_bool_neq.
Qed.

Lemma py_div_total a b : ~ b == 0 -> py_div a b = Ok (a / b).
Proof.
  intros Hb. unfold py_div. destruct (Qeq_bool b 0) eqn:E; [|done].
  by apply Qeq_bool_eq in E.
Qed.

Lemma py_div_nat_total a n : n <> 0%nat ->
  py_div a (inject_Z (Z.of_nat n)) = Ok (a / inject_Z (Z.of_nat n)).
Proof.
  intros Hn. destruct n as [|n]; [done|]. unfold py_div.
  change (inject_Z (Z.of_nat (S n))) with (Qnat (S n)).
  by rewrite (Qnat_S_nonzero n).
Qed.

Lemma max_list_Ok xs m : max_list xs = Ok m -> xs <> [].
Proof. by destruct xs. Qed.

Lemma speed_ratio_clamped x :
  (1 # 100) <= py_max (1 # 100) (py_min 1 x) /\ py_max (1 # 100) (py_min 1 x) <= 1.
Proof.
  unfold py_max, py_min.
  destruct (Qltb x 1) eqn:E1; destruct (Qltb (1 # 100) _) eqn:E2;
    try apply Qltb_lt in E1; try apply Qltb_lt in E2;
    try apply Qltb_false in E1; try apply Qltb_false in E2.
  all: split.
  all: lra.
Qed.

Section AugmentFacts.
Variable sqrt : Q -> Q.

(** The fields that [augment_segments] leaves alone. *)
Definition adjacency_fields (s : segment) : Q * Q * list string * list string :=
  (startHeadingDeg s, endHeadingDeg s, successors s, predecessors s).

(** One iteration of [augment_segments] (lines 343-370). *)
Definition augmented (nodes : odict RoadNode) (sm em : gmap string string)
    (s s' : segment) : Prop :=
  input_fields s' = input_fields s /\ adjacency_fields s' = adjacency_fields s /\
  sm !! seg_id s = Some (startNodeId s') /\ em !! seg_id s = Some (endNodeId s') /\
  (1 # 100) <= speedRatio s' /\ speedRatio s' <= 1 /\
  lengthMeters s' = py_round (compute_length sqrt (points s)) 2 /\
  exists start_node,
    od_get nodes (startNodeId s') = Some start_node /\
    (isEntry s' = true <-> isBoundary start_node = true \/ predecessors s = []).

Lemma augment_step_augmented nodes sm em s s' :
  augment_step sqrt nodes sm em s = Ok s' -> augmented nodes sm em s s'.
Proof.
  unfold augment_step. intros Hs. inv_binds. subst s'.
  rename a into sn, a0 into en, a1 into ratio, a2 into mx, a3 into start_node.
  unfold augmented. simpl.
  destruct (speed_ratio_clamped (py_round ratio 3)) as [Hlo Hhi].
  split; [done|]. split; [done|]. split; [done|]. split; [done|].
  split; [done|]. split; [done|]. split; [done|].
  exists start_node. split; [done|].
  unfold is_entry. rewrite orb_true_iff, Nat.eqb_eq.
  split; (intros [?|Hl]; [by left|right]); [by destruct (predecessors s)|by rewrite Hl].
Qed.

Definition augmentable (nodes : odict RoadNode) (sm em : gmap string string)
    (s : segment) : Prop :=
  (exists nid node, sm !! seg_id s = Some nid /\ od_get nodes nid = Some node) /\
  is_Some (em !! seg_id s) /\
  ~ freeFlowSpeedMph s == 0 /\ spawnRates s <> [].

Lemma augment_step_total nodes sm em s :
  augmentable nodes sm em s -> exists s', augment_step sqrt nodes sm em s = Ok s'.
Proof.
  intros ((nid & node & Hsm & Hnode) & [en Hem] & Hff & Hsp). unfold augment_step.
  rewrite Hsm, Hem. simpl. rewrite (py_div_total _ _ Hff). simpl.
  destruct (spawnRates s) as [|r rs]; [done|]. simpl.
  rewrite Hnode. simpl. eauto.
Qed.

Lemma augment_step_Ok nodes sm em s s' :
  augment_step sqrt nodes sm em s = Ok s' -> augmentable nodes sm em s.
Proof.
  unfold augment_step. intros Hs. inv_binds.
  split; [eauto|]. split; [eauto|]. split.
  - by apply py_div_Ok in Ha1 as [? _].
  - by eapply max_list_Ok.
Qed.

Lemma augment_segments_Ok nodes sm em segs out :
  augment_segments sqrt segs nodes sm em = Ok out ->
  segs <> [] /\ Forall2 (fun s s' => augment_step sqrt nodes sm em s = Ok s') segs out.
Proof.
  unfold augment_segments. intros Ha. inv_bind Ha. inv_bind Ha. injection Ha as <-.
  pose proof (map_result_length _ _ _ Ha0) as Hlen.
  apply py_div_Ok in Ha1 as [Hnz _].
  split; [|by apply map_result_Ok].
  intros ->. simpl in Hlen. apply Hnz. by rewrite Hlen.
Qed.

Lemma augment_segments_total nodes sm em segs :
  segs <> [] -> (forall s, s ∈ segs -> augmentable nodes sm em s) ->
  exists out, augment_segments sqrt segs nodes sm em = Ok out.
Proof.
  intros Hne Hall. unfold augment_segments.
  destruct (map_result_total (augment_step sqrt nodes sm em) segs) as [out Hout].
  { intros s Hs. by apply augment_step_total, Hall. }
  rewrite Hout. simpl. rewrite py_div_nat_total; [simpl; eauto|].
  rewrite (map_result_length _ _ _ Hout). by destruct segs.
Qed.
End AugmentFacts.

(** ** [build_adjacency] and [main]: what they keep and when they complete *)

Lemma agree_fields_lookup {X} (f : segment -> X) a b j s :
  agree f a b -> b !! j = Some s -> exists s', a !! j = Some s' /\ f s' = f s.
Proof.
  intros Hag Hs. destruct (agree_lookup f b a j s (agree_sym _ _ _ Hag) Hs) as (s' & ? & ?).
  eauto.
Qed.

Lemma agree_elem {X} (f : segment -> X) a b s :
  agree f a b -> s ∈ a -> exists s', s' ∈ b /\ f s' = f s.
Proof.
  intros Hag Hs. apply list_elem_of_lookup in Hs as [j Hj].
  destruct (agree_lookup f a b j s Hag Hj) as (s' & Hs' & Hf).
  exists s'. split; [by eapply list_elem_of_lookup_2|done].
Qed.

Lemma input_fields_version a b :
  agree input_fields a b -> compute_graph_version a = compute_graph_version b.
Proof.
  intros Hag. unfold compute_graph_version. rewrite !version_data_keys.
  assert (Hk : map version_key a = map version_key b); [|by rewrite Hk].
  unfold agree in Hag.
  assert (Hc : map (fun t : string * list Point3D * Q * Q * list Q =>
                      (t.1.1.1.1, length t.1.1.1.2)) (map input_fields a)
             = map (fun t : string * list Point3D * Q * Q * list Q =>
                      (t.1.1.1.1, length t.1.1.1.2)) (map input_fields b))
    by congruence.
  by rewrite !map_map in Hc.
Qed.

Lemma count_if_le f segs : (count_if f segs <= length segs)%nat.
Proof. unfold count_if. apply length_filter. Qed.

Section MainTheorems.
Variable atan2_deg : Q -> Q -> Q.
Variable sqrt : Q -> Q.


(** X2. [build_adjacency] rewrites only the headings and the two link
    lists: its result has the records of its input in the same order, each
    with the same id, points, speeds and spawn rates. *)
Theorem build_adjacency_keeps_input segs nodes sm em segs' :
  build_adjacency atan2_deg segs nodes sm em = Ok segs' ->
  length segs' = length segs /\
  forall j s', segs' !! j = Some s' ->
    exists s, segs !! j = Some s /\
      seg_id s' = seg_id s /\ points s' = points s /\
      avgSpeedMph s' = avgSpeedMph s /\ freeFlowSpeedMph s' = freeFlowSpeedMph s /\
      spawnRates s' = spawnRates s.
Proof.
  intros Hb. apply build_adjacency_fields in Hb.
  split; [by eapply agree_length|]. intros j s' Hj.
  destruct (agree_lookup _ _ _ _ _ Hb Hj) as (s & Hs & Hf).
  exists s. split; [done|]. unfold input_fields in Hf. by injection Hf as -> -> -> -> ->.
Qed.

Lemma augment_main_stages segs out :
  augment_main atan2_deg sqrt segs = Ok out ->
  exists bounds nodes sm em segs1,
    compute_data_bounds segs = Ok bounds /\
    build_node_set bounds segs = Ok (nodes, (sm, em)) /\
    build_adjacency atan2_deg segs nodes sm em = Ok segs1 /\
    augment_segments sqrt segs1 nodes sm em = Ok (out_segments out) /\
    out_nodes out = od_values nodes /\ nodeCount out = length nodes /\
    majorSegmentCount out = count_if isMajor (out_segments out) /\
    entryPointCount out = count_if isEntry (out_segments out) /\
    totalSuccessorLinks out = count_links successors (out_segments out) /\
    graphVersion out = compute_graph_version (out_segments out).
Proof.
  unfold augment_main. intros Hm.
  inv_bind Hm. rename a into bounds, Ha into Hb.
  inv_bind Hm. destruct a as [nodes [sm em]]. rename Ha into Hn.
  inv_bind Hm. rename a into segs1, Ha into H1.
  inv_bind Hm. rename a into segs2, Ha into H2.
  cbv zeta in Hm. inv_bind Hm. injection Hm as <-. simpl.
  exists bounds, nodes, sm, em, segs1. by repeat split.
Qed.

Lemma augment_segments_fields nodes sm em segs out :
  augment_segments sqrt segs nodes sm em = Ok out ->
  agree input_fields out segs /\ agree adjacency_fields out segs.
Proof.
  intros Ha. apply augment_segments_Ok in Ha as [_ Ha]. unfold agree.
  induction Ha as [|s s' l l' Hs _ [IH1 IH2]]; [done|]. simpl.
  apply augment_step_augmented in Hs as (H1 & H2 & _).
  split; congruence.
Qed.

(** X3. [main] completes exactly on well-formed input: the list is not
    empty and every record has at least two points, a non-zero free-flow
    speed and at least one spawn rate.  Segment ids need not be unique. *)
Theorem augment_main_completes_iff segs :
  (exists out, augment_main atan2_deg sqrt segs = Ok out) <->
  segs <> [] /\
  forall s, s ∈ segs ->
    (2 <= length (points s))%nat /\ ~ freeFlowSpeedMph s == 0 /\ spawnRates s <> [].
Proof.
  split.
  - intros [out Hm].
    destruct (augment_main_stages segs out Hm)
      as (bounds & nodes & sm & em & segs1 & _ & _ & H1 & H2 & _).
    pose proof (build_adjacency_fields _ _ _ _ _ _ H1) as Hf.
    apply augment_segments_Ok in H2 as [Hne H2]. split.
    + intros ->. apply Hne. apply agree_length in Hf. by destruct segs1.
    + intros s Hs. apply list_elem_of_lookup in Hs as [j Hj].
      destruct (agree_fields_lookup _ _ _ _ _ Hf Hj) as (s1 & Hs1 & Hfs).
      unfold input_fields in Hfs. injection Hfs as _ Hp _ Hff Hsp.
      destruct (Forall2_lookup_l _ _ _ _ _ H2 Hs1) as (s2 & _ & Hstep).
      apply augment_step_Ok in Hstep as (_ & _ & Hff' & Hsp').
      split; [|split; [by rewrite <- Hff|by rewrite <- Hsp]].
      unfold build_adjacency in H1. inv_bind H1. apply map_result_Ok in Ha.
      destruct (Forall2_lookup_l _ _ _ _ _ Ha Hj) as (s0 & _ & Hh).
      by eapply heading_step_points.
  - intros [Hne Hall].
    assert (Hpts : forall s, s ∈ segs -> points s <> []).
    { intros s Hs Hnil. destruct (Hall s Hs) as [Hl _]. rewrite Hnil in Hl.
      simpl in Hl. lia. }
    destruct segs as [|s0 segs0] eqn:Esegs; [done|]. rewrite <- Esegs in *.
    assert (Hs0 : s0 ∈ segs) by (rewrite Esegs; by left).
    assert (Hp0 : exists p, p ∈ points s0).
    { pose proof (Hpts s0 Hs0). destruct (points s0) as [|p ?]; [done|].
      exists p. by left. }
    destruct Hp0 as [p Hp0].
    destruct (compute_data_bounds_total segs s0 p Hs0 Hp0) as [bounds Hb].
    destruct (build_node_set_total bounds segs Hpts) as (nodes & sm & em & Hn).
    destruct (node_set_ready _ _ _ _ _ Hn) as [Hready Hstart].
    destruct (build_adjacency_total atan2_deg segs nodes sm em) as [segs1 H1];
      [intros s Hs; by apply Hall|done|].
    pose proof (build_adjacency_fields _ _ _ _ _ _ H1) as Hf.
    destruct (augment_segments_total sqrt nodes sm em segs1) as [segs2 H2].
    { intros ->. apply agree_length in Hf. rewrite Esegs in Hf. done. }
    { intros s1 Hs1. destruct (agree_elem _ _ _ _ Hf Hs1) as (s & Hs & Hfs).
      unfold input_fields in Hfs. injection Hfs as Hid _ _ Hff Hsp.
      assert (Hin : seg_id s1 ∈ map seg_id segs).
      { rewrite <- Hid. by apply list_elem_of_fmap_2. }
      destruct (Hall s Hs) as (_ & Hff' & Hsp').
      split; [by apply Hstart|]. split.
      - destruct (Hready _ Hin) as (nid & ? & -> & _). eauto.
      - split; [by rewrite <- Hff|by rewrite <- Hsp]. }
    unfold augment_main. rewrite Hb. simpl. rewrite Hn. simpl. rewrite H1. simpl.
    rewrite H2. simpl. rewrite py_div_nat_total; [simpl; eauto|].
    destruct (augment_segments_fields _ _ _ _ _ H2) as [Hf2 _].
    rewrite (agree_length _ _ _ Hf2), (agree_length _ _ _ Hf), Esegs. done.
Qed.

(** X4. What [main] writes, when it completes: the records of the input
    in the same order with their id, points, speeds and spawn rates; a node
    count that is the number of nodes written; a successor total that is
    also the predecessor total; counts of major and entry segments that do
    not exceed the number of segments; and a graph version that is the one
    of the input. *)
Theorem augment_main_output segs out :
  augment_main atan2_deg sqrt segs = Ok out ->
  map input_fields (out_segments out) = map input_fields segs /\
  nodeCount out = length (out_nodes out) /\
  totalSuccessorLinks out = count_links successors (out_segments out) /\
  totalSuccessorLinks out = count_links predecessors (out_segments out) /\
  (majorSegmentCount out <= length segs)%nat /\
  (entryPointCount out <= length segs)%nat /\
  graphVersion out = compute_graph_version segs.
Proof.
  intros Hm.
  destruct (augment_main_stages segs out Hm)
    as (bounds & nodes & sm & em & segs1 & _ & _ & H1 & H2 & Hon & Hnc & Hmc & Hec & Hts & Hgv).
  pose proof (build_adjacency_fields _ _ _ _ _ _ H1) as Hf1.
  destruct (augment_segments_fields _ _ _ _ _ H2) as [Hf2 Ha2].
  assert (Hf : agree input_fields (out_segments out) segs) by (by eapply agree_trans).
  assert (Hlen : length (out_segments out) = length segs) by (by eapply agree_length).
  split; [exact Hf|]. split.
  { rewrite Hnc, Hon. unfold od_values. by rewrite length_fmap. }
  split; [done|]. split.
  { rewrite Hts.
    destruct (build_adjacency_spec _ _ _ _ _ _ H1) as (_ & _ & _ & _ & Hcount).
    assert (Hs : count_links successors (out_segments out) = count_links successors segs1).
    { apply count_links_agree. unfold agree in *.
      assert (Hc : map (fun t : Q * Q * list string * list string => t.1.2)
                     (map adjacency_fields (out_segments out))
                 = map (fun t : Q * Q * list string * list string => t.1.2)
                     (map adjacency_fields segs1)) by congruence.
      by rewrite !map_map in Hc. }
    assert (Hp : count_links predecessors (out_segments out)
                 = count_links predecessors segs1).
    { apply count_links_agree. unfold agree in *.
      assert (Hc : map (fun t : Q * Q * list string * list string => t.2)
                     (map adjacency_fields (out_segments out))
                 = map (fun t : Q * Q * list string * list string => t.2)
                     (map adjacency_fields segs1)) by congruence.
      by rewrite !map_map in Hc. }
    congruence. }
  split; [rewrite Hmc, <- Hlen; apply count_if_le|].
  split; [rewrite Hec, <- Hlen; apply count_if_le|].
  rewrite Hgv. by apply input_fields_version.
Qed.
End MainTheorems.

(** ** Clusters are the connected components of closeness *)

(** Linking the root [c] below the root [t] joins the two classes and
    nothing else. *)
Lemma link_exact b (uf : UnionFind string) t c rank' a d :
  uf_wf b uf -> parent uf !! t = Some t -> parent uf !! c = Some c -> c <> t ->
  same_root (mk_uf (<[c := t]> (parent uf)) rank') a d ->
  same_root uf a d \/ (root_of uf a c /\ root_of uf d t) \/
  (root_of uf a t /\ root_of uf d c).
Proof.
  intros Hwf Ht Hc Hne (r' & Ha & Hd).
  pose proof (link_dom uf t c rank' Hc) as Hdom.
  destruct (root_exists b uf a Hwf) as [ra Hra]; [by eapply Hdom, root_of_dom|].
  destruct (root_exists b uf d Hwf) as [rd Hrd]; [by eapply Hdom, root_of_dom|].
  pose proof (link_roots uf t c rank' a ra Ht Hc Hne Hra) as Ha'.
  pose proof (link_roots uf t c rank' d rd Ht Hc Hne Hrd) as Hd'.
  pose proof (root_of_fun _ _ _ _ Ha Ha') as Ea.
  pose proof (root_of_fun _ _ _ _ Hd Hd') as Ed.
  destruct (decide (ra = c)) as [->|Hac]; destruct (decide (rd = c)) as [->|Hdc].
  - left. by exists c.
  - right. left. split; [done|]. congruence.
  - right. right. split; [|done]. congruence.
  - left. exists ra. split; [done|]. congruence.
Qed.

(** [union] joins the classes of its two arguments and no others. *)
Lemma union_exact b (uf : UnionFind string) depth x y uf' :
  uf_wf b uf -> is_Some (parent uf !! x) -> is_Some (parent uf !! y) ->
  (b < depth)%nat -> union depth x y uf = Ok uf' ->
  forall a d, same_root uf' a d ->
    same_root uf a d \/ (same_root uf a x /\ same_root uf y d) \/
    (same_root uf a y /\ same_root uf x d).
Proof.
  intros Hwf Hx Hy Hd Hu. unfold union in Hu.
  destruct (find_spec b uf depth x Hwf Hx) as
    (rx & uf1 & E1 & Hrx & Hwf1 & Hrk1 & Hdom1 & Hroots1); [lia|].
  rewrite E1 in Hu. simpl in Hu.
  destruct (find_spec b uf1 depth y Hwf1) as
    (ry & uf2 & E2 & Hry & Hwf2 & Hrk2 & Hdom2 & Hroots2);
    [by apply Hdom1|lia|].
  rewrite E2 in Hu. simpl in Hu.
  assert (Hroots : same_roots uf uf2).
  { intros z r. etrans; [apply Hroots2|apply Hroots1]. }
  assert (Hback : forall a d, same_root uf2 a d -> same_root uf a d).
  { intros a d (r & Ha & Hd'). exists r. split; by apply Hroots. }
  assert (Hrx2 : root_of uf2 x rx) by (by apply Hroots2, Hroots1).
  assert (Hry2 : root_of uf2 y ry) by (by apply Hroots2).
  assert (Hcase : forall t c rank', c <> t ->
            ((t = rx /\ c = ry) \/ (t = ry /\ c = rx)) ->
            forall a d, same_root (mk_uf (<[c := t]> (parent uf2)) rank') a d ->
              same_root uf a d \/ (same_root uf a x /\ same_root uf y d) \/
              (same_root uf a y /\ same_root uf x d)).
  { intros t c rank' Hne Htc a d Had.
    assert (Ht : parent uf2 !! t = Some t).
    { destruct Htc as [[-> _]|[-> _]]; by eapply root_is_root. }
    assert (Hc : parent uf2 !! c = Some c).
    { destruct Htc as [[_ ->]|[_ ->]]; by eapply root_is_root. }
    destruct (link_exact b uf2 t c rank' a d Hwf2 Ht Hc Hne Had)
      as [Hs|[[Ha Hd']|[Ha Hd']]].
    - left. by apply Hback.
    - destruct Htc as [[-> ->]|[-> ->]].
      + right. right. split; apply Hback; [by exists ry|by exists rx].
      + right. left. split; apply Hback; [by exists rx|by exists ry].
    - destruct Htc as [[-> ->]|[-> ->]].
      + right. left. split; apply Hback; [by exists rx|by exists ry].
      + right. right. split; apply Hback; [by exists ry|by exists rx]. }
  destruct (decide (rx = ry)) as [<-|Hne].
  { injection Hu as <-. intros a d Had. left. by apply Hback. }
  destruct (wf_rank_dom _ _ Hwf2 rx) as [kx Hkx];
    [rewrite (root_is_root _ _ _ Hrx2); eauto|].
  destruct (wf_rank_dom _ _ Hwf2 ry) as [ky Hky];
    [rewrite (root_is_root _ _ _ Hry2); eauto|].
  rewrite Hkx, Hky in Hu. simpl in Hu.
  destruct (kx <? ky)%nat.
  - destruct (ky =? kx)%nat; injection Hu as <-; apply Hcase; auto.
  - destruct (kx =? ky)%nat; injection Hu as <-; apply Hcase; auto.
Qed.

Section MergeExact.
Variable endpoints : list Endpoint.
Let n := length endpoints.
Let ids := make_endpoint_ids n.
Let uf0 := make_sets ids.

(** A chain of endpoints, each closer than the snap radius to the next. *)
Definition connected (a b : nat) : Prop := rtc (close endpoints) a b.

Lemma connected_sym a b : connected a b -> connected b a.
Proof.
  induction 1 as [|a c b Hac _ IH]; [apply rtc_refl|].
  eapply rtc_r; [exact IH|]. by apply close_sym.
Qed.





End MergeExact.


(** ** The node set as a whole *)




(** [ids_of] over every index is a filter of the endpoint list. *)
Definition side_id (sel : bool) (ep : Endpoint) : option string :=
  if Bool.eqb (is_start ep) sel then Some (segment_id ep) else None.

Lemma ids_of_all sel eps :
  ids_of sel eps (seq 0 (length eps)) = omap (side_id sel) eps.
Proof.
  unfold ids_of.
  assert (G : forall pre,
            omap (fun i => match (pre ++ eps) !! i with
                           | Some ep => side_id sel ep | None => None end)
              (seq (length pre) (length eps)) = omap (side_id sel) eps).
  { induction eps as [|ep eps IH]; intros pre; [done|].
    simpl seq. csimpl. rewrite list_lookup_middle by done.
    specialize (IH (pre ++ [ep])). rewrite <- app_assoc, length_app in IH.
    change ([ep] ++ eps) with (ep :: eps) in IH. simpl length in IH.
    rewrite Nat.add_1_r in IH. by rewrite IH. }
  exact (G []).
Qed.

Lemma collected_sides sel segs eps :
  collect_endpoints segs = Ok eps -> omap (side_id sel) eps = map seg_id segs.
Proof.
  unfold collect_endpoints.
  assert (G : forall l acc eps0,
            for_each (fun seg eps => new ← segment_endpoints seg; Ok (eps ++ new)) l acc
              = Ok eps0 ->
            omap (side_id sel) eps0 = omap (side_id sel) acc ++ map seg_id l).
  { induction l as [|s l IH]; intros acc eps0 Hr; simpl in Hr.
    - injection Hr as <-. by rewrite app_nil_r.
    - inv_bind Hr. inv_bind Ha. injection Ha as <-.
      rewrite (IH _ _ Hr), omap_app, <- app_assoc. f_equal.
      unfold segment_endpoints in Ha0. inv_binds. subst a0.
      unfold side_id. by destruct sel. }
  intros Hr. by rewrite (G _ _ _ Hr).
Qed.

Lemma ids_of_concat sel eps (ls : list (list nat)) :
  concat (map (ids_of sel eps) ls) = ids_of sel eps (concat ls).
Proof.
  induction ls as [|l ls IH]; [done|]. simpl. rewrite IH. unfold ids_of.
  by rewrite omap_app.
Qed.

Lemma elem_of_concat {A} (x : A) (ls : list (list A)) :
  x ∈ concat ls <-> exists l, l ∈ ls /\ x ∈ l.
Proof.
  induction ls as [|l ls IH]; simpl.
  - split; [intros Hx; by apply elem_of_nil in Hx|].
    intros (l & Hl & _). by apply elem_of_nil in Hl.
  - rewrite elem_of_app, IH. split.
    + intros [Hx|(l' & Hl' & Hx)]; [exists l; split; [by left|done]|].
      exists l'. split; [by right|done].
    + intros (l' & Hl' & Hx). apply elem_of_cons in Hl' as [->|Hl']; [by left|].
      right. by exists l'.
Qed.

Lemma cluster_lists_NoDup (cl : odict (list nat)) :
  NoDup (od_keys cl) ->
  (forall r l, (r, l) ∈ cl -> NoDup l) ->
  (forall i r l r' l', (r, l) ∈ cl -> (r', l') ∈ cl -> i ∈ l -> i ∈ l' -> r = r') ->
  NoDup (concat (map snd cl)).
Proof.
  induction cl as [|[r l] cl IH]; intros Hk Hl Hd; simpl; [constructor|].
  unfold od_keys in Hk. simpl in Hk. apply NoDup_cons in Hk as [Hr Hk].
  apply NoDup_app. split; [apply (Hl r l); by left|]. split.
  - intros i Hi Hi'. apply elem_of_concat in Hi' as (l' & Hl' & Hil').
    apply list_elem_of_fmap in Hl' as ([r' l''] & -> & Hin). simpl in Hil'.
    assert (r = r').
    { apply (Hd i r l r' l''); [by left|by right|done|done]. }
    subst r'. apply Hr. by apply (list_elem_of_fmap_2 fst _ (r, l'')).
  - apply IH; [done| |].
    + intros r' l' Hin. apply (Hl r' l'). by right.
    + intros i r1 l1 r2 l2 H1 H2. apply Hd; by right.
Qed.

Lemma cluster_lists_partition eps cl :
  clustering eps cl -> concat (map snd cl) ≡ₚ seq 0 (length eps).
Proof.
  intros Hc. apply NoDup_Permutation.
  - apply cluster_lists_NoDup; [apply (cl_keys _ _ Hc)| |].
    + intros r l Hin. by destruct (cl_lists _ _ Hc r l Hin) as (_ & ? & _).
    + intros i r l r' l' H1 H2 Hi Hi'.
      by destruct (cl_disjoint _ _ Hc i r l r' l' H1 H2 Hi Hi').
  - apply NoDup_seq.
  - intros i. rewrite elem_of_seq. split.
    + intros Hi. apply elem_of_concat in Hi as (l & Hl & Hil).
      apply list_elem_of_fmap in Hl as ([r l'] & -> & Hin). simpl in Hil.
      destruct (cl_lists _ _ Hc r l' Hin) as (_ & _ & Hlt).
      specialize (Hlt i Hil). lia.
    + intros [_ Hi]. destruct (cl_cover _ _ Hc i) as (r & l & Hin & Hil); [lia|].
      apply elem_of_concat. exists l. split; [|done].
      apply list_elem_of_fmap. by exists (r, l).
Qed.

Lemma nodes_for_sides bounds eps cl nodes (sel : bool) :
  nodes_for bounds eps 0 cl nodes ->
  map (fun node : RoadNode => if sel then outgoing node else incoming node)
      (od_values nodes)
  = map (ids_of sel eps) (map snd cl).
Proof.
  intros [Hlen Hn]. unfold od_values, odict in *.
  revert nodes Hlen Hn. generalize 0%nat.
  induction cl as [|[r l] cl IH]; intros idx [|[nid node] nodes] Hlen Hn;
    try discriminate; [done|].
  simpl. f_equal.
  - destruct (Hn 0%nat r l eq_refl) as (cx & cz & _ & Hnode).
    simpl in Hnode. injection Hnode as _ ->. by destruct sel.
  - apply (IH (S idx)); [by injection Hlen|].
    intros j r' l' Hj. destruct (Hn (S j) r' l' Hj) as (cx & cz & Hc & Hnode).
    exists cx, cz. split; [done|]. simpl in Hnode.
    by replace (S idx + j)%nat with (idx + S j)%nat by lia.
Qed.

Lemma nodes_for_ids bounds eps cl nodes :
  nodes_for bounds eps 0 cl nodes -> map node_id (od_values nodes) = od_keys nodes.
Proof.
  intros Hn.
  assert (Hid : forall p : string * RoadNode, p ∈ nodes -> node_id p.2 = p.1).
  { intros [nid node] Hin.
    by destruct (nodes_for_elem _ _ _ _ _ _ Hn Hin)
      as (? & ? & ? & ? & ? & _ & _ & -> & ->). }
  unfold od_values, od_keys. clear -Hid. induction nodes as [|p nodes IH]; [done|].
  simpl. rewrite (Hid p) by (by left). f_equal. apply IH.
  intros q Hq. apply Hid. by right.
Qed.



(** X6. Every endpoint is in exactly one node: the [outgoing] lists of
    all nodes together hold the segment ids of the input, each as often as it
    occurs there, and so do the [incoming] lists; node ids are node_0000,
    node_0001, ... in the order of the nodes; there are at most two nodes
    per segment, and at least one node when there is a segment. *)
Theorem node_lists_hold_every_segment bounds segs nodes sm em :
  build_node_set bounds segs = Ok (nodes, (sm, em)) ->
  concat (map outgoing (od_values nodes)) ≡ₚ map seg_id segs /\
  concat (map incoming (od_values nodes)) ≡ₚ map seg_id segs /\
  map fst nodes = map make_node_id (seq 0 (length nodes)) /\
  map node_id (od_values nodes) = map fst nodes /\
  (length nodes <= 2 * length segs)%nat /\
  (segs <> [] -> nodes <> []).
Proof.
  intros Hb.
  assert (Heps : exists eps, collect_endpoints segs = Ok eps).
  { unfold build_node_set in Hb. destruct (collect_endpoints segs); [eauto|done]. }
  destruct Heps as [eps Heps].
  pose proof (collect_endpoints_Ok _ _ Heps) as Hfor.
  destruct (build_node_set_spec bounds segs eps Heps) as (cl & nodes' & _ & Hc & Hn & Hb').
  rewrite Hb in Hb'. injection Hb' as -> _ _.
  assert (Hside : forall sel : bool,
            concat (map (fun node : RoadNode =>
                           if sel then outgoing node else incoming node)
                        (od_values nodes')) ≡ₚ map seg_id segs).
  { intros sel. rewrite (nodes_for_sides _ _ _ _ sel Hn), ids_of_concat.
    unfold ids_of at 1. rewrite (cluster_lists_partition _ _ Hc).
    fold (ids_of sel eps (seq 0 (length eps))).
    by rewrite ids_of_all, (collected_sides sel segs eps Heps). }
  assert (Hlen : (length cl <= length eps)%nat).
  { pose proof (cluster_lists_partition _ _ Hc) as Hp.
    apply Permutation_length in Hp. rewrite length_seq in Hp. rewrite <- Hp.
    clear -Hc. assert (Hne : forall r l, (r, l) ∈ cl -> l <> [])
      by (intros r l Hin; by destruct (cl_lists _ _ Hc r l Hin)).
    clear Hc. induction cl as [|[r l] cl IH]; [done|]. simpl. rewrite length_app.
    assert (l <> []) by (apply (Hne r); by left).
    assert (length cl <= length (concat (map snd cl)))%nat.
    { apply IH. intros r' l' Hin. apply (Hne r'). by right. }
    destruct l; [done|]. simpl. lia. }
  split; [exact (Hside true)|]. split; [exact (Hside false)|]. split; [|split; [|split]].
  - pose proof (nodes_for_keys _ _ _ _ Hn) as Hk. rewrite <- (proj1 Hn) in Hk.
    exact Hk.
  - exact (nodes_for_ids _ _ _ _ Hn).
  - rewrite (proj1 Hn). rewrite (proj1 Hfor) in Hlen. lia.
  - intros Hne Hnil. destruct segs as [|s segs]; [done|].
    destruct (cl_cover _ _ Hc 0%nat) as (r & l & Hin & _).
    { rewrite (proj1 Hfor). simpl. lia. }
    pose proof (proj1 Hn) as Hl. rewrite Hnil in Hl. destruct cl; [|done].
    by apply elem_of_nil in Hin.
Qed.

Lemma node_lists_hold_every_segment_witness :
  concat (map outgoing (od_values demo_nodes)) ≡ₚ map seg_id demo_segments /\
  concat (map incoming (od_values demo_nodes)) ≡ₚ map seg_id demo_segments.
Proof.
  destruct (node_lists_hold_every_segment demo_bounds demo_segments demo_nodes
              demo_start_map demo_end_map demo_node_set_run) as (H1 & H2 & _).
  by split.
Defined.

(** ** [find_connected_components]: the components it finds *)

Lemma known_keys {V} (d : odict V) k : is_Some (od_get d k) <-> k ∈ od_keys d.
Proof.
  split; [|apply od_get_keys].
  intros [v Hv]. destruct (decide (k ∈ od_keys d)) as [|Hn]; [done|].
  apply od_get_None_keys in Hn. congruence.
Qed.

Section Components.
Variable segments : odict segment.

(** [link a b]: [b] is listed among the successors or the predecessors of
    the record [a], and is itself a record of the collection. *)
Definition link (a b : string) : Prop :=
  exists sa, od_get segments a = Some sa /\
    (b ∈ successors sa \/ b ∈ predecessors sa) /\ is_Some (od_get segments b).

Lemma link_known_l a b : link a b -> is_Some (od_get segments a).
Proof. intros (sa & Ha & _). eauto. Qed.

Lemma link_known_r a b : link a b -> is_Some (od_get segments b).
Proof. by intros (sa & _ & _ & Hb). Qed.

Lemma rtc_link_known a b :
  is_Some (od_get segments a) -> rtc link a b -> is_Some (od_get segments b).
Proof.
  intros Ha Hab. induction Hab as [|a c b Hac _ IH]; [done|].
  apply IH. by eapply link_known_r.
Qed.

Lemma unseen_known_elem seen ids i :
  i ∈ unseen_known segments seen ids <->
  i ∈ ids /\ (i ∉ seen) /\ is_Some (od_get segments i).
Proof. unfold unseen_known. rewrite list_elem_of_filter. tauto. Qed.

(** The state of one breadth-first search that started at [seed] with
    [v0] already visited. *)
Definition bfs_inv (v0 : gset string) (seed : string)
    (queue : list string) (visited component : gset string) : Prop :=
  (forall x, x ∈ visited <-> x ∈ v0 \/ x ∈ component) /\
  (forall x, x ∈ component -> x ∉ v0) /\
  (forall x y, x ∈ component -> link x y -> y ∈ visited \/ y ∈ queue) /\
  (forall x, x ∈ component \/ x ∈ queue -> rtc link seed x) /\
  (forall x, x ∈ queue -> is_Some (od_get segments x)) /\
  (seed ∈ component \/ (seed ∈ queue /\ seed ∉ visited)).

Lemma bfs_component_inv v0 seed budget : forall queue visited component v c,
  bfs_component budget segments queue visited component = Ok (v, c) ->
  bfs_inv v0 seed queue visited component ->
  bfs_inv v0 seed [] v c.
Proof.
  induction budget as [|budget IH]; intros queue visited component v c Hr Hinv.
  - destruct queue; simpl in Hr; [|done]. by injection Hr as <- <-.
  - destruct queue as [|cur queue]; simpl in Hr; [by injection Hr as <- <-|].
    destruct Hinv as (Hv & Hd & Hcl & Hpath & Hknown & Hseed).
    destruct (decide (cur ∈ visited)) as [Hin|Hnin].
    + apply (IH _ _ _ _ _ Hr). split; [done|]. split; [done|]. split; [|split; [|split]].
      * intros x y Hx Hl. destruct (Hcl x y Hx Hl) as [?|Hq]; [by left|].
        apply elem_of_cons in Hq as [->|?]; [by left|by right].
      * intros x [?|?]; apply Hpath; [by left|right; by right].
      * intros x Hx. apply Hknown. by right.
      * destruct Hseed as [?|[Hq Hn]]; [by left|].
        apply elem_of_cons in Hq as [->|?]; [done|right; by split].
    + destruct (Hknown cur) as [seg Hseg]; [by left|].
      rewrite Hseg in Hr. simpl in Hr.
      apply (IH _ _ _ _ _ Hr). clear IH Hr.
      assert (Hcur : rtc link seed cur) by (apply Hpath; right; by left).
      split; [|split; [|split; [|split; [|split]]]].
      * intros x. rewrite !elem_of_union, !elem_of_singleton, Hv. tauto.
      * intros x. rewrite elem_of_union, elem_of_singleton.
        intros [Hx| ->]; [by apply Hd|]. intros Hx0. apply Hnin, Hv. by left.
      * intros x y. rewrite elem_of_union, elem_of_singleton. intros [Hx| ->] Hl.
        -- destruct (Hcl x y Hx Hl) as [Hy|Hq].
           ++ left. apply elem_of_union. by left.
           ++ apply elem_of_cons in Hq as [->|Hq].
              ** left. apply elem_of_union. right. by apply elem_of_singleton.
              ** right. apply elem_of_app. by left.
        -- destruct (decide (y ∈ visited ∪ {[cur]})) as [?|Hny]; [by left|].
           right. destruct Hl as (sa & Ha & Hy & Hk).
           rewrite Hseg in Ha. injection Ha as <-.
           rewrite !elem_of_app. right.
           destruct Hy as [Hy|Hy]; [left|right]; by apply unseen_known_elem.
      * intros x. rewrite elem_of_union, elem_of_singleton, !elem_of_app.
        intros [[Hx| ->]|[Hx|[Hx|Hx]]].
        -- apply Hpath. by left.
        -- done.
        -- apply Hpath. right. by right.
        -- apply unseen_known_elem in Hx as (Hx & _ & Hk).
           eapply rtc_r; [exact Hcur|]. exists seg. split; [done|]. split; [by left|done].
        -- apply unseen_known_elem in Hx as (Hx & _ & Hk).
           eapply rtc_r; [exact Hcur|]. exists seg. split; [done|]. split; [by right|done].
      * intros x. rewrite !elem_of_app. intros [Hx|[Hx|Hx]].
        -- apply Hknown. by right.
        -- by apply unseen_known_elem in Hx as (_ & _ & ?).
        -- by apply unseen_known_elem in Hx as (_ & _ & ?).
      * destruct Hseed as [?|[Hq Hn]].
        -- left. apply elem_of_union. by left.
        -- apply elem_of_cons in Hq as [->|Hq].
           ++ left. apply elem_of_union. right. by apply elem_of_singleton.
           ++ destruct (decide (seed = cur)) as [->|Hne].
              ** left. apply elem_of_union. right. by apply elem_of_singleton.
              ** right. split; [apply elem_of_app; by left|].
                 rewrite elem_of_union, elem_of_singleton. tauto.
Qed.

(** What holds of the components found so far. *)
Definition found_inv (pre : list string) (st : gset string * list (gset string)) : Prop :=
  (forall x, x ∈ st.1 <-> exists c, c ∈ st.2 /\ x ∈ c) /\
  (forall k, k ∈ pre -> k ∈ st.1) /\
  (forall x, x ∈ st.1 -> is_Some (od_get segments x)) /\
  (forall i j c d, st.2 !! i = Some c -> st.2 !! j = Some d -> i <> j ->
     forall x, x ∈ c -> x ∉ d) /\
  (forall c, c ∈ st.2 -> exists seed, seed ∈ c /\ forall x, x ∈ c -> rtc link seed x) /\
  (forall i c x y, st.2 !! i = Some c -> x ∈ c -> link x y ->
     exists j d, (j <= i)%nat /\ st.2 !! j = Some d /\ y ∈ d).

Lemma component_step_inv pre k st st' :
  is_Some (od_get segments k) -> found_inv pre st ->
  component_step segments k st = Ok st' -> found_inv (pre ++ [k]) st'.
Proof.
  intros Hk (Hv & Hpre & Hknown & Hdis & Hseed & Hcl) Hs.
  destruct st as [visited found]. unfold component_step in Hs. cbn [fst snd] in *.
  destruct (decide (k ∈ visited)) as [Hin|Hnin].
  { injection Hs as <-. unfold found_inv. cbn [fst snd]. split; [done|]. split; [|done].
    intros k'. rewrite elem_of_app, list_elem_of_singleton.
    intros [?| ->]; [by apply Hpre|done]. }
  inv_bind Hs. destruct a as [v c]. injection Hs as <-. cbn [fst snd].
  apply (bfs_component_inv visited k) in Ha.
  2:{ split; [intros x; rewrite elem_of_empty; tauto|].
      split; [intros x Hx; by apply elem_of_empty in Hx|].
      split; [intros x y Hx; by apply elem_of_empty in Hx|].
      split.
      { intros x [Hx|Hx]; [by apply elem_of_empty in Hx|].
        apply list_elem_of_singleton in Hx as ->. apply rtc_refl. }
      split.
      { intros x Hx. by apply list_elem_of_singleton in Hx as ->. }
      right. split; [by apply list_elem_of_singleton|done]. }
  destruct Ha as (Hv' & Hd' & Hcl' & Hpath' & _ & Hseed').
  assert (Hkc : k ∈ c).
  { destruct Hseed' as [?|[Hq _]]; [done|]. by apply elem_of_nil in Hq. }
  unfold found_inv. cbn [fst snd].
  split; [|split; [|split; [|split; [|split]]]].
  - intros x. rewrite Hv', Hv. split.
    + intros [(d & Hd & Hx)|Hx].
      * exists d. split; [apply elem_of_app; by left|done].
      * exists c. split; [apply elem_of_app; right; by apply list_elem_of_singleton|done].
    + intros (d & Hd & Hx). apply elem_of_app in Hd as [Hd|Hd]; [left; eauto|].
      apply list_elem_of_singleton in Hd as ->. by right.
  - intros k'. rewrite elem_of_app, list_elem_of_singleton, Hv'.
    intros [?| ->]; [left; by apply Hpre|by right].
  - intros x. rewrite Hv'. intros [Hx|Hx]; [by apply Hknown|].
    apply (rtc_link_known k x Hk). apply Hpath'. by left.
  - assert (Hold : forall i d, found !! i = Some d -> forall x, x ∈ c -> x ∉ d).
    { intros i d Hi x Hx Hxd. apply (Hd' x Hx). apply Hv. exists d.
      split; [by eapply list_elem_of_lookup_2|done]. }
    intros i j c1 c2 Hi Hj Hne x Hx1 Hx2.
    destruct (decide (i < length found)%nat) as [Hil|Hil];
      destruct (decide (j < length found)%nat) as [Hjl|Hjl].
    + rewrite lookup_app_l in Hi, Hj by done. by apply (Hdis i j c1 c2 Hi Hj Hne x).
    + rewrite lookup_app_l in Hi by done. rewrite lookup_app_r in Hj by lia.
      apply list_lookup_singleton_Some in Hj as [_ <-]. by apply (Hold i c1 Hi x).
    + rewrite lookup_app_r in Hi by lia. rewrite lookup_app_l in Hj by done.
      apply list_lookup_singleton_Some in Hi as [_ <-]. by apply (Hold j c2 Hj x).
    + rewrite lookup_app_r in Hi, Hj by lia.
      apply list_lookup_singleton_Some in Hi as [Hi0 _].
      apply list_lookup_singleton_Some in Hj as [Hj0 _]. lia.
  - intros d Hd. apply elem_of_app in Hd as [Hd|Hd]; [by apply Hseed|].
    apply list_elem_of_singleton in Hd as ->. exists k. split; [done|].
    intros x Hx. apply Hpath'. by left.
  - intros i d x y Hi Hx Hl.
    destruct (decide (i < length found)%nat) as [Hil|Hil].
    + rewrite lookup_app_l in Hi by done.
      destruct (Hcl i d x y Hi Hx Hl) as (j & d' & Hle & Hj & Hy).
      exists j, d'. split; [done|]. split; [|done].
      rewrite lookup_app_l; [done|]. apply lookup_lt_Some in Hj. lia.
    + rewrite lookup_app_r in Hi by lia.
      apply list_lookup_singleton_Some in Hi as [Hi0 <-].
      destruct (Hcl' x y Hx Hl) as [Hy|Hq]; [|by apply elem_of_nil in Hq].
      apply Hv' in Hy as [Hy|Hy].
      * apply Hv in Hy as (d' & Hd & Hy). apply list_elem_of_lookup in Hd as [j Hj].
        exists j, d'. split; [apply lookup_lt_Some in Hj; lia|].
        split; [by rewrite lookup_app_l by (by eapply lookup_lt_Some)|done].
      * exists i, c. split; [done|]. split; [|done].
        rewrite lookup_app_r by lia.
        by replace (i - length found)%nat with 0%nat by lia.
Qed.

Lemma found_components found visited :
  for_each (component_step segments) (od_keys segments) (∅, []) = Ok (visited, found) ->
  found_inv (od_keys segments) (visited, found).
Proof.
  apply (for_each_prefix_inv found_inv).
  - split; [|split; [|split; [|split; [|split]]]]; cbn [fst snd].
    + intros x. rewrite elem_of_empty. split; [done|].
      intros (c & Hc & _). by apply elem_of_nil in Hc.
    + intros k Hk. by apply elem_of_nil in Hk.
    + intros x Hx. by apply elem_of_empty in Hx.
    + intros i j c d Hi. done.
    + intros c Hc. by apply elem_of_nil in Hc.
    + intros i c x y Hi. done.
  - intros pre x post t t' Hxs. apply component_step_inv.
    apply od_get_keys. rewrite Hxs. apply elem_of_app. right. by left.
Qed.
End Components.

Lemma by_size_desc_total a b : by_size_desc a b = true \/ by_size_desc b a = true.
Proof.
  unfold by_size_desc. destruct (size b <=? size a)%nat eqn:E; [by left|right].
  apply Nat.leb_gt in E. apply Nat.leb_le. lia.
Qed.

Lemma by_size_desc_trans a b c :
  by_size_desc a b = true -> by_size_desc b c = true -> by_size_desc a c = true.
Proof. unfold by_size_desc. rewrite !Nat.leb_le. lia. Qed.

Lemma strongly_sorted_impl {A} (R R' : A -> A -> Prop) l :
  (forall a b, R a b -> R' a b) -> StronglySorted R l -> StronglySorted R' l.
Proof.
  intros HR. induction 1 as [|a l _ IH Ha]; constructor; [done|].
  eapply Forall_impl; [exact Ha|]. intros b. apply HR.
Qed.

Lemma components_partition_spec segments comps :
  find_connected_components segments = Ok comps ->
  (forall k, k ∈ od_keys segments <-> exists c, c ∈ comps /\ k ∈ c) /\
  NoDup comps /\
  (forall c d x, c ∈ comps -> d ∈ comps -> x ∈ c -> x ∈ d -> c = d) /\
  (forall c, c ∈ comps ->
     exists seed, seed ∈ c /\ forall x, x ∈ c -> rtc (link segments) seed x) /\
  StronglySorted (fun c d => (size d <= size c)%nat) comps.
Proof.
  unfold find_connected_components. intros Hr. inv_bind Hr.
  destruct a as [visited found]. injection Hr as <-. cbn [snd].
  apply found_components in Ha as (Hv & Hpre & Hknown & Hdis & Hseed & _).
  cbn [fst snd] in *.
  pose proof (sorted_by_perm by_size_desc found) as Hperm.
  assert (Helem : forall c, c ∈ sorted_by by_size_desc found <-> c ∈ found).
  { intros c. by rewrite Hperm. }
  assert (Hnd : NoDup found).
  { apply NoDup_alt. intros i j c Hi Hj.
    destruct (decide (i = j)) as [|Hne]; [done|].
    destruct (Hseed c) as (seed & Hs & _); [by eapply list_elem_of_lookup_2|].
    by destruct (Hdis i j c c Hi Hj Hne seed). }
  split; [|split; [|split; [|split]]].
  - intros k. split.
    + intros Hk. apply Hpre, Hv in Hk as (c & Hc & Hkc). exists c. by rewrite Helem.
    + intros (c & Hc & Hkc). apply known_keys, Hknown, Hv. exists c. by rewrite <- Helem.
  - by rewrite Hperm.
  - intros c d x Hc Hd Hxc Hxd. apply Helem in Hc, Hd.
    apply list_elem_of_lookup in Hc as [i Hi]. apply list_elem_of_lookup in Hd as [j Hj].
    destruct (decide (i = j)) as [->|Hne]; [congruence|].
    by destruct (Hdis i j c d Hi Hj Hne x).
  - intros c Hc. apply Hseed. by apply Helem.
  - eapply strongly_sorted_impl;
      [|apply (sorted_by_sorted by_size_desc by_size_desc_total by_size_desc_trans)].
    intros c d Hcd. unfold by_size_desc in Hcd. by apply Nat.leb_le in Hcd.
Qed.

(** Every link of the collection has its inverse: [b] is listed by [a]
    exactly when [a] is listed by [b]. *)
Definition links_symmetric (segments : odict segment) : Prop :=
  forall a b, link segments a b -> link segments b a.

Lemma components_link_classes_spec segments comps :
  links_symmetric segments ->
  find_connected_components segments = Ok comps ->
  forall x y, x ∈ od_keys segments ->
    ((exists c, c ∈ comps /\ x ∈ c /\ y ∈ c) <-> rtc (link segments) x y).
Proof.
  intros Hsym Hr. unfold find_connected_components in Hr. inv_bind Hr.
  destruct a as [visited found]. injection Hr as <-. cbn [snd].
  apply found_components in Ha as (Hv & Hpre & Hknown & Hdis & Hseed & Hcl).
  cbn [fst snd] in *.
  assert (Helem : forall c, c ∈ sorted_by by_size_desc found <-> c ∈ found).
  { intros c. by rewrite (sorted_by_perm by_size_desc found). }
  assert (Hback : forall a b, rtc (link segments) a b -> rtc (link segments) b a).
  { intros a b Hab. induction Hab as [|a c b Hac _ IH]; [apply rtc_refl|].
    eapply rtc_r; [exact IH|]. by apply Hsym. }
  assert (Hstay : forall i c a b, found !! i = Some c -> a ∈ c -> link segments a b ->
            b ∈ c).
  { intros i c a b Hi Ha Hl.
    destruct (Hcl i c a b Hi Ha Hl) as (j & d & Hle & Hj & Hb).
    destruct (Hcl j d b a Hj Hb (Hsym _ _ Hl)) as (j' & d' & Hle' & Hj' & Ha').
    destruct (decide (i = j')) as [->|Hne].
    - assert (j = j') as -> by lia. congruence.
    - by destruct (Hdis i j' c d' Hi Hj' Hne a). }
  intros x y Hx. split.
  - intros (c & Hc & Hxc & Hyc). apply Helem in Hc.
    destruct (Hseed c Hc) as (seed & _ & Hpath).
    etrans; [apply Hback, Hpath, Hxc|by apply Hpath].
  - intros Hxy. apply Hpre, Hv in Hx as (c & Hc & Hxc).
    exists c. split; [by apply Helem|]. split; [done|].
    apply list_elem_of_lookup in Hc as [i Hi].
    induction Hxy as [|a m b Ham _ IH]; [done|].
    apply IH. by eapply Hstay.
Qed.

(** X7. The components partition the collection.  Every record id is in
    one component, no id is in two, no component is empty or occurs twice;
    each component has a member from which every other member is reached
    along successor and predecessor entries; and the list is in order of
    decreasing size. *)
Theorem components_partition segments comps :
  find_connected_components segments = Ok comps ->
  (forall k, k ∈ od_keys segments <-> exists c, c ∈ comps /\ k ∈ c) /\
  NoDup comps /\
  (forall c d x, c ∈ comps -> d ∈ comps -> x ∈ c -> x ∈ d -> c = d) /\
  (forall c, c ∈ comps ->
     exists seed, seed ∈ c /\ forall x, x ∈ c -> rtc (link segments) seed x) /\
  StronglySorted (fun c d => (size d <= size c)%nat) comps.
Proof. apply components_partition_spec. Qed.

(** X8. When every link has its inverse, the components are the
    connected components of the link graph: two records are in the same
    component exactly when a chain of links joins them. *)
Theorem components_are_link_classes segments comps :
  links_symmetric segments ->
  find_connected_components segments = Ok comps ->
  forall x y, x ∈ od_keys segments ->
    ((exists c, c ∈ comps /\ x ∈ c /\ y ∈ c) <-> rtc (link segments) x y).
Proof. apply components_link_classes_spec. Qed.

(** ** [find_reachable_from_entries] *)

Section Reachability.
Variable segments : odict segment.

(** [follows a b]: [b] is a successor entry of the record [a], and is itself
    a record of the collection. *)
Definition follows (a b : string) : Prop :=
  exists sa, od_get segments a = Some sa /\ b ∈ successors sa /\
    is_Some (od_get segments b).

(** The ids that start the search: [seg_id for seg_id, seg in
    segments.items() if seg.get('isEntry', False)]. *)
Definition entry (k : string) : Prop :=
  exists s, (k, s) ∈ segments /\ isEntry s = true.

Definition reached (x : string) : Prop := exists e, entry e /\ rtc follows e x.

Lemma entry_keys k :
  k ∈ od_keys (filter (fun kv : string * segment => isEntry kv.2 = true) segments)
  <-> entry k.
Proof.
  unfold od_keys, entry. rewrite list_elem_of_fmap. split.
  - intros ([k' s] & -> & Hin). apply list_elem_of_filter in Hin as [He Hin]. eauto.
  - intros (s & Hin & He). exists (k, s). split; [done|].
    by apply list_elem_of_filter.
Qed.

Definition reach_inv (queue : list string) (reachable : gset string) : Prop :=
  (forall x, x ∈ reachable \/ x ∈ queue -> reached x) /\
  (forall e, entry e -> e ∈ reachable \/ e ∈ queue) /\
  (forall x y, x ∈ reachable -> follows x y -> y ∈ reachable \/ y ∈ queue).

Lemma bfs_reachable_inv budget : forall queue reachable r,
  bfs_reachable budget segments queue reachable = Ok r ->
  reach_inv queue reachable -> reach_inv [] r.
Proof.
  induction budget as [|budget IH]; intros queue reachable r Hr Hinv.
  - destruct queue; simpl in Hr; [|done]. by injection Hr as <-.
  - destruct queue as [|cur queue]; simpl in Hr; [by injection Hr as <-|].
    destruct Hinv as (Hsound & Hentry & Hcl).
    assert (Hcur : reached cur) by (apply Hsound; right; by left).
    destruct (decide (cur ∈ reachable)) as [Hin|Hnin].
    + apply (IH _ _ _ Hr). split; [|split].
      * intros x [?|?]; apply Hsound; [by left|right; by right].
      * intros e He. destruct (Hentry e He) as [?|Hq]; [by left|].
        apply elem_of_cons in Hq as [->|?]; [by left|by right].
      * intros x y Hx Hf. destruct (Hcl x y Hx Hf) as [?|Hq]; [by left|].
        apply elem_of_cons in Hq as [->|?]; [by left|by right].
    + destruct (od_get segments cur) as [seg|] eqn:Hseg; apply (IH _ _ _ Hr).
      * split; [|split].
        -- intros x. rewrite elem_of_union, elem_of_singleton, elem_of_app.
           intros [[Hx| ->]|[Hx|Hx]].
           ++ apply Hsound. by left.
           ++ done.
           ++ apply Hsound. right. by right.
           ++ apply unseen_known_elem in Hx as (Hx & _ & Hk).
              destruct Hcur as (e & He & Hpath). exists e. split; [done|].
              eapply rtc_r; [exact Hpath|]. by exists seg.
        -- intros e He. rewrite elem_of_union, elem_of_singleton, elem_of_app.
           destruct (Hentry e He) as [?|Hq]; [by left; left|].
           apply elem_of_cons in Hq as [->|?]; [left; by right|right; by left].
        -- intros x y. rewrite !elem_of_union, !elem_of_singleton, elem_of_app.
           intros [Hx| ->] Hf.
           ++ destruct (Hcl x y Hx Hf) as [?|Hq]; [by left; left|].
              apply elem_of_cons in Hq as [->|?]; [left; by right|right; by left].
           ++ destruct (decide (y ∈ reachable ∪ {[cur]})) as [Hy|Hy].
              { left. by rewrite elem_of_union, elem_of_singleton in Hy. }
              right. right. destruct Hf as (sa & Ha & Hy' & Hk).
              rewrite Hseg in Ha. injection Ha as <-. by apply unseen_known_elem.
      * split; [|split].
        -- intros x. rewrite elem_of_union, elem_of_singleton.
           intros [[Hx| ->]|Hx]; [apply Hsound; by left|done|].
           apply Hsound. right. by right.
        -- intros e He. rewrite elem_of_union, elem_of_singleton.
           destruct (Hentry e He) as [?|Hq]; [by left; left|].
           apply elem_of_cons in Hq as [->|?]; [left; by right|by right].
        -- intros x y. rewrite !elem_of_union, !elem_of_singleton.
           intros [Hx| ->] Hf.
           ++ destruct (Hcl x y Hx Hf) as [?|Hq]; [by left; left|].
              apply elem_of_cons in Hq as [->|?]; [left; by right|by right].
           ++ destruct Hf as (sa & Ha & _). congruence.
Qed.
End Reachability.

Lemma reachable_closure_spec segments r :
  find_reachable_from_entries segments = Ok r ->
  (forall x, x ∈ r <->
     exists e, entry segments e /\ rtc (follows segments) e x) /\
  (forall x, x ∈ r -> x ∈ od_keys segments).
Proof.
  unfold find_reachable_from_entries. cbv zeta. intros Hr.
  apply bfs_reachable_inv in Hr as (Hsound & Hentry & Hcl).
  2:{ split; [|split].
      - intros x [Hx|Hx]; [by apply elem_of_empty in Hx|].
        apply entry_keys in Hx. exists x. split; [done|apply rtc_refl].
      - intros e He. right. by apply entry_keys.
      - intros x y Hx. by apply elem_of_empty in Hx. }
  assert (Hiff : forall x, x ∈ r <-> reached segments x).
  { intros x. split; [intros Hx; apply Hsound; by left|].
    intros (e & He & Hpath).
    assert (Hin : e ∈ r).
    { destruct (Hentry e He) as [?|Hq]; [done|]. by apply elem_of_nil in Hq. }
    clear He. induction Hpath as [|a b c Hab _ IH]; [done|]. apply IH.
    destruct (Hcl a b Hin Hab) as [?|Hq]; [done|]. by apply elem_of_nil in Hq. }
  split; [exact Hiff|].
  intros x Hx. apply Hiff in Hx as (e & (s & Hin & _) & Hpath).
  assert (He : e ∈ od_keys segments).
  { unfold od_keys. by apply (list_elem_of_fmap_2 fst _ (e, s)). }
  clear Hin. induction Hpath as [|a b c Hab _ IH]; [done|]. apply IH.
  destruct Hab as (_ & _ & _ & Hk). by apply known_keys.
Qed.

(** X9. The set that [find_reachable_from_entries] returns holds
    exactly the records reached from an entry record along successor entries
    that name records of the collection; every member is a record of the
    collection. *)
Theorem reachable_is_forward_closure segments r :
  find_reachable_from_entries segments = Ok r ->
  (forall x, x ∈ r <->
     exists e, entry segments e /\ rtc (follows segments) e x) /\
  (forall x, x ∈ r -> x ∈ od_keys segments).
Proof. apply reachable_closure_spec. Qed.

(** ** [count_dead_ends] *)

Definition dead_end (s : segment) : bool := (length (successors s) =? 0)%nat.

(** [nodes.get(end_node_id, {}).get('isBoundary', False)]. *)
Definition ends_at_boundary (nodes : odict RoadNode) (s : segment) : bool :=
  match od_get nodes (endNodeId s) with
  | Some end_node => isBoundary end_node
  | None => false
  end.

Lemma dead_end_step_cases nodes s st :
  dead_end_step nodes s st
  = if dead_end s
    then if ends_at_boundary nodes s then (st.1, S st.2) else (S st.1, st.2)
    else st.
Proof.
  unfold dead_end_step, dead_end, ends_at_boundary.
  destruct (length (successors s) =? 0)%nat; [|done].
  destruct (od_get nodes (endNodeId s)) as [n|]; [|done]. by destruct (isBoundary n).
Qed.

Lemma dead_end_nil s : dead_end s = true <-> successors s = [].
Proof.
  unfold dead_end. rewrite Nat.eqb_eq. by destruct (successors s).
Qed.

Lemma count_dead_ends_fold nodes : forall (l : list segment) (st : nat * nat),
  fold_left (fun st s => dead_end_step nodes s st) l st
  = ((st.1 + length (filter (fun s => dead_end s && negb (ends_at_boundary nodes s) = true) l))%nat,
     (st.2 + length (filter (fun s => dead_end s && ends_at_boundary nodes s = true) l))%nat).
Proof.
  induction l as [|s l IH]; intros [i b]; simpl.
  - f_equal; lia.
  - rewrite IH, dead_end_step_cases. cbn [fst snd].
    destruct (dead_end s) eqn:Ed; destruct (ends_at_boundary nodes s) eqn:Eb; cbn [fst snd].
    + rewrite filter_cons_False by (rewrite Ed, Eb; done).
      rewrite filter_cons_True by (rewrite Ed, Eb; done). simpl. f_equal; lia.
    + rewrite filter_cons_True by (rewrite Ed, Eb; done).
      rewrite filter_cons_False by (rewrite Ed, Eb; done). simpl. f_equal; lia.
    + rewrite !filter_cons_False by (rewrite Ed; done). done.
    + rewrite !filter_cons_False by (rewrite Ed; done). done.
Qed.

Lemma dead_ends_fold_sum segments nodes :
  ((count_dead_ends segments nodes).1 + (count_dead_ends segments nodes).2
   = length (filter (fun s => successors s = []) (od_values segments)))%nat.
Proof.
  unfold count_dead_ends. rewrite count_dead_ends_fold. cbn [fst snd].
  simpl. induction (od_values segments) as [|s l IH]; [done|].
  destruct (dead_end s) eqn:Ed.
  - pose proof (proj1 (dead_end_nil s) Ed) as Hnil.
    rewrite (filter_cons_True (fun s => successors s = [])) by done.
    destruct (ends_at_boundary nodes s) eqn:Eb.
    + rewrite filter_cons_False by (rewrite Ed, Eb; done).
      rewrite filter_cons_True by (rewrite Ed, Eb; done). simpl. lia.
    + rewrite filter_cons_True by (rewrite Ed, Eb; done).
      rewrite filter_cons_False by (rewrite Ed, Eb; done). simpl. lia.
  - assert (Hnn : successors s <> []).
    { intros Hnil. apply dead_end_nil in Hnil. congruence. }
    rewrite (filter_cons_False (fun s => successors s = [])) by done.
    rewrite !filter_cons_False by (rewrite Ed; done). exact IH.
Qed.

(** X10. Every record without successors is counted once: as a boundary
    dead end when its end node is a node of the node file and is a boundary
    node, and as an interior dead end otherwise - also when [endNodeId]
    names no node.  A record with a successor is not counted. *)
Theorem dead_ends_counted_once segments nodes :
  count_dead_ends segments nodes
  = (length (filter (fun s => dead_end s && negb (ends_at_boundary nodes s) = true)
               (od_values segments)),
     length (filter (fun s => dead_end s && ends_at_boundary nodes s = true)
               (od_values segments))) /\
  ((count_dead_ends segments nodes).1 + (count_dead_ends segments nodes).2
   = length (filter (fun s => successors s = []) (od_values segments)))%nat.
Proof.
  split; [|apply dead_ends_fold_sum].
  unfold count_dead_ends. by rewrite count_dead_ends_fold.
Qed.

(** ** The dictionaries of the validator *)

(** [{key(v): v for v in l}] added to [d]. *)
Lemma dict_fold_keys {V} (key : V -> string) (l : list V) : forall d : odict V,
  NoDup (od_keys d) ->
  NoDup (od_keys (fold_left (fun d v => od_set d (key v) v) l d)) /\
  forall k, k ∈ od_keys (fold_left (fun d v => od_set d (key v) v) l d) <->
            k ∈ od_keys d \/ k ∈ map key l.
Proof.
  induction l as [|v l IH]; intros d Hnd; simpl.
  - split; [done|]. intros k. split; [by left|]. intros [?|Hk]; [done|].
    by apply elem_of_nil in Hk.
  - destruct (IH (od_set d (key v) v)) as [Hnd' Hk']; [by apply od_set_NoDup|].
    split; [done|]. intros k. rewrite Hk', od_set_keys, elem_of_cons.
    destruct (od_get d (key v)) eqn:Hg.
    + split; [tauto|]. intros [?|[->|?]]; [tauto| |tauto].
      left. apply known_keys. eauto.
    + rewrite elem_of_app, list_elem_of_singleton. tauto.
Qed.

Lemma dict_fold_unique {V} (key : V -> string) (l : list V) : forall d : odict V,
  NoDup (od_keys d ++ map key l) ->
  fold_left (fun d v => od_set d (key v) v) l d = d ++ map (fun v => (key v, v)) l.
Proof.
  induction l as [|v l IH]; intros d Hnd; simpl; [by rewrite app_nil_r|].
  assert (Hfresh : od_get d (key v) = None).
  { apply od_get_None_keys. apply NoDup_app in Hnd as (_ & Hd & _).
    intros Hin. apply (Hd _ Hin). by left. }
  rewrite (od_set_fresh _ _ _ Hfresh), IH.
  - by rewrite <- app_assoc.
  - unfold od_keys in *. rewrite fmap_app. simpl. rewrite <- app_assoc. exact Hnd.
Qed.

Lemma segment_dict_keys l :
  NoDup (od_keys (segment_dict l)) /\
  forall k, k ∈ od_keys (segment_dict l) <-> k ∈ map seg_id l.
Proof.
  destruct (dict_fold_keys seg_id l []) as [Hnd Hk]; [constructor|].
  split; [exact Hnd|]. intros k. unfold segment_dict. rewrite Hk.
  split; [|by right]. intros [Hn|?]; [by apply elem_of_nil in Hn|done].
Qed.

Lemma segment_dict_unique l :
  NoDup (map seg_id l) -> segment_dict l = map (fun s => (seg_id s, s)) l.
Proof. intros Hnd. unfold segment_dict. by rewrite dict_fold_unique. Qed.

Lemma node_dict_unique l :
  NoDup (map node_id l) -> node_dict l = map (fun n => (node_id n, n)) l.
Proof. intros Hnd. unfold node_dict. by rewrite dict_fold_unique. Qed.

Lemma unique_dict_values (l : list segment) :
  od_values (map (fun s => (seg_id s, s)) l) = l.
Proof. unfold od_values. induction l as [|s l IH]; [done|]. simpl. by f_equal. Qed.

Lemma unique_dict_get (l : list segment) k s :
  NoDup (map seg_id l) ->
  (od_get (map (fun s => (seg_id s, s)) l) k = Some s <-> s ∈ l /\ seg_id s = k).
Proof.
  intros Hnd. split.
  - intros Hg. apply od_get_elem, list_elem_of_fmap in Hg as (s' & [= -> <-] & Hin).
    done.
  - intros [Hin <-]. apply od_elem_get.
    + unfold od_keys. rewrite <- list_fmap_compose. exact Hnd.
    + apply list_elem_of_fmap. by exists s.
Qed.

(** ** Counts of the report *)

Lemma disjoint_sets_count (comps : list (gset string)) : forall K : gset string,
  (forall c, c ∈ comps -> (exists x, x ∈ c) /\ c ⊆ K) ->
  NoDup comps ->
  (forall c d x, c ∈ comps -> d ∈ comps -> x ∈ c -> x ∈ d -> c = d) ->
  (length comps <= size K)%nat.
Proof.
  induction comps as [|c comps IH]; intros K Hin Hnd Hdis; simpl; [lia|].
  apply NoDup_cons in Hnd as [Hc Hnd].
  destruct (Hin c) as [[x Hx] HcK]; [by left|].
  assert (Hlt : (size (K ∖ c) < size K)%nat).
  { apply subset_size. split.
    - intros y Hy. by apply elem_of_difference in Hy as [? _].
    - intros Hsub. assert (Hxd : x ∈ K ∖ c) by (apply Hsub; by apply HcK).
      by apply elem_of_difference in Hxd as [_ ?]. }
  specialize (IH (K ∖ c)). assert (length comps <= size (K ∖ c))%nat; [|lia].
  apply IH; [|done|].
  - intros d Hd. destruct (Hin d) as [Hne HdK]; [by right|]. split; [done|].
    intros y Hy. apply elem_of_difference. split; [by apply HdK|].
    intros Hyc. assert (c = d); [|by subst].
    apply (Hdis c d y); [by left|by right|done|done].
  - intros d e y Hd He. apply Hdis; by right.
Qed.

Lemma analyse_stages sl nl a :
  analyse sl nl = Ok a ->
  exists comps r,
    find_connected_components (segment_dict sl) = Ok comps /\
    find_reachable_from_entries (segment_dict sl) = Ok r /\
    compute_statistics (segment_dict sl) = Ok (a_stats a) /\
    a_totalSegments a = length (segment_dict sl) /\
    a_totalNodes a = length (node_dict nl) /\
    a_componentCount a = length comps /\
    a_largest_size a = match comps with c :: _ => size c | [] => 0%nat end /\
    a_reachable a = size r /\
    (a_interior_dead a, a_boundary_dead a)
    = count_dead_ends (segment_dict sl) (node_dict nl).
Proof.
  unfold analyse. cbv zeta. intros Ha.
  inv_bind Ha. rename a0 into comps, Ha0 into Hc.
  inv_bind Ha. inv_bind Ha. rename a1 into r, Ha1 into Hr.
  inv_bind Ha.
  destruct (count_dead_ends (segment_dict sl) (node_dict nl)) as [i b] eqn:Hd.
  inv_bind Ha. inv_bind Ha. injection Ha as <-. simpl.
  exists comps, r. by repeat split.
Qed.

(** X11. The counts of the report stay within the collection: the
    number of segments is the number of distinct ids in the graph file; the
    largest component, the reachable set, the dead ends, the entry points,
    the major segments and the number of components never exceed it; and
    there is a component exactly when there is a segment. *)
Theorem report_counts_bounded sl nl report :
  validate_graph sl nl = Ok report ->
  totalSegments report = size (list_to_set (map seg_id sl) : gset string) /\
  (largestComponentSize report <= totalSegments report)%nat /\
  (reachableFromEntries report <= totalSegments report)%nat /\
  (interiorDeadEnds report + boundaryDeadEnds report <= totalSegments report)%nat /\
  (componentCount report <= totalSegments report)%nat /\
  (r_entryPointCount report <= totalSegments report)%nat /\
  (r_majorSegmentCount report <= totalSegments report)%nat /\
  (componentCount report = 0%nat <-> totalSegments report = 0%nat) /\
  (largestComponentSize report = 0%nat <-> totalSegments report = 0%nat).
Proof.
  unfold validate_graph. intros Hv. inv_bind Hv. injection Hv as <-. simpl.
  destruct (analyse_stages _ _ _ Ha)
    as (comps & r & Hc & Hr & Hs & -> & _ & -> & -> & -> & Hd).
  set (segments := segment_dict sl) in *.
  destruct (segment_dict_keys sl) as [Hnd Hkeys]. fold segments in Hnd, Hkeys.
  set (K := list_to_set (od_keys segments) : gset string).
  assert (HK : size K = length segments).
  { unfold K. rewrite size_list_to_set by done. unfold od_keys. by rewrite length_fmap. }
  assert (HK' : K = list_to_set (map seg_id sl)).
  { apply set_eq. intros k. unfold K. rewrite !elem_of_list_to_set. apply Hkeys. }
  destruct (components_partition_spec _ _ Hc) as (Hpart & Hndc & Hdis & Hseed & Hsort).
  assert (Hsub : forall c, c ∈ comps -> (exists x, x ∈ c) /\ c ⊆ K).
  { intros c Hin. split.
    - destruct (Hseed c Hin) as (seed & ? & _). eauto.
    - intros x Hx. unfold K. apply elem_of_list_to_set, Hpart. eauto. }
  destruct (reachable_closure_spec _ _ Hr) as [_ Hrk].
  assert (Hlargest : (match comps with c :: _ => size c | [] => 0 end <= size K)%nat).
  { destruct comps as [|c comps']; [lia|]. apply subseteq_size, Hsub. by left. }
  assert (Hcount : (length comps <= size K)%nat) by (by apply disjoint_sets_count).
  unfold compute_statistics in Hs. cbv zeta in Hs. inv_bind Hs. inv_bind Hs.
  injection Hs as Hs. rewrite <- Hs. simpl.
  assert (Hvals : length (od_values segments) = length segments)
    by (unfold od_values; by rewrite length_fmap).
  split; [by rewrite <- HK, HK'|]. rewrite <- HK.
  split; [done|]. split.
  { apply subseteq_size. intros x Hx. unfold K. by apply elem_of_list_to_set, Hrk. }
  split.
  { pose proof (dead_ends_fold_sum segments (node_dict nl)) as Hsum.
    rewrite <- Hd in Hsum. simpl in Hsum. rewrite Hsum, HK, <- Hvals.
    apply length_filter. }
  split; [done|].
  split; [rewrite HK, <- Hvals; apply count_if_le|].
  split; [rewrite HK, <- Hvals; apply count_if_le|].
  assert (Hzero : length comps = 0%nat <-> size K = 0%nat).
  { split.
    - intros Hz. destruct comps; [|done]. rewrite HK.
      destruct (od_keys segments) as [|k ks] eqn:E.
      + unfold od_keys in E. apply fmap_nil_inv in E. by rewrite E.
      + destruct (proj1 (Hpart k)) as (c & Hin & _); [by left|].
        by apply elem_of_nil in Hin.
    - intros Hz. lia. }
  split; [exact Hzero|]. split.
  - intros Hz. destruct comps as [|c comps']; [by apply Hzero|].
    destruct (Hseed c) as (seed & Hs' & _); [by left|].
    apply size_empty_inv in Hz. apply Hz in Hs'. by apply elem_of_empty in Hs'.
  - intros Hz. lia.
Qed.

(** ** The validator on a graph that [main] wrote *)

Section Composition.
Variable atan2_deg : Q -> Q -> Q.
Variable sqrt : Q -> Q.

(** Successor and predecessor entries mirror each other after
    [build_adjacency]. *)
Lemma adjacency_mirrored segs nodes sm em segs' :
  build_adjacency atan2_deg segs nodes sm em = Ok segs' ->
  (forall S cid, S ∈ segs' -> cid ∈ successors S ->
     exists C, C ∈ segs' /\ seg_id C = cid /\ seg_id S ∈ predecessors C) /\
  (forall S pid, S ∈ segs' -> pid ∈ predecessors S ->
     exists P, P ∈ segs' /\ seg_id P = pid /\ seg_id S ∈ successors P).
Proof.
  intros Hb.
  destruct (build_adjacency_spec _ _ _ _ _ _ Hb) as (Hids & _ & Hmem & Hres & _).
  assert (Hname : forall cid j C, make_seg_map segs !! cid = Some j ->
            segs' !! j = Some C -> seg_id C = cid).
  { intros cid j C Hj HC. apply make_seg_map_lookup in Hj as (s & Hs & <-).
    destruct (agree_lookup _ _ _ _ _ Hids HC) as (s' & Hs' & Hid). congruence. }
  split.
  - intros S cid HS Hin.
    destruct (Hres S cid HS Hin) as (j & Hj & Hlt).
    destruct (lookup_lt_is_Some_2 _ _ Hlt) as [C HC].
    exists C. split; [by eapply list_elem_of_lookup_2|]. split; [by eapply Hname|].
    apply (Hmem j C (seg_id S) HC). by exists S, cid.
  - intros S pid HS Hin. apply list_elem_of_lookup in HS as [j Hj].
    apply (Hmem j S pid Hj) in Hin as (P & cid & HP & Hid & Hin & Hc).
    exists P. split; [done|]. split; [done|]. by rewrite (Hname cid j S Hc Hj).
Qed.

Lemma mirrored_after_augment nodes sm em segs1 segs2 :
  augment_segments sqrt segs1 nodes sm em = Ok segs2 ->
  (forall S cid, S ∈ segs1 -> cid ∈ successors S ->
     exists C, C ∈ segs1 /\ seg_id C = cid /\ seg_id S ∈ predecessors C) ->
  (forall S pid, S ∈ segs1 -> pid ∈ predecessors S ->
     exists P, P ∈ segs1 /\ seg_id P = pid /\ seg_id S ∈ successors P) ->
  (forall S cid, S ∈ segs2 -> cid ∈ successors S ->
     exists C, C ∈ segs2 /\ seg_id C = cid /\ seg_id S ∈ predecessors C) /\
  (forall S pid, S ∈ segs2 -> pid ∈ predecessors S ->
     exists P, P ∈ segs2 /\ seg_id P = pid /\ seg_id S ∈ successors P).
Proof.
  intros Ha H1 H2. destruct (augment_segments_fields _ _ _ _ _ _ Ha) as [Hf Hadj].
  assert (Hdown : forall s2, s2 ∈ segs2 -> exists s1, s1 ∈ segs1 /\
            seg_id s1 = seg_id s2 /\ successors s1 = successors s2 /\
            predecessors s1 = predecessors s2).
  { intros s2 Hs2. apply list_elem_of_lookup in Hs2 as [j Hj].
    destruct (agree_lookup _ _ _ _ _ Hf Hj) as (s1 & Hs1 & Hfs).
    destruct (agree_lookup _ _ _ _ _ Hadj Hj) as (s1' & Hs1' & Has).
    rewrite Hs1 in Hs1'. injection Hs1' as <-.
    exists s1. split; [by eapply list_elem_of_lookup_2|].
    unfold input_fields in Hfs. unfold adjacency_fields in Has.
    injection Hfs as ? _ _ _ _. injection Has as _ _ ? ?. done. }
  assert (Hup : forall s1, s1 ∈ segs1 -> exists s2, s2 ∈ segs2 /\
            seg_id s2 = seg_id s1 /\ successors s2 = successors s1 /\
            predecessors s2 = predecessors s1).
  { intros s1 Hs1. apply list_elem_of_lookup in Hs1 as [j Hj].
    destruct (agree_fields_lookup _ _ _ _ _ Hf Hj) as (s2 & Hs2 & Hfs).
    destruct (agree_fields_lookup _ _ _ _ _ Hadj Hj) as (s2' & Hs2' & Has).
    rewrite Hs2 in Hs2'. injection Hs2' as <-.
    exists s2. split; [by eapply list_elem_of_lookup_2|].
    unfold input_fields in Hfs. unfold adjacency_fields in Has.
    injection Hfs as ? _ _ _ _. injection Has as _ _ ? ?. done. }
  split.
  - intros S cid HS Hin. destruct (Hdown S HS) as (S1 & HS1 & Hid & Hsu & Hpr).
    rewrite <- Hsu in Hin. destruct (H1 S1 cid HS1 Hin) as (C1 & HC1 & HidC & Hp).
    destruct (Hup C1 HC1) as (C & HC & HidC' & _ & HprC).
    exists C. split; [done|]. split; [congruence|]. rewrite HprC, <- Hid. done.
  - intros S pid HS Hin. destruct (Hdown S HS) as (S1 & HS1 & Hid & Hsu & Hpr).
    rewrite <- Hpr in Hin. destruct (H2 S1 pid HS1 Hin) as (P1 & HP1 & HidP & Hs).
    destruct (Hup P1 HP1) as (P & HP & HidP' & HsuP & _).
    exists P. split; [done|]. split; [congruence|]. rewrite HsuP, <- Hid. done.
Qed.

Lemma mirrored_links_symmetric (l : list segment) :
  NoDup (map seg_id l) ->
  (forall S cid, S ∈ l -> cid ∈ successors S ->
     exists C, C ∈ l /\ seg_id C = cid /\ seg_id S ∈ predecessors C) ->
  (forall S pid, S ∈ l -> pid ∈ predecessors S ->
     exists P, P ∈ l /\ seg_id P = pid /\ seg_id S ∈ successors P) ->
  links_symmetric (segment_dict l).
Proof.
  intros Hnd H1 H2 a b (sa & Ha & Hab & _).
  rewrite (segment_dict_unique l Hnd) in *.
  pose proof Ha as Ha'. apply (unique_dict_get l a sa Hnd) in Ha' as [Hin Hid].
  destruct Hab as [Hs|Hp].
  - destruct (H1 sa b Hin Hs) as (C & HC & HidC & Hp).
    exists C. split; [by apply unique_dict_get|]. split; [right; by rewrite <- Hid|eauto].
  - destruct (H2 sa b Hin Hp) as (P & HP & HidP & Hs).
    exists P. split; [by apply unique_dict_get|]. split; [left; by rewrite <- Hid|eauto].
Qed.

(** X12. The validator on the files that [main] wrote for an input with
    unique segment ids.  It counts the segments and nodes that [main]
    counted, and the same entry points and major segments; the two averages
    of the report are equal; and its components are the connected components
    of the successor links taken in both directions. *)
Theorem validator_on_augmented_graph segs out :
  NoDup (map seg_id segs) ->
  augment_main atan2_deg sqrt segs = Ok out ->
  exists report comps,
    validate_graph (out_segments out) (out_nodes out) = Ok report /\
    totalSegments report = length segs /\
    totalNodes report = nodeCount out /\
    r_entryPointCount report = entryPointCount out /\
    r_majorSegmentCount report = majorSegmentCount out /\
    avgSuccessors report = avgPredecessors report /\
    find_connected_components (segment_dict (out_segments out)) = Ok comps /\
    componentCount report = length comps /\
    forall x y, x ∈ map seg_id segs ->
      ((exists c, c ∈ comps /\ x ∈ c /\ y ∈ c) <->
       rtc (link (segment_dict (out_segments out))) x y).
Proof.
  intros Hnd Hm.
  destruct (augment_main_stages atan2_deg sqrt segs out Hm)
    as (bounds & nodes & sm & em & segs1 & _ & Hn & H1 & H2 & Hon & Hnc & Hmc & Hec & Hts & _).
  pose proof (build_adjacency_fields _ _ _ _ _ _ H1) as Hf1.
  destruct (augment_segments_fields _ _ _ _ _ _ H2) as [Hf2 Ha2].
  assert (Hf : agree input_fields (out_segments out) segs) by (by eapply agree_trans).
  assert (Hids : map seg_id (out_segments out) = map seg_id segs)
    by (by apply input_fields_ids).
  assert (Hnd2 : NoDup (map seg_id (out_segments out))) by (by rewrite Hids).
  destruct (adjacency_mirrored _ _ _ _ _ H1) as [M1 M2].
  destruct (mirrored_after_augment _ _ _ _ _ H2 M1 M2) as [N1 N2].
  pose proof (mirrored_links_symmetric _ Hnd2 N1 N2) as Hsym.
  destruct (analyse_total (out_segments out) (out_nodes out)) as (a & Ha & _).
  destruct (analyse_stages _ _ _ Ha)
    as (comps & r & Hc & Hr & Hs & Htot & Htn & Hcc & _).
  exists (make_report a), comps.
  split; [unfold validate_graph; by rewrite Ha|]. simpl.
  assert (Hdict : segment_dict (out_segments out)
                  = map (fun s => (seg_id s, s)) (out_segments out))
    by (by apply segment_dict_unique).
  unfold compute_statistics in Hs. cbv zeta in Hs. inv_bind Hs. inv_bind Hs.
  injection Hs as Hs. rewrite <- Hs. simpl.
  rewrite Hdict, unique_dict_values in Ha0, Ha1 |- *.
  split; [rewrite Htot, Hdict, length_map; by eapply agree_length|].
  split.
  { rewrite Htn, Hnc, Hon.
    assert (Heps : exists eps, collect_endpoints segs = Ok eps).
    { unfold build_node_set in Hn. destruct (collect_endpoints segs); [eauto|done]. }
    destruct Heps as [eps Heps].
    destruct (build_node_set_spec bounds segs eps Heps) as (cl & nodes' & _ & _ & Hfor & Hn').
    rewrite Hn in Hn'. injection Hn' as -> _ _.
    rewrite node_dict_unique.
    - unfold od_values. by rewrite length_map, length_fmap.
    - rewrite (nodes_for_ids _ _ _ _ Hfor). by eapply nodes_for_NoDup. }
  split; [by rewrite Hec|]. split; [by rewrite Hmc|]. split.
  { assert (Hcount : count_links successors (out_segments out)
                     = count_links predecessors (out_segments out)).
    { destruct (build_adjacency_spec _ _ _ _ _ _ H1) as (_ & _ & _ & _ & Hcnt).
      assert (Hsu : count_links successors (out_segments out)
                    = count_links successors segs1).
      { apply count_links_agree. unfold agree in *.
        assert (Hq : map (fun t : Q * Q * list string * list string => t.1.2)
                       (map adjacency_fields (out_segments out))
                   = map (fun t : Q * Q * list string * list string => t.1.2)
                       (map adjacency_fields segs1)) by congruence.
        by rewrite !map_map in Hq. }
      assert (Hpr : count_links predecessors (out_segments out)
                    = count_links predecessors segs1).
      { apply count_links_agree. unfold agree in *.
        assert (Hq : map (fun t : Q * Q * list string * list string => t.2)
                       (map adjacency_fields (out_segments out))
                   = map (fun t : Q * Q * list string * list string => t.2)
                       (map adjacency_fields segs1)) by congruence.
        by rewrite !map_map in Hq. }
      congruence. }
    rewrite Hcount in Ha0. rewrite Ha0 in Ha1. by injection Ha1 as ->. }
  split; [by rewrite <- Hdict|]. split; [done|].
  intros x y Hx. rewrite <- Hdict.
  apply (components_link_classes_spec _ _ Hsym Hc).
  apply segment_dict_keys. by rewrite Hids.
Qed.
End Composition.

(** ** [compute_data_bounds]: the extent is tight *)

Lemma fold_min_elem xs : forall x, fold_left py_min xs x ∈ x :: xs.
Proof.
  induction xs as [|a xs IH]; intros x; simpl; [by left|].
  specialize (IH (py_min x a)). apply elem_of_cons in IH as [->|IH].
  - unfold py_min. destruct (Qltb a x); [right; by left|by left].
  - right. by right.
Qed.

Lemma fold_max_elem xs : forall x, fold_left py_max xs x ∈ x :: xs.
Proof.
  induction xs as [|a xs IH]; intros x; simpl; [by left|].
  specialize (IH (py_max x a)). apply elem_of_cons in IH as [->|IH].
  - unfold py_max. destruct (Qltb x a); [right; by left|by left].
  - right. by right.
Qed.

Lemma min_list_elem xs m : min_list xs = Ok m -> m ∈ xs.
Proof. destruct xs as [|x xs]; [done|]. intros [= <-]. apply fold_min_elem. Qed.

Lemma max_list_elem xs m : max_list xs = Ok m -> m ∈ xs.
Proof. destruct xs as [|x xs]; [done|]. intros [= <-]. apply fold_max_elem. Qed.

Lemma all_coords_elem (f : Point3D -> Q) segs v :
  v ∈ concat (map (fun seg => map f (points seg)) segs) ->
  exists s p, s ∈ segs /\ p ∈ points s /\ v = f p.
Proof.
  intros Hv. apply elem_of_concat in Hv as (l & Hl & Hv).
  apply list_elem_of_fmap in Hl as (s & -> & Hs).
  apply list_elem_of_fmap in Hv as (p & -> & Hp). eauto.
Qed.

(** X13. [compute_data_bounds] fails, with [ValueError], exactly when no
    record has a point.  Otherwise the extent it returns contains every
    point of every record, and each of its four bounds is the coordinate of
    some point. *)
Theorem data_bounds_exact segs :
  (compute_data_bounds segs = Raise ValueError <->
   forall s, s ∈ segs -> points s = []) /\
  ((exists b, compute_data_bounds segs = Ok b) <->
   exists s, s ∈ segs /\ points s <> []) /\
  forall b, compute_data_bounds segs = Ok b ->
    (forall s p, s ∈ segs -> p ∈ points s ->
       xMin b <= pt_x p /\ pt_x p <= xMax b /\ zMin b <= pt_z p /\ pt_z p <= zMax b) /\
    (exists s p, s ∈ segs /\ p ∈ points s /\ xMin b = pt_x p) /\
    (exists s p, s ∈ segs /\ p ∈ points s /\ xMax b = pt_x p) /\
    (exists s p, s ∈ segs /\ p ∈ points s /\ zMin b = pt_z p) /\
    (exists s p, s ∈ segs /\ p ∈ points s /\ zMax b = pt_z p).
Proof.
  assert (Hcase : (forall s, s ∈ segs -> points s = []) \/
                  exists s p, s ∈ segs /\ p ∈ points s).
  { induction segs as [|s segs IH]; [left; intros s Hs; by apply elem_of_nil in Hs|].
    destruct (points s) as [|p pts] eqn:Ep.
    - destruct IH as [Hall|(s' & p & Hs' & Hp)].
      + left. intros s' Hs'. apply elem_of_cons in Hs' as [->|?]; auto.
      + right. exists s', p. split; [by right|done].
    - right. exists s, p. split; [by left|]. rewrite Ep. by left. }
  assert (Hempty : (forall s, s ∈ segs -> points s = []) ->
                   compute_data_bounds segs = Raise ValueError).
  { intros Hall. unfold compute_data_bounds. cbv zeta.
    rewrite (all_coords_nil pt_x segs); [done|].
    apply Forall_forall. intros s Hs. by rewrite (Hall s Hs). }
  split; [|split].
  - split; [|exact Hempty]. intros Hr.
    destruct Hcase as [?|(s & p & Hs & Hp)]; [done|].
    destruct (compute_data_bounds_total segs s p Hs Hp) as [b Hb]. congruence.
  - split.
    + intros [b Hb]. destruct Hcase as [Hall|(s & p & Hs & Hp)].
      * rewrite (Hempty Hall) in Hb. done.
      * exists s. split; [done|]. intros Hnil. rewrite Hnil in Hp.
        by apply elem_of_nil in Hp.
    + intros (s & Hs & Hne). destruct (points s) as [|p pts] eqn:Ep; [done|].
      apply (compute_data_bounds_total segs s p Hs). rewrite Ep. by left.
  - intros b Hb. split; [exact (compute_data_bounds_spec _ _ Hb)|].
    unfold compute_data_bounds in Hb. cbv zeta in Hb.
    inv_bind Hb. rename a into x0, Ha into Hx0.
    inv_bind Hb. rename a into x1, Ha into Hx1.
    inv_bind Hb. rename a into z0, Ha into Hz0.
    inv_bind Hb. rename a into z1, Ha into Hz1.
    injection Hb as <-. simpl.
    apply min_list_elem, all_coords_elem in Hx0.
    apply max_list_elem, all_coords_elem in Hx1.
    apply min_list_elem, all_coords_elem in Hz0.
    apply max_list_elem, all_coords_elem in Hz1. done.
Qed.

(** ** [compute_graph_version]: the format of the version *)

Definition hex_alphabet : list Ascii.ascii :=
  String.list_ascii_of_string "0123456789abcdef".

Lemma hex_digit_alphabet x : (0 <= x < 16)%Z -> MD5.hex_digit x ∈ hex_alphabet.
Proof.
  intros Hx.
  assert (Hc : (x = 0 \/ x = 1 \/ x = 2 \/ x = 3 \/ x = 4 \/ x = 5 \/ x = 6 \/ x = 7 \/
                x = 8 \/ x = 9 \/ x = 10 \/ x = 11 \/ x = 12 \/ x = 13 \/ x = 14 \/
                x = 15)%Z) by lia.
  repeat (destruct Hc as [->|Hc]; [apply (bool_decide_unpack _); by vm_compute|]).
  subst x. apply (bool_decide_unpack _). by vm_compute.
Qed.

Lemma le_bytes_range n x b : b ∈ MD5.le_bytes n x -> (0 <= b < 256)%Z.
Proof.
  unfold MD5.le_bytes. intros Hb. apply list_elem_of_fmap in Hb as (i & -> & _).
  change 255%Z with (Z.ones 8). rewrite Z.land_ones by lia.
  apply Z.mod_pos_bound. lia.
Qed.

Lemma le_bytes_length n x : length (MD5.le_bytes n x) = n.
Proof. unfold MD5.le_bytes. by rewrite length_map, length_seq. Qed.

Lemma digest_bytes msg :
  length (MD5.digest msg) = 16%nat /\
  forall b, b ∈ MD5.digest msg -> (0 <= b < 256)%Z.
Proof.
  unfold MD5.digest. cbv zeta.
  destruct (fold_left MD5.block _ MD5.init) as [[[a b] c] d].
  split.
  - by rewrite !length_app, !le_bytes_length.
  - intros x. rewrite !elem_of_app. intros [?|[?|[?|?]]]; by eapply le_bytes_range.
Qed.

Lemma hex_byte_chars b :
  (0 <= b < 256)%Z ->
  String.length (MD5.hex_byte b) = 2%nat /\
  forall c, c ∈ String.list_ascii_of_string (MD5.hex_byte b) -> c ∈ hex_alphabet.
Proof.
  intros Hb. unfold MD5.hex_byte. split; [done|]. simpl.
  intros c Hc. apply elem_of_cons in Hc as [->|Hc].
  - apply hex_digit_alphabet. rewrite Z.shiftr_div_pow2 by lia.
    change (2 ^ 4)%Z with 16%Z. split; [apply Z.div_pos; lia|].
    apply Z.div_lt_upper_bound; lia.
  - apply list_elem_of_singleton in Hc as ->. apply hex_digit_alphabet.
    change 15%Z with (Z.ones 4). rewrite Z.land_ones by lia.
    apply Z.mod_pos_bound. lia.
Qed.

Lemma list_ascii_app s t :
  String.list_ascii_of_string (s +:+ t)
  = String.list_ascii_of_string s ++ String.list_ascii_of_string t.
Proof. induction s as [|c s IH]; [done|]. simpl. by rewrite <- IH. Qed.

Lemma str_length_app s t :
  String.length (s +:+ t) = (String.length s + String.length t)%nat.
Proof. induction s as [|c s IH]; [done|]. simpl. by rewrite <- IH. Qed.

Lemma concat_hex bs :
  (forall b, b ∈ bs -> (0 <= b < 256)%Z) ->
  String.length (String.concat "" (map MD5.hex_byte bs)) = (2 * length bs)%nat /\
  forall c, c ∈ String.list_ascii_of_string (String.concat "" (map MD5.hex_byte bs)) ->
            c ∈ hex_alphabet.
Proof.
  induction bs as [|b bs IH]; intros Hr.
  - split; [done|]. intros c Hc. by apply elem_of_nil in Hc.
  - destruct IH as [IHl IHc]; [intros x Hx; apply Hr; by right|].
    destruct (hex_byte_chars b) as [Hl Hc]; [apply Hr; by left|].
    assert (Heq : String.concat "" (map MD5.hex_byte (b :: bs))
                  = MD5.hex_byte b +:+ String.concat "" (map MD5.hex_byte bs)).
    { simpl. destruct (map MD5.hex_byte bs) as [|h hs] eqn:E; [|done].
      simpl. by rewrite str_app_nil_r. }
    rewrite Heq. split.
    + rewrite str_length_app, Hl, IHl. simpl. lia.
    + intros c. rewrite list_ascii_app, elem_of_app. intros [?|?]; auto.
Qed.

Lemma str_take_chars n : forall s c,
  c ∈ String.list_ascii_of_string (str_take n s) -> c ∈ String.list_ascii_of_string s.
Proof.
  unfold str_take. induction n as [|n IH]; intros [|a s] c; simpl; try done.
  - intros Hc. by apply elem_of_nil in Hc.
  - intros Hc. apply elem_of_cons in Hc as [->|Hc]; [by left|]. right. by apply IH.
Qed.

Lemma str_take_full n : forall s,
  (n <= String.length s)%nat -> String.length (str_take n s) = n.
Proof.
  unfold str_take. induction n as [|n IH]; intros [|a s] Hl; simpl in *; try done; try lia.
  rewrite IH; [done|lia].
Qed.

(** X14. The graph version is always twelve characters long, each a
    lowercase hexadecimal digit - also for the empty segment list. *)
Theorem graph_version_format segs :
  String.length (compute_graph_version segs) = 12%nat /\
  forall c, c ∈ String.list_ascii_of_string (compute_graph_version segs) ->
            c ∈ String.list_ascii_of_string "0123456789abcdef".
Proof.
  unfold compute_graph_version, MD5.hexdigest.
  destruct (digest_bytes (MD5.encode (version_data segs))) as [Hlen Hr].
  destruct (concat_hex _ Hr) as [Hl Hc]. split.
  - apply str_take_full. rewrite Hl, Hlen. lia.
  - intros c Hin. apply Hc. by eapply str_take_chars.
Qed.

(** ** [augment_segments] and the graph that [main] writes *)

Lemma map_result_first_raise {A B} (f : A -> result B) pre x post e :
  (forall a, a ∈ pre -> exists b, f a = Ok b) -> f x = Raise e ->
  map_result f (pre ++ x :: post) = Raise e.
Proof.
  intros Hpre Hx. induction pre as [|a pre IH]; simpl.
  - by rewrite Hx.
  - destruct (Hpre a) as [b ->]; [by left|]. simpl. rewrite IH; [done|].
    intros a' Ha'. apply Hpre. by right.
Qed.

Lemma agree_split {X} (f : segment -> X) l pre s post :
  agree f l (pre ++ s :: post) ->
  exists pre' s' post', l = pre' ++ s' :: post' /\
    agree f pre' pre /\ f s' = f s /\ agree f post' post.
Proof.
  unfold agree. revert l. induction pre as [|a pre IH]; intros l Hl; simpl in Hl.
  - destruct l as [|s' post']; [done|]. simpl in Hl. injection Hl as Hs Hp.
    by exists [], s', post'.
  - destruct l as [|a' l]; [done|]. simpl in Hl. injection Hl as Ha Hl.
    destruct (IH l Hl) as (pre' & s' & post' & -> & Hpre & Hs & Hpost).
    exists (a' :: pre'), s', post'. split; [done|]. split; [|done].
    simpl. by rewrite Ha, Hpre.
Qed.

Section AugmentTheorems.
Variable atan2_deg : Q -> Q -> Q.
Variable sqrt : Q -> Q.

(** X15. What [augment_segments] stores in each record: the node ids
    that the two maps give for the record's id; a speed ratio clamped to
    [0.01, 1]; the polyline length rounded to two decimals; and an entry
    flag that is set exactly when the start node is a boundary node or the
    record has no predecessor.  The records keep their order, and their
    input fields, headings and link lists are untouched. *)
Theorem augment_segments_result segs nodes sm em out :
  augment_segments sqrt segs nodes sm em = Ok out ->
  length out = length segs /\
  forall j s s', segs !! j = Some s -> out !! j = Some s' ->
    input_fields s' = input_fields s /\
    startHeadingDeg s' = startHeadingDeg s /\ endHeadingDeg s' = endHeadingDeg s /\
    successors s' = successors s /\ predecessors s' = predecessors s /\
    sm !! seg_id s = Some (startNodeId s') /\ em !! seg_id s = Some (endNodeId s') /\
    (1 # 100) <= speedRatio s' /\ speedRatio s' <= 1 /\
    lengthMeters s' = py_round (compute_length sqrt (points s)) 2 /\
    exists start_node,
      od_get nodes (startNodeId s') = Some start_node /\
      (isEntry s' = true <-> isBoundary start_node = true \/ predecessors s = []).
Proof.
  intros Ha. apply augment_segments_Ok in Ha as [_ Ha].
  split; [symmetry; by eapply Forall2_length|].
  intros j s s' Hs Hs'.
  destruct (Forall2_lookup_l _ _ _ _ _ Ha Hs) as (s2 & Hs2 & Hstep).
  rewrite Hs' in Hs2. injection Hs2 as <-.
  apply augment_step_augmented in Hstep
    as (H1 & H2 & H3 & H4 & H5 & H6 & H7 & H8).
  unfold adjacency_fields in H2. injection H2 as ? ? ? ?. by repeat split.
Qed.


(** X17. In the graph that [main] writes for an input with unique
    segment ids, a successor starts where the segment ends: if the id of C
    is among the successors of S, then C's start node is S's end node, and
    C is not S. *)
Theorem successor_starts_at_end_node segs out S C :
  NoDup (map seg_id segs) ->
  augment_main atan2_deg sqrt segs = Ok out ->
  S ∈ out_segments out -> C ∈ out_segments out ->
  seg_id C ∈ successors S ->
  startNodeId C = endNodeId S /\ seg_id C <> seg_id S.
Proof.
  intros Hnd Hm HS HC Hin.
  destruct (augment_main_stages atan2_deg sqrt segs out Hm)
    as (bounds & nodes & sm & em & segs1 & _ & Hn & H1 & H2 & _).
  assert (Heps : exists eps, collect_endpoints segs = Ok eps).
  { unfold build_node_set in Hn. destruct (collect_endpoints segs); [eauto|done]. }
  destruct Heps as [eps Heps].
  pose proof (collect_endpoints_Ok _ _ Heps) as Hfor.
  destruct (build_node_set_spec bounds segs eps Heps) as (cl & nodes' & _ & Hc & Hnf & Hn').
  rewrite Hn in Hn'. injection Hn' as -> -> ->.
  pose proof (build_adjacency_fields _ _ _ _ _ _ H1) as Hf1.
  destruct (build_adjacency_spec _ _ _ _ _ _ H1) as (_ & Hok & _).
  apply augment_segments_Ok in H2 as [_ H2].
  apply list_elem_of_lookup in HS as [j Hj]. apply list_elem_of_lookup in HC as [k Hk].
  destruct (Forall2_lookup_r _ _ _ _ _ H2 Hj) as (S1 & HS1 & HstepS).
  destruct (Forall2_lookup_r _ _ _ _ _ H2 Hk) as (C1 & HC1 & HstepC).
  apply augment_step_augmented in HstepS as (HfS & HaS & _ & HemS & _).
  apply augment_step_augmented in HstepC as (HfC & _ & HsmC & _).
  unfold input_fields in HfS, HfC. injection HfS as HidS _ _ _ _.
  injection HfC as HidC _ _ _ _.
  unfold adjacency_fields in HaS. injection HaS as _ _ HsuS _.
  destruct (Hok S1) as (nid & end_node & Hem & Hg & Hspec & _);
    [by eapply list_elem_of_lookup_2|].
  rewrite HsuS in Hin. apply Hspec in Hin as (Hout & Hne & _).
  rewrite Hem in HemS. injection HemS as HendS.
  destruct (agree_lookup _ _ _ _ _ Hf1 HC1) as (C0 & HC0 & HfC0).
  unfold input_fields in HfC0. injection HfC0 as HidC0 _ _ _ _.
  destruct (segment_side_unique bounds segs eps cl nodes' true k C0 Hfor Hnd Hc Hnf HC0)
    as (nidC & nodeC & HsmC0 & _ & _ & Huniq).
  rewrite HidC0 in HsmC0. rewrite HsmC0 in HsmC. injection HsmC as HstartC.
  split; [|congruence].
  rewrite <- HstartC, <- HendS. symmetry.
  apply (Huniq nid end_node); [by apply od_get_elem|]. simpl.
  rewrite HidC0, <- HidC. exact Hout.
Qed.

(** X18. Which exception a missing speed or spawn rate raises.  When
    every record has at least two points, the first record of the list
    whose free-flow speed is zero or whose spawn-rate list is empty stops
    [main]: with [ZeroDivisionError] if that record's free-flow speed is
    zero, and with [ValueError] otherwise. *)
Theorem first_bad_record_decides pre s post :
  (forall t, t ∈ pre ++ s :: post -> (2 <= length (points t))%nat) ->
  (forall t, t ∈ pre -> ~ freeFlowSpeedMph t == 0 /\ spawnRates t <> []) ->
  (freeFlowSpeedMph s == 0 \/ spawnRates s = []) ->
  augment_main atan2_deg sqrt (pre ++ s :: post)
  = Raise (if Qeq_bool (freeFlowSpeedMph s) 0 then ZeroDivisionError else ValueError).
Proof.
  intros Hpts Hpre Hbad. set (segs := pre ++ s :: post) in *.
  assert (Hs : s ∈ segs) by (apply elem_of_app; right; by left).
  assert (Hne : forall t, t ∈ segs -> points t <> []).
  { intros t Ht Hnil. pose proof (Hpts t Ht) as Hl. rewrite Hnil in Hl. simpl in Hl. lia. }
  assert (Hp : exists p, p ∈ points s).
  { pose proof (Hne s Hs). destruct (points s) as [|p ?]; [done|]. exists p. by left. }
  destruct Hp as [p Hp].
  destruct (compute_data_bounds_total segs s p Hs Hp) as [bounds Hb].
  destruct (build_node_set_total bounds segs Hne) as (nodes & sm & em & Hn).
  destruct (node_set_ready _ _ _ _ _ Hn) as [Hready Hstart].
  destruct (build_adjacency_total atan2_deg segs nodes sm em Hpts Hready) as [segs1 H1].
  pose proof (build_adjacency_fields _ _ _ _ _ _ H1) as Hf.
  destruct (agree_split _ _ _ _ _ Hf) as (pre1 & s1 & post1 & E1 & Hfpre & Hfs & _).
  unfold augment_main. rewrite Hb. simpl. rewrite Hn. simpl. rewrite H1. simpl.
  assert (Hknown : forall t1, t1 ∈ segs1 ->
            (exists nid node, sm !! seg_id t1 = Some nid /\ od_get nodes nid = Some node) /\
            is_Some (em !! seg_id t1)).
  { intros t1 Ht1. destruct (agree_elem _ _ _ _ Hf Ht1) as (t & Ht & Hft).
    unfold input_fields in Hft. injection Hft as Hid _ _ _ _.
    assert (Hin : seg_id t1 ∈ map seg_id segs).
    { rewrite <- Hid. by apply list_elem_of_fmap_2. }
    split; [by apply Hstart|].
    destruct (Hready _ Hin) as (nid & ? & -> & _). eauto. }
  assert (Hraise : augment_step sqrt nodes sm em s1
            = Raise (if Qeq_bool (freeFlowSpeedMph s) 0
                     then ZeroDivisionError else ValueError)).
  { destruct (Hknown s1) as [(nid & node & Hsm & Hg) [en Hem]].
    { rewrite E1. apply elem_of_app. right. by left. }
    unfold input_fields in Hfs. injection Hfs as _ _ _ Hff Hsp.
    unfold augment_step. rewrite Hsm, Hem. simpl. unfold py_div. rewrite Hff.
    destruct (Qeq_bool (freeFlowSpeedMph s) 0) eqn:E; [done|]. simpl.
    destruct Hbad as [Hz|Hnil]; [apply Qeq_bool_neq in E; contradiction|].
    by rewrite Hsp, Hnil. }
  unfold augment_segments. rewrite E1.
  rewrite (map_result_first_raise (augment_step sqrt nodes sm em) pre1 s1 post1
             (if Qeq_bool (freeFlowSpeedMph s) 0 then ZeroDivisionError else ValueError));
    [done| |exact Hraise].
  intros t1 Ht1. apply augment_step_total.
  destruct (Hknown t1) as [Hk1 Hk2]; [rewrite E1; apply elem_of_app; by left|].
  destruct (agree_elem _ _ _ _ Hfpre Ht1) as (t & Ht & Hft).
  unfold input_fields in Hft. injection Hft as _ _ _ Hff Hsp.
  destruct (Hpre t Ht) as [Hff' Hsp'].
  split; [done|]. split; [done|]. split; [by rewrite <- Hff|by rewrite <- Hsp].
Qed.
End AugmentTheorems.

(** ** The union-find structure *)

Lemma find_compresses (depth : nat) (x r : string) (uf uf' : UnionFind string) :
  find depth x uf = Ok (r, uf') -> parent uf' !! x = Some r.
Proof.
  destruct depth as [|depth]; simpl; [done|]. intros Hf.
  destruct (parent uf !! x) as [p|] eqn:Hp; simpl in Hf; [|done].
  destruct (decide (p = x)) as [->|Hne].
  - by injection Hf as <- <-.
  - destruct (find depth p uf) as [[r1 uf1]|] eqn:E; simpl in Hf; [|done].
    injection Hf as <- <-. simpl. by rewrite lookup_insert_eq.
Qed.

Lemma find_at_root (depth : nat) (r : string) (uf : UnionFind string) :
  parent uf !! r = Some r -> find (S depth) r uf = Ok (r, uf).
Proof. intros Hr. simpl. rewrite Hr. simpl. by destruct (decide (r = r)). Qed.

Lemma find_step (depth : nat) (x p : string) (uf : UnionFind string) :
  parent uf !! x = Some p -> p <> x ->
  find (S depth) x uf
  = '(r, uf1) ← find depth p uf; Ok (r, mk_uf (<[x := r]> (parent uf1)) (rank uf1)).
Proof. intros Hp Hne. simpl. rewrite Hp. simpl. by destruct (decide (p = x)). Qed.

Lemma uf_eta (uf : UnionFind string) : mk_uf (parent uf) (rank uf) = uf.
Proof. by destruct uf. Qed.

(** X19. [find] on a forest whose ranks increase towards the roots: it
    returns the representative of its argument, points the argument at it,
    and changes neither the registered ids nor any representative; a second
    call returns the same representative and leaves the forest as it is.
    On an id that was never registered it raises [KeyError]. *)
Theorem find_returns_representative b (uf : UnionFind string) depth x :
  uf_wf b uf -> is_Some (parent uf !! x) -> (b - rank_of uf x < depth)%nat ->
  exists r uf',
    find depth x uf = Ok (r, uf') /\
    root_of uf x r /\ parent uf' !! x = Some r /\
    (forall y, is_Some (parent uf' !! y) <-> is_Some (parent uf !! y)) /\
    (forall y ry, root_of uf' y ry <-> root_of uf y ry) /\
    find depth x uf' = Ok (r, uf') /\
    forall z, parent uf !! z = None -> find depth z uf = Raise KeyError.
Proof.
  intros Hwf Hx Hd.
  destruct (find_spec b uf depth x Hwf Hx Hd) as (r & uf' & Hf & Hr & Hwf' & _ & Hdom & Hroots).
  exists r, uf'. split; [done|]. split; [done|].
  pose proof (find_compresses _ _ _ _ _ Hf) as Hc.
  split; [done|]. split; [exact Hdom|]. split; [exact Hroots|]. split.
  - assert (Hrr : parent uf' !! r = Some r).
    { eapply root_is_root. apply Hroots. exact Hr. }
    destruct depth as [|depth]; [lia|].
    destruct (decide (r = x)) as [->|Hne]; [by apply find_at_root|].
    destruct depth as [|depth].
    { simpl in Hf. destruct (parent uf !! x) as [p|]; simpl in Hf; [|done].
      destruct (decide (p = x)) as [->|_]; [|done]. injection Hf as -> _. done. }
    rewrite (find_step (S depth) x r uf' Hc Hne), (find_at_root depth r uf' Hrr).
    simpl. by rewrite (insert_id _ _ _ Hc), uf_eta.
  - intros z Hz. destruct depth as [|depth]; [lia|]. simpl. by rewrite Hz.
Qed.

Lemma find_returns_representative_witness :
  exists r uf',
    find 1 "1" (make_sets ["0"; "1"; "2"]) = Ok (r, uf') /\
    root_of (make_sets ["0"; "1"; "2"]) "1" r.
Proof.
  destruct (find_returns_representative 0 (make_sets ["0"; "1"; "2"]) 1 "1")
    as (r & uf' & Hf & Hr & _).
  - apply uf_discrete_wf, make_sets_spec.
  - apply make_sets_spec. set_solver.
  - lia.
  - by exists r, uf'.
Defined.

(** X20. [union] on such a forest joins the classes of its two arguments
    and no others: afterwards two ids have the same representative exactly
    when they had before, or one was in the class of the first argument and
    the other in the class of the second.  The registered ids are the same. *)
Theorem union_joins_two_classes b (uf : UnionFind string) depth x y :
  uf_wf b uf -> is_Some (parent uf !! x) -> is_Some (parent uf !! y) ->
  (b < depth)%nat ->
  exists uf',
    union depth x y uf = Ok uf' /\ uf_wf (S b) uf' /\
    (forall z, is_Some (parent uf' !! z) <-> is_Some (parent uf !! z)) /\
    forall a d, same_root uf' a d <->
      same_root uf a d \/ (same_root uf a x /\ same_root uf y d) \/
      (same_root uf a y /\ same_root uf x d).
Proof.
  intros Hwf Hx Hy Hd.
  destruct (union_spec b uf depth x y Hwf Hx Hy Hd) as (uf' & Hu & Hwf' & Hdom & Hkeep & Hxy).
  exists uf'. split; [done|]. split; [done|]. split; [exact Hdom|].
  intros a d. split; [by apply (union_exact b uf depth x y uf')|].
  intros [Had|[[Ha Hd']|[Ha Hd']]].
  - by apply Hkeep.
  - eapply same_root_trans; [apply Hkeep, Ha|].
    eapply same_root_trans; [exact Hxy|]. by apply Hkeep.
  - eapply same_root_trans; [apply Hkeep, Ha|].
    eapply same_root_trans; [apply same_root_sym, Hxy|]. by apply Hkeep.
Qed.

Lemma union_joins_two_classes_witness :
  exists uf',
    union 1 "0" "2" (make_sets ["0"; "1"; "2"]) = Ok uf' /\
    same_root uf' "0" "2".
Proof.
  destruct (union_joins_two_classes 0 (make_sets ["0"; "1"; "2"]) 1 "0" "2")
    as (uf' & Hu & _ & _ & Hiff).
  - apply uf_discrete_wf, make_sets_spec.
  - apply make_sets_spec. set_solver.
  - apply make_sets_spec. set_solver.
  - lia.
  - exists uf'. split; [done|]. apply Hiff. right. left. split.
    + exists "0". split; apply root_self; by vm_compute.
    + exists "2". split; apply root_self; by vm_compute.
Defined.

(** ** Headings, angles and lengths *)

Section Geometry.
Variable atan2_deg : Q -> Q -> Q.
Variable sqrt : Q -> Q.

(** X21. Whatever [atan2] returns, the headings that [build_adjacency]
    stores lie in [0, 360). *)
Theorem stored_headings_in_range segs nodes sm em segs' s :
  build_adjacency atan2_deg segs nodes sm em = Ok segs' -> s ∈ segs' ->
  0 <= startHeadingDeg s /\ startHeadingDeg s < 360 /\
  0 <= endHeadingDeg s /\ endHeadingDeg s < 360.
Proof.
  intros Hb Hs.
  destruct (build_adjacency_headings _ _ _ _ _ _ _ Hb Hs) as [[? ?] [? ?]].
  by repeat split.
Qed.





End Geometry.


(** X23. For two headings in [0, 360) the angle difference does not
    depend on their order, lies in [0, 180], and is zero exactly when the
    headings are equal. *)
Theorem angle_difference_symmetric h1 h2 :
  0 <= h1 /\ h1 < 360 -> 0 <= h2 /\ h2 < 360 ->
  angle_difference h1 h2 = angle_difference h2 h1 /\
  0 <= angle_difference h1 h2 /\ angle_difference h1 h2 <= 180 /\
  (angle_difference h1 h2 == 0 <-> h1 == h2).
Proof.
  intros [? ?] [? ?]. split; [|split; [|split]].
  - unfold angle_difference. cbv zeta. by rewrite (Qabs_Qminus h1 h2).
  - by apply angle_difference_range.
  - by apply angle_difference_range.
  - unfold angle_difference, py_min. cbv zeta.
    assert (Hd : 0 <= Qabs (h1 - h2) /\ Qabs (h1 - h2) < 360).
    { split; [apply Qabs_nonneg|]. apply Qabs_case; intros; lra. }
    destruct Hd as [Hd0 Hd1].
    destruct (Qltb (360 - Qabs (h1 - h2)) (Qabs (h1 - h2))) eqn:E.
    + apply Qltb_lt in E. split.
      * intros Hz. lra.
      * intros Heq. rewrite Heq in E. revert E. apply Qabs_case; intros; lra.
    + split.
      * intros Hz. revert Hz. apply Qabs_case; intros; lra.
      * intros Heq. rewrite Heq. apply Qabs_case; intros; lra.
Qed.

Lemma angle_difference_symmetric_witness :
  angle_difference 350 10 = angle_difference 10 350 /\
  angle_difference 350 10 <= 180.
Proof.
  destruct (angle_difference_symmetric 350 10) as (H1 & _ & H2 & _);
    [split; by vm_compute|split; by vm_compute|].
  by split.
Defined.

(** ** The properties above on the demonstration graph *)

(** A graph file as the validator reads it: [a] leads to [b], and [c] is on
    its own. *)
Definition demo_graph : list segment :=
  [ set_augmented "node_0000" "node_0001" 1 10 false true
      (set_successors ["b"] (raw_segment "a" [(0, 0, 0); (10, 0, 0)] 10 10 [1 # 10]));
    set_augmented "node_0001" "node_0002" 1 10 false false
      (set_predecessors ["a"] (raw_segment "b" [(10, 0, 0); (20, 0, 0)] 10 10 [1 # 10]));
    set_augmented "node_0003" "node_0004" 1 10 false false
      (raw_segment "c" [(500, 0, 0); (510, 0, 0)] 10 10 [1 # 10]) ].

Definition demo_graph_nodes : list RoadNode :=
  [ mk_node "node_0000" (0, 0) ["a"] [] true;
    mk_node "node_0001" (10, 0) ["b"] ["a"] false;
    mk_node "node_0002" (20, 0) [] ["b"] false;
    mk_node "node_0003" (500, 0) ["c"] [] false;
    mk_node "node_0004" (510, 0) [] ["c"] true ].

(** A decidable form of [links_symmetric]. *)
Definition links_symmetricb (segments : odict segment) : bool :=
  forallb (fun kv : string * segment =>
    forallb (fun b => match od_get segments b with
                      | Some sb => bool_decide (kv.1 ∈ successors sb ++ predecessors sb)
                      | None => true
                      end)
      (successors kv.2 ++ predecessors kv.2)) segments.

Lemma links_symmetricb_sound segments :
  links_symmetricb segments = true -> links_symmetric segments.
Proof.
  unfold links_symmetricb. rewrite forallb_forall. intros Hall a b (sa & Ha & Hab & [sb Hb]).
  pose proof (od_get_elem _ _ _ Ha) as Hin. apply list_elem_of_In in Hin.
  specialize (Hall _ Hin). simpl in Hall. rewrite forallb_forall in Hall.
  assert (Hb' : In b (successors sa ++ predecessors sa)).
  { apply list_elem_of_In, elem_of_app. tauto. }
  specialize (Hall b Hb'). rewrite Hb in Hall. apply bool_decide_eq_true in Hall.
  apply elem_of_app in Hall. exists sb. split; [done|]. split; [done|]. eauto.
Qed.

Lemma build_adjacency_keeps_input_witness :
  match build_adjacency demo_atan2 demo_segments demo_nodes demo_start_map demo_end_map with
  | Ok segs' => length segs' = length demo_segments
  | Raise _ => False
  end.
Proof.
  destruct (build_adjacency demo_atan2 demo_segments demo_nodes demo_start_map
              demo_end_map) as [segs'|e] eqn:E; [|vm_compute in E; discriminate E].
  by destruct (build_adjacency_keeps_input demo_atan2 _ _ _ _ _ E) as [Hlen _].
Defined.

Lemma stored_headings_in_range_witness :
  match build_adjacency demo_atan2 demo_segments demo_nodes demo_start_map demo_end_map with
  | Ok segs' =>
      forall s, s ∈ segs' ->
        0 <= startHeadingDeg s /\ startHeadingDeg s < 360 /\
        0 <= endHeadingDeg s /\ endHeadingDeg s < 360
  | Raise _ => False
  end.
Proof.
  destruct (build_adjacency demo_atan2 demo_segments demo_nodes demo_start_map
              demo_end_map) as [segs'|e] eqn:E; [|vm_compute in E; discriminate E].
  intros s Hs. exact (stored_headings_in_range demo_atan2 _ _ _ _ _ s E Hs).
Defined.

Lemma augment_main_output_witness :
  match augment_main demo_atan2 demo_sqrt demo_segments with
  | Ok out =>
      map input_fields (out_segments out) = map input_fields demo_segments /\
      nodeCount out = length (out_nodes out) /\
      totalSuccessorLinks out = count_links predecessors (out_segments out) /\
      graphVersion out = compute_graph_version demo_segments
  | Raise _ => False
  end.
Proof.
  destruct (augment_main demo_atan2 demo_sqrt demo_segments) as [out|e] eqn:E;
    [|vm_compute in E; discriminate E].
  destruct (augment_main_output demo_atan2 demo_sqrt _ _ E)
    as (H1 & H2 & _ & H3 & _ & _ & H4).
  by repeat split.
Defined.

Lemma components_partition_witness :
  match find_connected_components (segment_dict demo_graph) with
  | Ok comps =>
      (forall k, k ∈ od_keys (segment_dict demo_graph) <-> exists c, c ∈ comps /\ k ∈ c) /\
      NoDup comps
  | Raise _ => False
  end.
Proof.
  destruct (find_connected_components (segment_dict demo_graph)) as [comps|e] eqn:E;
    [|vm_compute in E; discriminate E].
  destruct (components_partition _ _ E) as (H1 & H2 & _). by split.
Defined.

Lemma components_are_link_classes_witness :
  match find_connected_components (segment_dict demo_graph) with
  | Ok comps =>
      (exists c, c ∈ comps /\ "a" ∈ c /\ "b" ∈ c) <->
      rtc (link (segment_dict demo_graph)) "a" "b"
  | Raise _ => False
  end.
Proof.
  destruct (find_connected_components (segment_dict demo_graph)) as [comps|e] eqn:E;
    [|vm_compute in E; discriminate E].
  apply (components_are_link_classes (segment_dict demo_graph) comps).
  - apply links_symmetricb_sound. by vm_compute.
  - exact E.
  - apply (bool_decide_unpack _). by vm_compute.
Defined.

Lemma reachable_is_forward_closure_witness :
  match find_reachable_from_entries (segment_dict demo_graph) with
  | Ok r => forall x, x ∈ r -> x ∈ od_keys (segment_dict demo_graph)
  | Raise _ => False
  end.
Proof.
  destruct (find_reachable_from_entries (segment_dict demo_graph)) as [r|e] eqn:E;
    [|vm_compute in E; discriminate E].
  by destruct (reachable_is_forward_closure _ _ E) as [_ H].
Defined.

Lemma report_counts_bounded_witness :
  match validate_graph demo_graph demo_graph_nodes with
  | Ok report =>
      (largestComponentSize report <= totalSegments report)%nat /\
      (componentCount report <= totalSegments report)%nat
  | Raise _ => False
  end.
Proof.
  destruct (validate_graph demo_graph demo_graph_nodes) as [report|e] eqn:E;
    [|vm_compute in E; discriminate E].
  destruct (report_counts_bounded _ _ _ E) as (_ & H1 & _ & _ & H2 & _). by split.
Defined.

Lemma validator_on_augmented_graph_witness :
  match augment_main demo_atan2 demo_sqrt demo_segments with
  | Ok out =>
      exists report,
        validate_graph (out_segments out) (out_nodes out) = Ok report /\
        totalSegments report = length demo_segments /\
        totalNodes report = nodeCount out /\
        avgSuccessors report = avgPredecessors report
  | Raise _ => False
  end.
Proof.
  destruct (augment_main demo_atan2 demo_sqrt demo_segments) as [out|e] eqn:E;
    [|vm_compute in E; discriminate E].
  assert (Hnd : NoDup (map seg_id demo_segments))
    by (apply (bool_decide_unpack _); vm_compute; reflexivity).
  destruct (validator_on_augmented_graph demo_atan2 demo_sqrt _ _ Hnd E)
    as (report & comps & H1 & H2 & H3 & _ & _ & H4 & _).
  exists report. by repeat split.
Defined.

Lemma augment_segments_result_witness :
  match augment_segments demo_sqrt demo_segments demo_nodes demo_start_map demo_end_map with
  | Ok out => length out = length demo_segments
  | Raise _ => False
  end.
Proof.
  destruct (augment_segments demo_sqrt demo_segments demo_nodes demo_start_map
              demo_end_map) as [out|e] eqn:E; [|vm_compute in E; discriminate E].
  by destruct (augment_segments_result demo_sqrt _ _ _ _ _ E) as [Hlen _].
Defined.


Lemma successor_starts_at_end_node_witness :
  match augment_main demo_atan2 demo_sqrt demo_segments with
  | Ok out =>
      exists S C, out_segments out !! 0%nat = Some S /\ out_segments out !! 1%nat = Some C /\
        startNodeId C = endNodeId S
  | Raise _ => False
  end.
Proof.
  destruct (augment_main demo_atan2 demo_sqrt demo_segments) as [out|e] eqn:E;
    [|vm_compute in E; discriminate E].
  assert (Hnd : NoDup (map seg_id demo_segments))
    by (apply (bool_decide_unpack _); vm_compute; reflexivity).
  destruct (out_segments out !! 0%nat) as [S|] eqn:E0.
  2:{ pose proof E as E'. vm_compute in E'. injection E' as <-. discriminate E0. }
  destruct (out_segments out !! 1%nat) as [C|] eqn:E1.
  2:{ pose proof E as E'. vm_compute in E'. injection E' as <-. discriminate E1. }
  exists S, C. split; [done|]. split; [done|].
  destruct (successor_starts_at_end_node demo_atan2 demo_sqrt demo_segments out S C Hnd E)
    as [H _]; [by eapply list_elem_of_lookup_2|by eapply list_elem_of_lookup_2| |exact H].
  pose proof E as E'. vm_compute in E'. injection E' as <-.
  vm_compute in E0. injection E0 as <-. vm_compute in E1. injection E1 as <-.
  simpl. by left.
Defined.

(** A record whose free-flow speed is zero. *)
Definition demo_stalled : segment :=
  raw_segment "z" [(0, 0, 0); (1, 0, 0)] 12 0 [5 # 100].

Lemma first_bad_record_decides_witness :
  augment_main demo_atan2 demo_sqrt (demo_segments ++ [demo_stalled])
  = Raise ZeroDivisionError.
Proof.
  apply (first_bad_record_decides demo_atan2 demo_sqrt demo_segments demo_stalled []).
  - apply Forall_forall. repeat constructor.
  - apply Forall_forall. repeat constructor; by vm_compute.
  - left. by vm_compute.
Defined.

(** ** When [build_node_set] completes *)

(** X24. [build_node_set] completes exactly when every record has a
    point; a record without points stops it with [IndexError] (from
    [pts[0]]).  The extent plays no part in this, and the empty list gives
    the empty node set. *)
Theorem node_set_completes_iff bounds segs :
  ((exists nodes sm em, build_node_set bounds segs = Ok (nodes, (sm, em))) <->
   forall s, s ∈ segs -> points s <> []) /\
  ((exists s, s ∈ segs /\ points s = []) ->
   build_node_set bounds segs = Raise IndexError) /\
  build_node_set bounds [] = Ok ([], (∅, ∅)).
Proof.
  assert (Hbad : (exists s, s ∈ segs /\ points s = []) ->
                 build_node_set bounds segs = Raise IndexError).
  { intros (s & Hs & Hp). unfold build_node_set.
    by rewrite (collect_endpoints_empty_points segs s Hs Hp). }
  split; [|split; [exact Hbad|by vm_compute]].
  split.
  - intros (nodes & sm & em & Hb) s Hs Hp.
    rewrite Hbad in Hb; [done|]. by exists s.
  - apply build_node_set_total.
Qed.
